(** * Birdhouse: provider streaming core

    A shallow embedding of the provider-sdk adapters, the agent-server
    streaming endpoint and the client SSE transport, with the properties
    the specification states about them.

    JavaScript strings are modelled as [string], read as the UTF-8 bytes
    of the text.  Every delimiter the code inspects (["data:"], LF, CR,
    ["{prompt}"], the JSON punctuation) is ASCII, so searching, slicing
    and splitting act on bytes exactly as they act on UTF-16 code units. *)

From Stdlib Require Import String Ascii List ZArith Lia Bool Arith.
From Stdlib Require Import DecimalString DecimalN DecimalZ.
Import ListNotations.

Local Open Scope string_scope.
Local Open Scope list_scope.

(* ================================================================== *)
(** * Part I: definitions                                              *)
(* ================================================================== *)

(** ** JavaScript string primitives used by the sources *)

Module JsString.

Definition LF : ascii := "010"%char.
Definition CR : ascii := "013"%char.

Definition str1 (c : ascii) : string := String c EmptyString.

Definition is_empty (s : string) : bool :=
  match s with EmptyString => true | _ => false end.

(** Truthiness of a string: [Boolean(s)], [if (s)], [s || t]. *)
Definition truthy (s : string) : bool := negb (is_empty s).

(** [a || b] on strings. *)
Definition or_else (a b : string) : string := if truthy a then a else b.

Fixpoint rev (s : string) : string :=
  match s with
  | EmptyString => EmptyString
  | String c r => (rev r ++ str1 c)%string
  end.

Fixpoint drop (n : nat) (s : string) : string :=
  match n, s with
  | O, _ => s
  | S k, String _ r => drop k r
  | S _, EmptyString => EmptyString
  end.

Fixpoint take (n : nat) (s : string) : string :=
  match n, s with
  | S k, String c r => String c (take k r)
  | _, _ => EmptyString
  end.

(** [p] is a prefix of [s]. *)
Fixpoint has_prefix (p s : string) : bool :=
  match p with
  | EmptyString => true
  | String a p' =>
      match s with
      | String b s' => Ascii.eqb a b && has_prefix p' s'
      | EmptyString => false
      end
  end.

Definition startsWith (s p : string) : bool := has_prefix p s.

(** [s.includes(p)]. *)
Fixpoint includes (s p : string) : bool :=
  has_prefix p s ||
  match s with
  | EmptyString => false
  | String _ r => includes r p
  end.

(** [s.indexOf(p)], [None] standing for [-1]. *)
Fixpoint indexOf (s p : string) : option nat :=
  if has_prefix p s then Some 0
  else match s with
       | EmptyString => None
       | String _ r => option_map S (indexOf r p)
       end.

(** [arr.join(sep)]. *)
Definition join (sep : string) (l : list string) : string := String.concat sep l.

(** One white-space or line-terminator character at the head of [s],
    as [String.prototype.trim] classifies them, in UTF-8: the ASCII
    ones, U+00A0, U+1680, U+2000..U+200A, U+2028, U+2029, U+202F,
    U+205F, U+3000 and U+FEFF.  Returns what follows it. *)
Definition ascii_space (c : ascii) : bool :=
  match c with
  | "009" | "010" | "011" | "012" | "013" | " " => true
  | _ => false
  end%char.

Definition in_range (lo hi : N) (c : ascii) : bool :=
  (N.leb lo (N_of_ascii c) && N.leb (N_of_ascii c) hi)%bool.

Definition is_byte (n : N) (c : ascii) : bool := N.eqb (N_of_ascii c) n.

Definition strip_space (s : string) : option string :=
  match s with
  | EmptyString => None
  | String a r1 =>
      if ascii_space a then Some r1
      else match r1 with
      | EmptyString => None
      | String b r2 =>
          if is_byte 194 a && is_byte 160 b then Some r2
          else match r2 with
          | EmptyString => None
          | String c r3 =>
              if (is_byte 225 a && is_byte 154 b && is_byte 128 c)
              || (is_byte 226 a && is_byte 128 b &&
                   (in_range 128 138 c || is_byte 168 c || is_byte 169 c || is_byte 175 c))
              || (is_byte 226 a && is_byte 129 b && is_byte 159 c)
              || (is_byte 227 a && is_byte 128 b && is_byte 128 c)
              || (is_byte 239 a && is_byte 187 b && is_byte 191 c)
              then Some r3 else None
          end
      end
  end.

(** The same character read backwards, for trimming the end. *)
Definition strip_space_rev (s : string) : option string :=
  match s with
  | EmptyString => None
  | String c r1 =>
      if ascii_space c then Some r1
      else match r1 with
      | EmptyString => None
      | String b r2 =>
          if is_byte 194 b && is_byte 160 c then Some r2
          else match r2 with
          | EmptyString => None
          | String a r3 =>
              if (is_byte 225 a && is_byte 154 b && is_byte 128 c)
              || (is_byte 226 a && is_byte 128 b &&
                   (in_range 128 138 c || is_byte 168 c || is_byte 169 c || is_byte 175 c))
              || (is_byte 226 a && is_byte 129 b && is_byte 159 c)
              || (is_byte 227 a && is_byte 128 b && is_byte 128 c)
              || (is_byte 239 a && is_byte 187 b && is_byte 191 c)
              then Some r3 else None
          end
      end
  end.

Fixpoint trim_fuel (strip : string -> option string) (fuel : nat) (s : string) : string :=
  match fuel with
  | O => s
  | S k => match strip s with
           | Some r => trim_fuel strip k r
           | None => s
           end
  end.

Definition trimStart (s : string) : string :=
  trim_fuel strip_space (String.length s) s.

Definition trimEnd (s : string) : string :=
  rev (trim_fuel strip_space_rev (String.length s) (rev s)).

(** [s.trim()]. *)
Definition trim (s : string) : string := trimEnd (trimStart s).

Fixpoint string_forall (P : ascii -> bool) (s : string) : bool :=
  match s with
  | EmptyString => true
  | String c r => P c && string_forall P r
  end.

(** No character of [s] is [c]. *)
Definition free_of (c : ascii) (s : string) : bool :=
  string_forall (fun x => negb (Ascii.eqb x c)) s.

(** [s.replace(/\r\n/g, "\n")]. *)
Fixpoint replace_crlf (s : string) : string :=
  match s with
  | EmptyString => EmptyString
  | String c r =>
      match r with
      | String d r' =>
          if (Ascii.eqb c CR && Ascii.eqb d LF)%bool
          then String LF (replace_crlf r')
          else String c (replace_crlf r)
      | EmptyString => String c EmptyString
      end
  end.

(** [s.split("\n")]: [cur] holds the current piece, reversed. *)
Fixpoint split_lf_acc (cur : string) (s : string) : list string :=
  match s with
  | EmptyString => [rev cur]
  | String c r =>
      if Ascii.eqb c LF then rev cur :: split_lf_acc EmptyString r
      else split_lf_acc (String c cur) r
  end.

Definition split_lf (s : string) : list string := split_lf_acc EmptyString s.

(** [s.split("\n\n")]: separators are taken left to right without
    overlap. *)
Fixpoint split_blank_acc (cur : string) (s : string) : list string :=
  match s with
  | EmptyString => [rev cur]
  | String c r =>
      match r with
      | String d r' =>
          if (Ascii.eqb c LF && Ascii.eqb d LF)%bool
          then rev cur :: split_blank_acc EmptyString r'
          else split_blank_acc (String c cur) r
      | EmptyString => [rev (String c cur)]
      end
  end.

Definition split_blank (s : string) : list string := split_blank_acc EmptyString s.

(** [s.split(/\r?\n/)]: at each position the pattern takes CR LF when
    it can, a lone LF otherwise; a CR not followed by LF stays. *)
Fixpoint split_lines_acc (cur : string) (s : string) : list string :=
  match s with
  | EmptyString => [rev cur]
  | String c r =>
      if Ascii.eqb c LF then rev cur :: split_lines_acc EmptyString r
      else match r with
           | String d r' =>
               if (Ascii.eqb c CR && Ascii.eqb d LF)%bool
               then rev cur :: split_lines_acc EmptyString r'
               else split_lines_acc (String c cur) r
           | EmptyString => [rev (String c cur)]
           end
  end.

Definition split_lines (s : string) : list string := split_lines_acc EmptyString s.

(** [s.split(/\r\n|\r|\n/)]. *)
Fixpoint split_newlines_acc (cur : string) (s : string) : list string :=
  match s with
  | EmptyString => [rev cur]
  | String c r =>
      if Ascii.eqb c LF then rev cur :: split_newlines_acc EmptyString r
      else if Ascii.eqb c CR then
        match r with
        | String d r' =>
            if Ascii.eqb d LF then rev cur :: split_newlines_acc EmptyString r'
            else rev cur :: split_newlines_acc EmptyString r
        | EmptyString => [rev cur; EmptyString]
        end
      else split_newlines_acc (String c cur) r
  end.

Definition split_newlines (s : string) : list string := split_newlines_acc EmptyString s.

(** [GetSubstitution] of ECMA-262 for a string pattern: there are no
    captures, so [$$], [$&], [$`] and [$'] are the only patterns that
    expand; [$n] and [$<] stay as written. *)
Fixpoint GetSubstitution (matched before after template : string) : string :=
  match template with
  | EmptyString => EmptyString
  | String c r =>
      if Ascii.eqb c "$" then
        match r with
        | EmptyString => String c EmptyString
        | String d r' =>
            if Ascii.eqb d "$" then String "$" (GetSubstitution matched before after r')
            else if Ascii.eqb d "&" then (matched ++ GetSubstitution matched before after r')%string
            else if Ascii.eqb d "`" then (before ++ GetSubstitution matched before after r')%string
            else if Ascii.eqb d "'" then (after ++ GetSubstitution matched before after r')%string
            else String c (GetSubstitution matched before after r)
        end
      else String c (GetSubstitution matched before after r)
  end.

(** [s.replaceAll(search, replacement)] for a non-empty string
    [search].  [before] is the part of the subject already passed
    (reversed), [skip] counts the characters of a match still to be
    stepped over. *)
Fixpoint replaceAll_from (search replacement : string)
         (before : string) (skip : nat) (s : string) : string :=
  match s with
  | EmptyString => EmptyString
  | String c r =>
      match skip with
      | S k => replaceAll_from search replacement (String c before) k r
      | O =>
          if has_prefix search s then
            (GetSubstitution search (rev before)
                             (drop (String.length search) s) replacement
             ++ replaceAll_from search replacement (String c before)
                                (String.length search - 1) r)%string
          else String c (replaceAll_from search replacement (String c before) 0 r)
      end
  end.

Definition replaceAll (s search replacement : string) : string :=
  replaceAll_from search replacement EmptyString 0 s.

(** Replacing every occurrence by a fixed text, with no pattern
    language in the replacement: what "replace every occurrence of
    [search] by [text]" says. *)
Fixpoint substitute_from (search text : string) (skip : nat) (s : string) : string :=
  match s with
  | EmptyString => EmptyString
  | String c r =>
      match skip with
      | S k => substitute_from search text k r
      | O =>
          if has_prefix search s then
            (text ++ substitute_from search text (String.length search - 1) r)%string
          else String c (substitute_from search text 0 r)
      end
  end.

Definition substitute (s search text : string) : string :=
  substitute_from search text 0 s.

End JsString.
Import JsString.

(** ** JSON values, [JSON.stringify] and [JSON.parse] *)

Module Json.

(** A value [JSON.parse] can return.  A number is kept as the decimal
    [m * 10^e] its literal denotes, not rounded to a double.  An
    object lists its own properties in the order [Object.values] and
    [JSON.stringify] visit them. *)
#[local] Set Warnings "-register-all".

Inductive JSON : Type :=
| JNull
| JBool (b : bool)
| JNumber (m e : Z)
| JString (s : string)
| JArray (items : list JSON)
| JObject (props : list (string * JSON)).

Definition DQUOTE : ascii := "034"%char.
Definition BSLASH : ascii := "092"%char.

(** Writes a JSON text with ['] where the text has the double quote. *)
Fixpoint dq (s : string) : string :=
  match s with
  | EmptyString => EmptyString
  | String c r => String (if Ascii.eqb c "'" then DQUOTE else c) (dq r)
  end.

(** *** Property access *)

(** [obj[key]] on an object whose own properties are [props];
    [None] is [undefined]. *)
Fixpoint obj_get (props : list (string * JSON)) (key : string) : option JSON :=
  match props with
  | [] => None
  | (k, v) :: r => if String.eqb k key then Some v else obj_get r key
  end.

Fixpoint read_uint (s : string) : Decimal.uint * string :=
  match s with
  | EmptyString => (Decimal.Nil, EmptyString)
  | String c r =>
      let k (mk : Decimal.uint -> Decimal.uint) :=
        let '(d, r') := read_uint r in (mk d, r') in
      match c with
      | "0" => k Decimal.D0 | "1" => k Decimal.D1 | "2" => k Decimal.D2
      | "3" => k Decimal.D3 | "4" => k Decimal.D4 | "5" => k Decimal.D5
      | "6" => k Decimal.D6 | "7" => k Decimal.D7 | "8" => k Decimal.D8
      | "9" => k Decimal.D9
      | _ => (Decimal.Nil, s)
      end%char
  end.

Definition is_nil (d : Decimal.uint) : bool :=
  match d with Decimal.Nil => true | _ => false end.

(** A decimal with no superfluous leading zero: ["0"] or a digit
    string that starts with a non-zero digit. *)
Definition canonical_uint (d : Decimal.uint) : bool :=
  match d with
  | Decimal.Nil => false
  | Decimal.D0 Decimal.Nil => true
  | Decimal.D0 _ => false
  | _ => true
  end.

(** An array index: a canonical numeric string below [2^32 - 1].
    Such keys come first among an object's own properties, in
    ascending order. *)
Definition array_index (k : string) : option N :=
  match read_uint k with
  | (d, EmptyString) =>
      if canonical_uint d && N.ltb (N.of_uint d) 4294967295
      then Some (N.of_uint d) else None
  | _ => None
  end.

Fixpoint obj_replace (props : list (string * JSON)) (key : string) (v : JSON)
  : list (string * JSON) :=
  match props with
  | [] => []
  | (k, x) :: r =>
      if String.eqb k key then (k, v) :: r else (k, x) :: obj_replace r key v
  end.

Fixpoint obj_insert_index (props : list (string * JSON)) (i : N) (key : string) (v : JSON)
  : list (string * JSON) :=
  match props with
  | [] => [(key, v)]
  | (k, x) :: r =>
      match array_index k with
      | Some j => if N.ltb j i then (k, x) :: obj_insert_index r i key v
                  else (key, v) :: props
      | None => (key, v) :: props
      end
  end.

(** [obj[key] = v] (CreateDataProperty): an existing property keeps
    its place, a new one takes the place its key gives it. *)
Definition obj_set (props : list (string * JSON)) (key : string) (v : JSON)
  : list (string * JSON) :=
  match obj_get props key with
  | Some _ => obj_replace props key v
  | None =>
      match array_index key with
      | Some i => obj_insert_index props i key v
      | None => props ++ [(key, v)]
      end
  end.

Definition object_of_entries (entries : list (string * JSON)) : list (string * JSON) :=
  fold_left (fun acc kv => obj_set acc (fst kv) (snd kv)) entries [].

(** *** JSON.stringify *)

Definition hex_digit (n : N) : ascii :=
  ascii_of_N (if N.ltb n 10 then 48 + n else 87 + n)%N.

(** One character of [QuoteJSONString]. *)
Definition quote_char (c : ascii) : string :=
  let n := N_of_ascii c in
  if N.eqb n 8 then String BSLASH "b"
  else if N.eqb n 9 then String BSLASH "t"
  else if N.eqb n 10 then String BSLASH "n"
  else if N.eqb n 12 then String BSLASH "f"
  else if N.eqb n 13 then String BSLASH "r"
  else if N.eqb n 34 then String BSLASH (str1 DQUOTE)
  else if N.eqb n 92 then String BSLASH (str1 BSLASH)
  else if N.ltb n 32 then
    String BSLASH (String "u" (String "0" (String "0"
      (String (hex_digit (N.div n 16)) (str1 (hex_digit (N.modulo n 16)))))))
  else str1 c.

Fixpoint quote_chars (s : string) : string :=
  match s with
  | EmptyString => EmptyString
  | String c r => (quote_char c ++ quote_chars r)%string
  end.

Definition quote (s : string) : string :=
  String DQUOTE (quote_chars s ++ str1 DQUOTE)%string.

Definition dec_of_N (n : N) : string :=
  DecimalString.NilEmpty.string_of_uint (N.to_uint n).

Definition dec_of_Z (z : Z) : string :=
  if Z.ltb z 0 then String "-" (dec_of_N (Z.abs_N z)) else dec_of_N (Z.abs_N z).

(** An integer prints in plain decimal, as [Number::toString] prints
    the integers the sources produce; any other number is written
    with an exponent. *)
Definition number_text (m e : Z) : string :=
  if Z.eqb e 0 then dec_of_Z m
  else (dec_of_Z m ++ String "e" (dec_of_Z e))%string.

Fixpoint stringify (v : JSON) : string :=
  match v with
  | JNull => "null"
  | JBool true => "true"
  | JBool false => "false"
  | JNumber m e => number_text m e
  | JString s => quote s
  | JArray items =>
      ("[" ++ join "," (map stringify items) ++ "]")%string
  | JObject props =>
      ("{" ++ join "," (map (fun kv => (quote (fst kv) ++ ":" ++ stringify (snd kv))%string) props)
           ++ "}")%string
  end.

(** *** JSON.parse *)

Definition json_space (c : ascii) : bool :=
  match c with
  | " " | "009" | "010" | "013" => true
  | _ => false
  end%char.

Fixpoint skip_ws (s : string) : string :=
  match s with
  | String c r => if json_space c then skip_ws r else s
  | EmptyString => EmptyString
  end.

Definition hex_value (c : ascii) : option N :=
  let n := N_of_ascii c in
  if in_range 48 57 c then Some (n - 48)%N
  else if in_range 97 102 c then Some (n - 87)%N
  else if in_range 65 70 c then Some (n - 55)%N
  else None.

Definition hex4 (a b c d : ascii) : option N :=
  match hex_value a, hex_value b, hex_value c, hex_value d with
  | Some x, Some y, Some z, Some w => Some (((x * 16 + y) * 16 + z) * 16 + w)%N
  | _, _, _, _ => None
  end.

Definition byte (n : N) : ascii := ascii_of_N (N.modulo n 256).

(** UTF-8 of a code point; an unpaired surrogate code unit gets the
    three-byte form as well. *)
Definition utf8_encode (cp : N) : string :=
  if N.ltb cp 128 then str1 (byte cp)
  else if N.ltb cp 2048 then
    String (byte (192 + cp / 64)%N) (str1 (byte (128 + cp mod 64)%N))
  else if N.ltb cp 65536 then
    String (byte (224 + cp / 4096)%N)
      (String (byte (128 + (cp / 64) mod 64)%N) (str1 (byte (128 + cp mod 64)%N)))
  else
    String (byte (240 + cp / 262144)%N)
      (String (byte (128 + (cp / 4096) mod 64)%N)
        (String (byte (128 + (cp / 64) mod 64)%N) (str1 (byte (128 + cp mod 64)%N)))).

Definition simple_escape (c : ascii) : option ascii :=
  match c with
  | "b" => Some "008" | "t" => Some "009" | "n" => Some "010"
  | "f" => Some "012" | "r" => Some "013" | "/" => Some "/"
  | "034" => Some "034" | "092" => Some "092"
  | _ => None
  end%char.

Definition after (r : option (string * string)) (pre : string) : option (string * string) :=
  match r with
  | Some (t, rest) => Some ((pre ++ t)%string, rest)
  | None => None
  end.

(** The characters of a string literal after its opening quote, up to
    and including the closing quote. *)
Fixpoint parse_string_body (s : string) : option (string * string) :=
  match s with
  | EmptyString => None
  | String c r =>
      if Ascii.eqb c DQUOTE then Some (EmptyString, r)
      else if Ascii.eqb c BSLASH then
        match r with
        | EmptyString => None
        | String e r1 =>
            if Ascii.eqb e "u" then
              match r1 with
              | String h1 (String h2 (String h3 (String h4 r2))) =>
                  match hex4 h1 h2 h3 h4 with
                  | None => None
                  | Some hi =>
                      let single := after (parse_string_body r2) (utf8_encode hi) in
                      if N.leb 55296 hi && N.leb hi 56319 then
                        match r2 with
                        | String b1 (String u1 (String l1 (String l2 (String l3 (String l4 r3))))) =>
                            match (if Ascii.eqb b1 BSLASH && Ascii.eqb u1 "u"
                                   then hex4 l1 l2 l3 l4 else None) with
                            | Some lo =>
                                if N.leb 56320 lo && N.leb lo 57343 then
                                  after (parse_string_body r3)
                                        (utf8_encode (65536 + (hi - 55296) * 1024 + (lo - 56320))%N)
                                else single
                            | None => single
                            end
                        | _ => single
                        end
                      else single
                  end
              | _ => None
              end
            else
              match simple_escape e with
              | Some x => after (parse_string_body r1) (str1 x)
              | None => None
              end
        end
      else if N.ltb (N_of_ascii c) 32 then None
      else after (parse_string_body r) (str1 c)
  end.

(** A leading [-]. *)
Definition take_minus (s : string) : bool * string :=
  match s with
  | String c r => if Ascii.eqb c "-" then (true, r) else (false, s)
  | EmptyString => (false, s)
  end.

(** The sign of an exponent. *)
Definition take_sign (s : string) : bool * string :=
  match s with
  | String c r =>
      if Ascii.eqb c "-" then (true, r)
      else if Ascii.eqb c "+" then (false, r)
      else (false, s)
  | EmptyString => (false, s)
  end.

(** [frac?]: the digits after a decimal point, [Nil] when there is
    none. *)
Definition take_fraction (s : string) : option (Decimal.uint * string) :=
  if has_prefix "." s then
    let '(fp, r) := read_uint (drop 1 s) in
    if is_nil fp then None else Some (fp, r)
  else Some (Decimal.Nil, s).

(** [exp?]: the exponent, [0] when there is none. *)
Definition take_exponent (s : string) : option (Z * string) :=
  if has_prefix "e" s || has_prefix "E" s then
    let '(eneg, r1) := take_sign (drop 1 s) in
    let '(ed, r2) := read_uint r1 in
    if is_nil ed then None
    else Some (if eneg : bool then (- Z.of_N (N.of_uint ed))%Z else Z.of_N (N.of_uint ed), r2)
  else Some (0%Z, s).

(** A number literal: [-? int frac? exp?]. *)
Definition parse_number (s : string) : option (JSON * string) :=
  let '(neg, s1) := take_minus s in
  let '(ip, s2) := read_uint s1 in
  if negb (canonical_uint ip) then None else
  match take_fraction s2 with
  | None => None
  | Some (fp, s3) =>
      match take_exponent s3 with
      | None => None
      | Some (ex, s4) =>
          let digits := Z.of_N (N.of_uint (Decimal.app ip fp)) in
          Some (JNumber (if neg : bool then (- digits)%Z else digits)
                        (ex - Z.of_nat (Decimal.nb_digits fp))%Z, s4)
      end
  end.

Fixpoint parse_value (fuel : nat) (s : string) {struct fuel} : option (JSON * string) :=
  match fuel with
  | O => None
  | S f =>
      match skip_ws s with
      | EmptyString => None
      | String c r as s' =>
          if Ascii.eqb c "{" then
            if has_prefix "}" (skip_ws r) then Some (JObject [], drop 1 (skip_ws r))
            else match parse_members f r with
                 | Some (entries, r') => Some (JObject (object_of_entries entries), r')
                 | None => None
                 end
          else if Ascii.eqb c "[" then
            if has_prefix "]" (skip_ws r) then Some (JArray [], drop 1 (skip_ws r))
            else match parse_elements f r with
                 | Some (items, r') => Some (JArray items, r')
                 | None => None
                 end
          else if Ascii.eqb c DQUOTE then
            match parse_string_body r with
            | Some (t, r') => Some (JString t, r')
            | None => None
            end
          else if has_prefix "true" s' then Some (JBool true, drop 4 s')
          else if has_prefix "false" s' then Some (JBool false, drop 5 s')
          else if has_prefix "null" s' then Some (JNull, drop 4 s')
          else parse_number s'
      end
  end
with parse_elements (fuel : nat) (s : string) {struct fuel} : option (list JSON * string) :=
  match fuel with
  | O => None
  | S f =>
      match parse_value f s with
      | None => None
      | Some (v, r) =>
          match skip_ws r with
          | String c r' =>
              if Ascii.eqb c "," then
                match parse_elements f r' with
                | Some (vs, r'') => Some (v :: vs, r'')
                | None => None
                end
              else if Ascii.eqb c "]" then Some ([v], r')
              else None
          | EmptyString => None
          end
      end
  end
with parse_members (fuel : nat) (s : string) {struct fuel}
  : option (list (string * JSON) * string) :=
  match fuel with
  | O => None
  | S f =>
      match skip_ws s with
      | String q r =>
          if negb (Ascii.eqb q DQUOTE) then None else
          match parse_string_body r with
          | None => None
          | Some (k, r1) =>
              if negb (has_prefix ":" (skip_ws r1)) then None else
              match skip_ws r1 with
              | String _ r2 =>
                  match parse_value f r2 with
                  | None => None
                  | Some (v, r3) =>
                      match skip_ws r3 with
                      | String c r4 =>
                          if Ascii.eqb c "," then
                            match parse_members f r4 with
                            | Some (ps, r5) => Some ((k, v) :: ps, r5)
                            | None => None
                            end
                          else if Ascii.eqb c "}" then Some ([(k, v)], r4)
                          else None
                      | EmptyString => None
                      end
                  end
              | _ => None
              end
          end
      | EmptyString => None
      end
  end.

(** [JSON.parse(text)]: [None] when it throws [SyntaxError]. *)
Definition parse (text : string) : option JSON :=
  match parse_value (2 * String.length text + 2) text with
  | Some (v, rest) => if is_empty (skip_ws rest) then Some v else None
  | None => None
  end.

End Json.
Import Json.

(** ** The wire protocol (packages/protocol) *)

Module Protocol.

Inductive ProviderKind :=
| ai_sdk | openclaw | pi_mono | terminal_cli
| claude_code_cli | openclaw_cli | nanoclaw_cli.

Definition kind_text (k : ProviderKind) : string :=
  match k with
  | ai_sdk => "ai-sdk" | openclaw => "openclaw" | pi_mono => "pi-mono"
  | terminal_cli => "terminal-cli" | claude_code_cli => "claude-code-cli"
  | openclaw_cli => "openclaw-cli" | nanoclaw_cli => "nanoclaw-cli"
  end.

Inductive AttachmentKind := image | file.

Definition attachment_kind_text (k : AttachmentKind) : string :=
  match k with image => "image" | file => "file" end.

Record Attachment := mkAttachment {
  att_id : option string;
  att_kind : AttachmentKind;
  att_name : string;
  att_mimeType : option string;
  att_sizeBytes : option N;
  att_uri : option string;
  att_dataBase64 : option string
}.

Inductive MessageStatus := sending | sent | received | read | failed | streaming.

Definition status_text (st : MessageStatus) : string :=
  match st with
  | sending => "sending" | sent => "sent" | received => "received"
  | read => "read" | failed => "failed" | streaming => "streaming"
  end.

Inductive StreamEvent :=
| message_start (messageId threadId createdAt : string)
| token (text : string)
| attachment (a : Attachment)
| typing (isTyping : bool)
| message_end (messageId text : string) (status : MessageStatus) (createdAt : string)
| error (code message : string) (retryable : bool).

Record OutboundMessageInput := mkOutbound {
  out_text : string;
  out_attachments : list Attachment
}.

(** *** The event as [JSON.stringify] sees it

    Properties come in the order the object literals of the sources
    (and the schema, for an attachment) write them; a property whose
    value is [undefined] is left out. *)

Definition optional (key : string) (v : option JSON) : list (string * JSON) :=
  match v with Some x => [(key, x)] | None => [] end.

Definition json_of_attachment (a : Attachment) : JSON :=
  JObject (optional "id" (option_map JString (att_id a))
           ++ [("kind", JString (attachment_kind_text (att_kind a)));
               ("name", JString (att_name a))]
           ++ optional "mimeType" (option_map JString (att_mimeType a))
           ++ optional "sizeBytes" (option_map (fun n => JNumber (Z.of_N n) 0) (att_sizeBytes a))
           ++ optional "uri" (option_map JString (att_uri a))
           ++ optional "dataBase64" (option_map JString (att_dataBase64 a))).

Definition json_of_event (e : StreamEvent) : JSON :=
  match e with
  | message_start mid tid at_ =>
      JObject [("type", JString "message_start"); ("messageId", JString mid);
               ("threadId", JString tid); ("createdAt", JString at_)]
  | token t =>
      JObject [("type", JString "token"); ("text", JString t)]
  | attachment a =>
      JObject [("type", JString "attachment"); ("attachment", json_of_attachment a)]
  | typing b =>
      JObject [("type", JString "typing"); ("isTyping", JBool b)]
  | message_end mid t st at_ =>
      JObject [("type", JString "message_end"); ("messageId", JString mid);
               ("text", JString t); ("status", JString (status_text st));
               ("createdAt", JString at_)]
  | error c m r =>
      JObject [("type", JString "error"); ("code", JString c);
               ("message", JString m); ("retryable", JBool r)]
  end.

(** [JSON.stringify(event)]. *)
Definition stringify_event (e : StreamEvent) : string := stringify (json_of_event e).

(** *** The zod schemas

    [is_datetime] stands for zod's [z.string().datetime()] check, which
    is the library's. *)
Section Schemas.

Variable is_datetime : string -> bool.

Definition bind_opt {A B} (x : option A) (f : A -> option B) : option B :=
  match x with Some a => f a | None => None end.

Local Notation "x <- a ;; b" := (bind_opt a (fun x => b))
  (at level 61, a at next level, right associativity).

(** [z.string()] on a required property. *)
Definition z_string (props : list (string * JSON)) (key : string) : option string :=
  match obj_get props key with
  | Some (JString s) => Some s
  | _ => None
  end.

(** [z.string().min(1)]. *)
Definition z_string1 (props : list (string * JSON)) (key : string) : option string :=
  s <- z_string props key ;;
  if truthy s then Some s else None.

(** [z.string().min(1).optional()]. *)
Definition z_string1_opt (props : list (string * JSON)) (key : string)
  : option (option string) :=
  match obj_get props key with
  | None => Some None
  | Some (JString s) => if truthy s then Some (Some s) else None
  | Some _ => None
  end.

Definition z_datetime (props : list (string * JSON)) (key : string) : option string :=
  s <- z_string props key ;;
  if is_datetime s then Some s else None.

Definition z_boolean (props : list (string * JSON)) (key : string) : option bool :=
  match obj_get props key with
  | Some (JBool b) => Some b
  | _ => None
  end.

(** The value of [m * 10^e] when it is a non-negative integer. *)
Definition nonneg_integer (m e : Z) : option N :=
  if Z.ltb m 0 then None
  else if Z.leb 0 e then Some (Z.to_N (m * 10 ^ e))
  else if Z.eqb (m mod 10 ^ (- e)) 0 then Some (Z.to_N (m / 10 ^ (- e)))
  else None.

(** [z.number().int().nonnegative().optional()]. *)
Definition z_size_opt (props : list (string * JSON)) (key : string) : option (option N) :=
  match obj_get props key with
  | None => Some None
  | Some (JNumber m e) => option_map Some (nonneg_integer m e)
  | Some _ => None
  end.

Definition AttachmentKind_parse (s : string) : option AttachmentKind :=
  if String.eqb s "image" then Some image
  else if String.eqb s "file" then Some file
  else None.

Definition MessageStatus_parse (s : string) : option MessageStatus :=
  if String.eqb s "sending" then Some sending
  else if String.eqb s "sent" then Some sent
  else if String.eqb s "received" then Some received
  else if String.eqb s "read" then Some read
  else if String.eqb s "failed" then Some failed
  else if String.eqb s "streaming" then Some streaming
  else None.

Definition AttachmentSchema_parse (v : JSON) : option Attachment :=
  match v with
  | JObject props =>
      id <- z_string1_opt props "id" ;;
      k <- bind_opt (z_string props "kind") AttachmentKind_parse ;;
      name <- z_string1 props "name" ;;
      mime <- z_string1_opt props "mimeType" ;;
      size <- z_size_opt props "sizeBytes" ;;
      uri <- z_string1_opt props "uri" ;;
      data <- z_string1_opt props "dataBase64" ;;
      Some (mkAttachment id k name mime size uri data)
  | _ => None
  end.

(** [StreamEventSchema.safeParse(v)]: [None] when [success] is
    false ([StreamEventSchema.parse] then throws).  Unknown
    properties are stripped, [retryable] defaults to [false]. *)
Definition StreamEventSchema_parse (v : JSON) : option StreamEvent :=
  match v with
  | JObject props =>
      ty <- z_string props "type" ;;
      if String.eqb ty "message_start" then
        mid <- z_string1 props "messageId" ;;
        tid <- z_string1 props "threadId" ;;
        at_ <- z_datetime props "createdAt" ;;
        Some (message_start mid tid at_)
      else if String.eqb ty "token" then
        t <- z_string props "text" ;;
        Some (token t)
      else if String.eqb ty "attachment" then
        a <- bind_opt (obj_get props "attachment") AttachmentSchema_parse ;;
        Some (attachment a)
      else if String.eqb ty "typing" then
        b <- z_boolean props "isTyping" ;;
        Some (typing b)
      else if String.eqb ty "message_end" then
        mid <- z_string1 props "messageId" ;;
        t <- z_string props "text" ;;
        st <- bind_opt (z_string props "status") MessageStatus_parse ;;
        at_ <- z_datetime props "createdAt" ;;
        Some (message_end mid t st at_)
      else if String.eqb ty "error" then
        c <- z_string1 props "code" ;;
        m <- z_string1 props "message" ;;
        r <- match obj_get props "retryable" with
             | None => Some false
             | Some (JBool b) => Some b
             | Some _ => None
             end ;;
        Some (error c m r)
      else None
  | _ => None
  end.

Definition some_truthy (o : option string) : bool :=
  match o with Some s => truthy s | None => true end.

Definition Attachment_valid (a : Attachment) : bool :=
  some_truthy (att_id a) && truthy (att_name a) && some_truthy (att_mimeType a)
  && some_truthy (att_uri a) && some_truthy (att_dataBase64 a).

(** The constraints the schema puts on a value of type
    [StreamEvent]. *)
Definition StreamEvent_valid (e : StreamEvent) : bool :=
  match e with
  | message_start mid tid at_ => truthy mid && truthy tid && is_datetime at_
  | token _ => true
  | attachment a => Attachment_valid a
  | typing _ => true
  | message_end mid _ _ at_ => truthy mid && is_datetime at_
  | error c m _ => truthy c && truthy m
  end.

End Schemas.

End Protocol.
Import Protocol.

(** ** Generators: the effects of an [async function*]

    A generator of the sources yields events, may throw, may wait for a
    promise that never settles, and draws identifiers and timestamps
    from the platform.  [World] holds what the platform answers to the
    successive calls of [randomId()] and [new Date().toISOString()]. *)

Module Gen.

(** What a [throw] (or a rejected promise) carries. *)
Inductive Thrown :=
| ErrorObject (message : string)
| ThrownValue (v : JSON).

Record World := mkWorld {
  id_supply : nat -> string;
  clock : nat -> string;
  id_calls : nat;
  clock_calls : nat
}.

Inductive Result (A : Type) :=
| Returned (a : A)
| Threw (t : Thrown)
| Pending.
Arguments Returned {A} a.
Arguments Threw {A} t.
Arguments Pending {A}.

Record Run (A : Type) := mkRun {
  emitted : list StreamEvent;
  result : Result A;
  world : World
}.
Arguments mkRun {A} _ _ _.
Arguments emitted {A} _.
Arguments result {A} _.
Arguments world {A} _.

Definition Gen (A : Type) := World -> Run A.

Definition ret {A} (a : A) : Gen A := fun w => mkRun [] (Returned a) w.

Definition bind {A B} (g : Gen A) (k : A -> Gen B) : Gen B :=
  fun w =>
    match g w with
    | mkRun events (Returned a) w1 =>
        match k a w1 with
        | mkRun more res w2 => mkRun (events ++ more) res w2
        end
    | mkRun events (Threw t) w1 => mkRun events (Threw t) w1
    | mkRun events Pending w1 => mkRun events Pending w1
    end.

Definition yield (e : StreamEvent) : Gen unit := fun w => mkRun [e] (Returned tt) w.

Definition throw {A} (t : Thrown) : Gen A := fun w => mkRun [] (Threw t) w.

Definition throw_error {A} (message : string) : Gen A := throw (ErrorObject message).

(** [await p] for a promise whose fate is known. *)
Definition await {A} (p : Result A) : Gen A := fun w => mkRun [] p w.

Definition randomId : Gen string :=
  fun w => mkRun [] (Returned (id_supply w (id_calls w)))
                 (mkWorld (id_supply w) (clock w) (S (id_calls w)) (clock_calls w)).

Definition nowISO : Gen string :=
  fun w => mkRun [] (Returned (clock w (clock_calls w)))
                 (mkWorld (id_supply w) (clock w) (id_calls w) (S (clock_calls w))).

(** [for (const x of xs) { body(x) }]. *)
Fixpoint for_each {A} (xs : list A) (body : A -> Gen unit) : Gen unit :=
  match xs with
  | [] => ret tt
  | x :: r => bind (body x) (fun _ => for_each r body)
  end.

(** [error instanceof Error ? error.message : fallback]. *)
Definition message_or (t : Thrown) (fallback : string) : string :=
  match t with
  | ErrorObject m => m
  | ThrownValue _ => fallback
  end.

End Gen.
Import Gen.

Declare Scope gen_scope.
Delimit Scope gen_scope with gen.
Notation "x <- a ;; b" := (Gen.bind a (fun x => b))
  (at level 61, a at next level, right associativity) : gen_scope.
Notation "a ;; b" := (Gen.bind a (fun _ => b))
  (at level 61, right associativity) : gen_scope.

(** ** The provider adapters (packages/provider-sdk) *)

Module ProviderSdk.

Inductive CliParseMode := parse_text | parse_json.

Record ResolvedCliCommand := mkCommand {
  command : string;
  args : list string;
  cwd : option string;
  env : option (list (string * string));
  timeoutMs : Z;
  stdinText : option string;
  parse_mode : CliParseMode
}.

Record CliProviderExtra := mkExtra {
  x_command : option string;
  x_args : option (list string);
  x_cwd : option string;
  x_env : option (list (string * string));
  x_timeoutMs : option Z;
  x_stdin : option bool;
  x_parse : option CliParseMode
}.

Record ProviderSendInput := mkInput {
  contact_extra : list (string * JSON);
  threadId : string;
  message : OutboundMessageInput
}.

Definition DEFAULT_CLI_TIMEOUT_MS : Z := 180000.

Definition attachment_summary (a : Attachment) : string :=
  (attachment_kind_text (att_kind a) ++ ":" ++ att_name a ++
   match att_mimeType a with
   | Some m => if truthy m then " (" ++ m ++ ")" else ""
   | None => ""
   end)%string.

Definition buildAttachmentContext (m : OutboundMessageInput) : string :=
  match out_attachments m with
  | [] => ""
  | atts =>
      (String LF (String LF "Attachments: ") ++ join ", " (map attachment_summary atts))%string
  end.

Definition getPrompt (input : ProviderSendInput) : string :=
  (out_text (message input) ++ buildAttachmentContext (message input))%string.

Definition as_strings (items : list JSON) : option (list string) :=
  fold_right (fun v acc => match v, acc with
                           | JString s, Some l => Some (s :: l)
                           | _, _ => None
                           end) (Some []) items.

(** [Math.floor] of the positive number [m * 10^e]. *)
Definition floor_number (m e : Z) : Z :=
  if Z.leb 0 e then (m * 10 ^ e)%Z else (m / 10 ^ (- e))%Z.

Definition parseCliExtra (extra : list (string * JSON)) : CliProviderExtra :=
  mkExtra
    (match obj_get extra "command" with
     | Some (JString c) => if truthy (trim c) then Some (trim c) else None
     | _ => None
     end)
    (match obj_get extra "args" with
     | Some (JArray items) => as_strings items
     | _ => None
     end)
    (match obj_get extra "cwd" with
     | Some (JString c) => if truthy (trim c) then Some (trim c) else None
     | _ => None
     end)
    (match obj_get extra "env" with
     | Some (JObject entries) =>
         Some (flat_map (fun kv => match snd kv with
                                   | JString v => [(fst kv, v)]
                                   | _ => []
                                   end) entries)
     | _ => None
     end)
    (match obj_get extra "timeoutMs" with
     | Some (JNumber m e) => if Z.ltb 0 m then Some (floor_number m e) else None
     | _ => None
     end)
    (match obj_get extra "stdin" with
     | Some (JBool b) => Some b
     | _ => None
     end)
    (match obj_get extra "parse" with
     | Some (JString t) =>
         if String.eqb t "text" then Some parse_text
         else if String.eqb t "json" then Some parse_json
         else None
     | _ => None
     end).

Definition PLACEHOLDER : string := "{prompt}".

Definition applyPromptToArgs (args : list string) (prompt : string)
           (appendPromptIfMissing : bool) : list string :=
  let hasPlaceholder := existsb (fun arg => includes arg PLACEHOLDER) args in
  let resolved :=
    map (fun arg => if includes arg PLACEHOLDER
                    then replaceAll arg PLACEHOLDER prompt
                    else arg) args in
  if appendPromptIfMissing && negb hasPlaceholder then resolved ++ [prompt]
  else resolved.

Definition preferredKeys : list string :=
  ["text"; "message"; "output"; "response"; "result"; "completion"; "content"].

(** The text found for [obj[key]], given the text extracted from each
    property value; a missing property is [undefined], whose text is
    empty. *)
Fixpoint text_at (texts : list (string * string)) (key : string) : string :=
  match texts with
  | [] => ""
  | (k, t) :: r => if String.eqb k key then t else text_at r key
  end.

Definition first_truthy (l : list string) : option string := find truthy l.

Definition nonempty (t : string) : bool := negb (Nat.eqb (String.length t) 0).

(** What one call of [extractTextFromUnknown] returns, given room
    for every call it makes: the text [extractTextFromUnknown] below
    returns when the call stack is deep enough for the value. *)
Fixpoint extracted_text (value : JSON) : string :=
  match value with
  | JString s => s
  | JArray items =>
      trim (join (str1 LF) (filter truthy (map extracted_text items)))
  | JObject props =>
      let texts := map (fun kv => (fst kv, extracted_text (snd kv))) props in
      match first_truthy (map (text_at texts) preferredKeys) with
      | Some text => text
      | None =>
          match find nonempty (map snd texts) with
          | Some nested => nested
          | None => ""
          end
      end
  | _ => ""
  end.

Definition all_some {A} (l : list (option A)) : option (list A) :=
  fold_right (fun x acc => match x, acc with
                           | Some a, Some r => Some (a :: r)
                           | _, _ => None
                           end) (Some []) l.

(** The loop over the preferred keys: the calls are made in order and
    the first text that is not empty ends the loop; a call that fails
    ends it too. *)
Fixpoint first_truthy_call (call : option JSON -> option string)
         (props : list (string * JSON)) (keys : list string) : option (option string) :=
  match keys with
  | [] => Some None
  | key :: r =>
      match call (obj_get props key) with
      | None => None
      | Some text => if truthy text then Some (Some text)
                     else first_truthy_call call props r
      end
  end.

(** [extractTextFromUnknown(value)], run the way the engine runs it.
    The function has no depth guard: every call, the calls on a
    missing property ([undefined], here [None]) included, takes room
    on the engine's call stack, and a call with no room left raises
    [RangeError], here the result [None].  [stack] is the number of
    nested calls of the function the stack has room for, a call
    taking the same room wherever it is made; the calls of an array
    are all made, in order ([map]), those of the preferred keys stop
    at the first text that is not empty, and those of
    [Object.values(obj).map] are all made before [find] looks at the
    texts. *)
Fixpoint extractTextFromUnknown (stack : nat) (value : option JSON) : option string :=
  match stack with
  | O => None
  | S room =>
      match value with
      | Some (JString s) => Some s
      | Some (JArray items) =>
          match all_some (map (fun item => extractTextFromUnknown room (Some item)) items) with
          | Some texts => Some (trim (join (str1 LF) (filter truthy texts)))
          | None => None
          end
      | Some (JObject props) =>
          match first_truthy_call (extractTextFromUnknown room) props preferredKeys with
          | None => None
          | Some (Some text) => Some text
          | Some None =>
              match all_some (map (fun kv => extractTextFromUnknown room (Some (snd kv)))
                                  props) with
              | Some texts =>
                  Some match find nonempty texts with
                       | Some nested => nested
                       | None => ""
                       end
              | None => None
              end
          end
      | _ => Some ""
      end
  end.

(** The values [extractTextFromUnknown value] calls itself on. *)
Inductive recursive_call : JSON -> JSON -> Prop :=
| call_item : forall items item,
    In item items -> recursive_call (JArray items) item
| call_property : forall props key v,
    In (key, v) props -> recursive_call (JObject props) v.

Fixpoint json_depth (v : JSON) : nat :=
  match v with
  | JArray items => S (fold_right (fun x acc => Nat.max (json_depth x) acc) 0 items)
  | JObject props =>
      S (fold_right (fun kv acc => Nat.max (json_depth (snd kv)) acc) 0 props)
  | _ => 0
  end.

(** The inner [try] of [normalizeCliOutput]: what one line adds to
    [parts].  The [catch] takes the [SyntaxError] of [JSON.parse] and
    the [RangeError] of the extraction alike. *)
Definition extracted_part (stack : nat) (line : string) : list string :=
  match Json.parse line with
  | Some parsed =>
      match extractTextFromUnknown stack (Some parsed) with
      | Some extracted =>
          let text := trim extracted in
          if truthy text then [text] else []
      | None => []
      end
  | None => []
  end.

(** [normalizeCliOutput].  The outer [try] holds the parse of the
    whole document and the extraction; whichever of the two throws,
    the [catch] reads the output line by line. *)
Definition normalizeCliOutput (stack : nat) (stdout stderr : string)
           (parseMode : CliParseMode) : string :=
  let trimmedStdout := trim stdout in
  let fallback := if nonempty trimmedStdout then trimmedStdout else trim stderr in
  let by_lines :=
    let lines := filter truthy (map trim (split_lines trimmedStdout)) in
    let parts := flat_map (extracted_part stack) lines in
    match parts with
    | [] => fallback
    | _ => join (str1 LF) parts
    end in
  match parseMode with
  | parse_json =>
      if nonempty trimmedStdout then
        match Json.parse trimmedStdout with
        | Some parsed =>
            match extractTextFromUnknown stack (Some parsed) with
            | Some extracted =>
                let text := trim extracted in
                if truthy text then text else fallback
            | None => by_lines
            end
        | None => by_lines
        end
      else fallback
  | parse_text => fallback
  end.

(** [lines.map((line, index) => index < lines.length - 1 ? line + "\n" : line)]. *)
Fixpoint newline_all_but_last (lines : list string) : list string :=
  match lines with
  | [] => []
  | [line] => [line]
  | line :: rest => (line ++ str1 LF)%string :: newline_all_but_last rest
  end.

Definition chunkText (text : string) : list string :=
  let trimmed := trim text in
  if negb (truthy trimmed) then []
  else
    let lines := filter nonempty (split_lines trimmed) in
    if Nat.leb (List.length lines) 1 then [trimmed]
    else newline_all_but_last lines.

(** *** runCliCommand

    The promise [runCliCommand] returns is settled by the handlers
    the function registers; [Signal] lists what the timer and the
    child process deliver to those handlers, one handler run at a
    time. *)

Inductive Signal :=
| StdoutData (chunk : string)
| StderrData (chunk : string)
| TimerFired
| ChildError (err : Thrown)
| ChildClose (code : option Z).

Definition terminal (sig : Signal) : bool :=
  match sig with
  | TimerFired | ChildError _ | ChildClose _ => true
  | _ => false
  end.

(** What happens around the child, seen from the Node process.  The
    prompt is written to [child.stdin] and the stream is ended with
    no listener for its ['error'] event: when the stream fails (the
    child has closed it or is gone) the event is thrown as an
    uncaught exception and ends the process, so that no handler runs
    after it.  [delivered] is the run of signals the handlers get to
    see. *)
Inductive ProcessEvent :=
| Handled (sig : Signal)
| StdinError (err : Thrown).

Fixpoint delivered (events : list ProcessEvent) : list Signal :=
  match events with
  | Handled sig :: r => sig :: delivered r
  | _ => []
  end.

(** What the child wrote to each stream over a run of signals. *)
Fixpoint stdout_of (signals : list Signal) : string :=
  match signals with
  | [] => ""
  | StdoutData chunk :: r => (chunk ++ stdout_of r)%string
  | _ :: r => stdout_of r
  end.

Fixpoint stderr_of (signals : list Signal) : string :=
  match signals with
  | [] => ""
  | StderrData chunk :: r => (chunk ++ stderr_of r)%string
  | _ :: r => stderr_of r
  end.

Inductive Settlement (A : Type) :=
| Resolve (a : A)
| Reject (t : Thrown).
Arguments Resolve {A} a.
Arguments Reject {A} t.

Record CliResult := mkCliResult {
  stdout : string;
  stderr : string;
  exitCode : Z
}.

(** The state the closures of the promise executor share.
    [settle_calls] records every call of [resolve] or [reject], in
    order; [kills] the signals sent to the child. *)
Record Proc (A : Type) := mkProc {
  out_buf : string;
  err_buf : string;
  completed : bool;
  settle_calls : list (Settlement A);
  kills : list string;
  timer_cleared : bool;
  stdin_written : option string;
  stdin_ended : bool
}.
Arguments mkProc {A} _ _ _ _ _ _ _ _.
Arguments out_buf {A} _.
Arguments err_buf {A} _.
Arguments completed {A} _.
Arguments settle_calls {A} _.
Arguments kills {A} _.
Arguments timer_cleared {A} _.
Arguments stdin_written {A} _.
Arguments stdin_ended {A} _.

(** A promise keeps the first settlement. *)
Definition promise_state {A} (p : Proc A) : option (Settlement A) := hd_error (settle_calls p).

Definition timeout_message (cmd : ResolvedCliCommand) : string :=
  ("CLI command timed out after " ++ dec_of_Z (timeoutMs cmd) ++ "ms: " ++ command cmd)%string.

Definition runCliCommand_spawn (cmd : ResolvedCliCommand) : Proc CliResult :=
  mkProc "" "" false [] [] false
         (match stdinText cmd with
          | Some t => if nonempty t then Some t else None
          | None => None
          end)
         true.

Definition runCliCommand_step (cmd : ResolvedCliCommand)
           (p : Proc CliResult) (sig : Signal) : Proc CliResult :=
  match sig with
  | StdoutData chunk =>
      mkProc (out_buf p ++ chunk)%string (err_buf p) (completed p) (settle_calls p)
             (kills p) (timer_cleared p) (stdin_written p) (stdin_ended p)
  | StderrData chunk =>
      mkProc (out_buf p) (err_buf p ++ chunk)%string (completed p) (settle_calls p)
             (kills p) (timer_cleared p) (stdin_written p) (stdin_ended p)
  | TimerFired =>
      if completed p then p
      else mkProc (out_buf p) (err_buf p) true
                  (settle_calls p ++ [Reject (ErrorObject (timeout_message cmd))])
                  (kills p ++ ["SIGTERM"]) (timer_cleared p)
                  (stdin_written p) (stdin_ended p)
  | ChildError err =>
      if completed p then p
      else mkProc (out_buf p) (err_buf p) true
                  (settle_calls p ++ [Reject err])
                  (kills p) true (stdin_written p) (stdin_ended p)
  | ChildClose code =>
      if completed p then p
      else mkProc (out_buf p) (err_buf p) true
                  (settle_calls p ++
                   [Resolve (mkCliResult (out_buf p) (err_buf p)
                                         (match code with Some c => c | None => 0%Z end))])
                  (kills p) true (stdin_written p) (stdin_ended p)
  end.

Definition runCliCommand (cmd : ResolvedCliCommand) (signals : list Signal) : Proc CliResult :=
  fold_left (runCliCommand_step cmd) signals (runCliCommand_spawn cmd).

(** What [await runCliCommand(command)] gives the caller. *)
Definition awaited {A} (p : Proc A) : Result A :=
  match promise_state p with
  | Some (Resolve a) => Returned a
  | Some (Reject t) => Threw t
  | None => Pending
  end.

(** *** CliWrappedProviderAdapter *)

Record CliWrappedProviderAdapter := mkAdapter {
  kind : ProviderKind;
  defaultCommand : option string;
  defaultArgs : list string;
  defaultParse : CliParseMode
}.

Definition or_default {A} (o : option A) (d : A) : A :=
  match o with Some a => a | None => d end.

Definition resolveCommand (self : CliWrappedProviderAdapter) (input : ProviderSendInput)
  : Thrown + ResolvedCliCommand :=
  let extra := parseCliExtra (contact_extra input) in
  let cmd := match x_command extra with
             | Some c => Some c
             | None => defaultCommand self
             end in
  match cmd with
  | Some c =>
      if truthy c then
        let prompt := getPrompt input in
        let stdinMode := or_default (x_stdin extra) false in
        let rawArgs := or_default (x_args extra) (defaultArgs self) in
        inr (mkCommand c (applyPromptToArgs rawArgs prompt (negb stdinMode))
                       (x_cwd extra) (x_env extra)
                       (or_default (x_timeoutMs extra) DEFAULT_CLI_TIMEOUT_MS)
                       (if stdinMode then Some prompt else None)
                       (or_default (x_parse extra) (defaultParse self)))
      else inl (ErrorObject (kind_text (kind self) ++
             dq " requires provider.extra.command. Example: {'command':'nanoclaw','args':['{prompt}']}"))
  | None => inl (ErrorObject (kind_text (kind self) ++
             dq " requires provider.extra.command. Example: {'command':'nanoclaw','args':['{prompt}']}"))
  end.

(** The text of the failure for a non-zero exit code:
    [stderr.trim() || stdout.trim() || `exit code ${exitCode}`]. *)
Definition errorText (r : CliResult) : string :=
  or_else (trim (stderr r))
          (or_else (trim (stdout r)) ("exit code " ++ dec_of_Z (exitCode r))%string).

Local Open Scope gen_scope.

(** [signals] is what the timer and the spawned process deliver
    while the generator waits; [stack] is the room the call stack has
    when the output is normalized. *)
Definition sendMessageStream (stack : nat) (self : CliWrappedProviderAdapter)
           (signals : list Signal) (input : ProviderSendInput) : Gen unit :=
  messageId <- randomId ;;
  createdAt <- nowISO ;;
  yield (message_start messageId (threadId input) createdAt) ;;
  yield (typing true) ;;
  match resolveCommand self input with
  | inl err => throw err
  | inr cmd =>
      r <- await (awaited (runCliCommand cmd signals)) ;;
      if negb (Z.eqb (exitCode r) 0) then
        throw_error (kind_text (kind self) ++ " command failed: " ++ errorText r)
      else
        let text := normalizeCliOutput stack (stdout r) (stderr r) (parse_mode cmd) in
        for_each (chunkText text) (fun chunk => yield (token chunk)) ;;
        yield (typing false) ;;
        endedAt <- nowISO ;;
        yield (message_end messageId text received endedAt)
  end.

End ProviderSdk.

(** ** HTTP responses and the streaming text decoder *)

Module Http.

(** A [Response]: [body] is [None] for a null body, otherwise the
    chunks [reader.read()] delivers before [done]. *)
Record Response := mkResponse {
  ok : bool;
  status : nat;
  content_type : option string;
  body : option (list string)
}.

Definition concat_chunks (chunks : list string) : string :=
  fold_right String.append EmptyString chunks.

(** The byte order mark, U+FEFF in UTF-8. *)
Definition BOM : string :=
  String (ascii_of_N 239) (String (ascii_of_N 187) (str1 (ascii_of_N 191))).

(** The platform's UTF-8 decoding drops a byte order mark that starts
    the bytes. *)
Definition strip_bom (bytes : string) : string :=
  if has_prefix BOM bytes then drop 3 bytes else bytes.

(** [await response.text()]. *)
Definition response_text (r : Response) : string :=
  match body r with
  | Some chunks => strip_bom (concat_chunks chunks)
  | None => EmptyString
  end.

(** [response.headers.get("content-type") ?? ""]. *)
Definition contentType (r : Response) : string :=
  match content_type r with Some t => t | None => EmptyString end.

Definition status_code_text (r : Response) : string := dec_of_N (N.of_nat (status r)).

(** [new TextDecoder("utf-8")] used with [{ stream: true }]: a byte
    order mark that starts the stream is dropped, and bytes that end
    a chunk in the middle of a multi-byte character are held back
    until the next chunk completes it.  [pending_len] counts them,
    reading the text backwards.  Ill-formed bytes are kept as they
    are, where the platform puts U+FFFD; the framing below looks at
    ASCII bytes only. *)
Definition continuation (c : ascii) : bool := in_range 128 191 c.

Definition sequence_length (c : ascii) : nat :=
  if in_range 192 223 c then 2
  else if in_range 224 239 c then 3
  else if in_range 240 247 c then 4
  else 1.

Definition pending_len (reversed : string) : nat :=
  match reversed with
  | EmptyString => 0
  | String a r1 =>
      if Nat.leb 2 (sequence_length a) then 1
      else if continuation a then
        match r1 with
        | EmptyString => 0
        | String b r2 =>
            if Nat.leb 3 (sequence_length b) then 2
            else if continuation b then
              match r2 with
              | EmptyString => 0
              | String c _ => if Nat.leb 4 (sequence_length c) then 3 else 0
              end
            else 0
        end
      else 0
  end.

(** The whole characters of [held ++ chunk], and the bytes of the
    unfinished character that ends it. *)
Definition decode_bytes (held chunk : string) : string * string :=
  let all := (held ++ chunk)%string in
  let keep := String.length all - pending_len (rev all) in
  (take keep all, drop keep all).

(** The state of a decoder.  At the start of the stream [at_start]
    holds the bytes read so far, as long as they may still begin a
    byte order mark; it is [None] once the start is behind.  [held]
    is the unfinished character. *)
Record Decoder := mkDecoder {
  at_start : option string;
  held : string
}.

(** The bytes of a chunk that are passed on, the byte order mark
    left out. *)
Definition skip_bom (start : option string) (chunk : string) : string * option string :=
  match start with
  | None => (chunk, None)
  | Some seen =>
      let all := (seen ++ chunk)%string in
      if has_prefix BOM all then (drop 3 all, None)
      else if has_prefix all BOM then (EmptyString, Some all)
      else (all, None)
  end.

(** [decoder.decode(value, { stream: true })]: the text decoded and
    the next state of the decoder. *)
Definition decode_stream (d : Decoder) (chunk : string) : string * Decoder :=
  let '(bytes, start) := skip_bom (at_start d) chunk in
  let '(text, held') := decode_bytes (held d) bytes in
  (text, mkDecoder start held').

(** The bytes a decoder still keeps. *)
Definition kept (d : Decoder) : string :=
  (match at_start d with Some seen => seen | None => EmptyString end ++ held d)%string.

(** [decoder.decode()]: an unfinished character becomes U+FFFD. *)
Definition decode_end (d : Decoder) : string :=
  if truthy (kept d)
  then String (ascii_of_N 239) (String (ascii_of_N 191) (str1 (ascii_of_N 189)))
  else EmptyString.

(** The inner [while (true)] of both SSE readers: complete frames are
    cut off the front of the buffer.  The loop runs at most once per
    two characters of the buffer. *)
Fixpoint take_frames (fuel : nat) (buffer : string) : list string * string :=
  match fuel with
  | O => ([], buffer)
  | S f =>
      let normalized := replace_crlf buffer in
      match indexOf normalized (String LF (str1 LF)) with
      | None => ([], buffer)
      | Some boundary =>
          let rawEvent := take boundary normalized in
          let '(more, rest) := take_frames f (drop (boundary + 2) normalized) in
          (rawEvent :: more, rest)
      end
  end.

Record Reader := mkReader {
  decoder : Decoder;
  buffer : string;
  frames : list string
}.

(** One turn of the outer loop: a chunk is decoded, appended to the
    buffer, and the complete frames are taken. *)
Definition read_chunk (st : Reader) (chunk : string) : Reader :=
  let '(text, next) := decode_stream (decoder st) chunk in
  let buf := (buffer st ++ text)%string in
  let '(found, rest) := take_frames (S (String.length buf)) buf in
  mkReader next rest (frames st ++ found).

Definition read_all (chunks : list string) : Reader :=
  fold_left read_chunk chunks
            (mkReader (mkDecoder (Some EmptyString) EmptyString) EmptyString []).

End Http.
Import Http.

Module RemoteProvider.
Import ProviderSdk.

Section WithSchemas.

Variable is_datetime : string -> bool.

(** The [data:] payloads of one frame. *)
Definition dataLines (rawEvent : string) : list string :=
  filter truthy
    (map (fun line => trim (drop 5 line))
         (filter (fun line => startsWith line "data:") (split_lf rawEvent))).

Definition string_property (v : JSON) (key : string) : option string :=
  match v with
  | JObject props =>
      match obj_get props key with
      | Some (JString t) => Some t
      | _ => None
      end
  | _ => None
  end.

(** The events [parseSseEvents] yields for one payload. *)
Definition payload_events (payload : string) : list StreamEvent :=
  if String.eqb payload "[DONE]" then []
  else
    match Json.parse payload with
    | Some parsedJson =>
        match StreamEventSchema_parse is_datetime parsedJson with
        | Some ev => [ev]
        | None =>
            match string_property parsedJson "text" with
            | Some t => [token t]
            | None =>
                match string_property parsedJson "token" with
                | Some t => [token t]
                | None => []
                end
            end
        end
    | None => [token payload]
    end.

Definition parseSseEvents (response : Response) : list StreamEvent :=
  match body response with
  | None => []
  | Some chunks =>
      flat_map (fun rawEvent => flat_map payload_events (dataLines rawEvent))
               (frames (read_all chunks))
  end.

Local Open Scope gen_scope.

(** [fetched] is what [await fetch(...)] gives; [payload_threadId]
    is [payload.threadId], which both remote adapters set to
    [input.threadId]. *)
Definition streamRemoteProvider (fetched : Thrown + Response)
           (payload_threadId : string) : Gen unit :=
  match fetched with
  | inl err => throw err
  | inr response =>
      if negb (ok response) then
        throw_error ("Remote provider request failed (" ++ status_code_text response
                     ++ "): " ++ response_text response)
      else if includes (contentType response) "text/event-stream" then
        for_each (parseSseEvents response) yield
      else
        match Json.parse (response_text response) with
        | None => throw_error "Unexpected token in JSON"
        | Some body =>
            let text :=
              match string_property body "text" with
              | Some t => t
              | None =>
                  match string_property body "message" with
                  | Some t => t
                  | None =>
                      match string_property body "output" with
                      | Some t => t
                      | None => ""
                      end
                  end
              end in
            messageId <- randomId ;;
            createdAt <- nowISO ;;
            yield (message_start messageId payload_threadId createdAt) ;;
            (if nonempty text then yield (token text) else ret tt) ;;
            yield (message_end messageId text received createdAt)
        end
  end.

End WithSchemas.

End RemoteProvider.

(** ** The client transport (packages/client) *)

Module Client.

Section WithSchemas.

Variable is_datetime : string -> bool.

Definition parseSsePayloadFromText (payload : string) : list string :=
  let normalized := replace_crlf payload in
  flat_map (fun block =>
              flat_map (fun line =>
                          if startsWith line "data:" then
                            let item := trim (drop 5 line) in
                            if ProviderSdk.nonempty item then [item] else []
                          else [])
                       (split_lf block))
           (split_blank normalized).

Definition parseSseData (response : Response) : list string :=
  match body response with
  | None => parseSsePayloadFromText (response_text response)
  | Some chunks =>
      let st := read_all chunks in
      flat_map parseSsePayloadFromText (frames st)
      ++ parseSsePayloadFromText (buffer st ++ decode_end (decoder st))
  end.

(** The body of the [for await] loop of [chatStream]. *)
Definition data_events (data : string) : list StreamEvent :=
  if is_empty data || String.eqb data "[DONE]" then []
  else
    match Json.parse data with
    | Some json =>
        match StreamEventSchema_parse is_datetime json with
        | Some ev => [ev]
        | None => [token data]
        end
    | None => [token data]
    end.

(** [fallbackPayload.events] when [Array.isArray] holds of it. *)
Definition events_array (fallbackPayload : JSON) : option (list JSON) :=
  match fallbackPayload with
  | JObject props =>
      match obj_get props "events" with
      | Some (JArray events) => Some events
      | _ => None
      end
  | _ => None
  end.

(** [typeof fallbackPayload?.text === "string" ? fallbackPayload.text : ""]. *)
Definition fallback_text (fallbackPayload : JSON) : string :=
  match RemoteProvider.string_property fallbackPayload "text" with
  | Some t => t
  | None => ""
  end.

Local Open Scope gen_scope.

(** [chatStream], for a request that passed
    [ChatStreamRequestSchema.parse]; [threadId] is the parsed
    request's. *)
Definition chatStream (threadId : string) (fetched : Thrown + Response) : Gen unit :=
  match fetched with
  | inl err => throw err
  | inr response =>
      if negb (ok response) then
        throw_error ("chat.stream failed (" ++ status_code_text response ++ "): "
                     ++ response_text response)
      else if negb (includes (contentType response) "text/event-stream") then
        match Json.parse (response_text response) with
        | None => throw_error "Unexpected token in JSON"
        | Some fallbackPayload =>
            match events_array fallbackPayload with
            | Some events =>
                for_each events
                  (fun event => match StreamEventSchema_parse is_datetime event with
                                | Some ev => yield ev
                                | None => throw_error "ZodError"
                                end)
            | None =>
                let text := fallback_text fallbackPayload in
                startId <- randomId ;;
                startedAt <- nowISO ;;
                yield (message_start startId threadId startedAt) ;;
                yield (token text) ;;
                endId <- randomId ;;
                endedAt <- nowISO ;;
                yield (message_end endId text received endedAt)
            end
        end
      else
        for_each (flat_map data_events (parseSseData response)) yield
  end.

End WithSchemas.

End Client.

(** ** The agent server (services/agent-server) *)

Module AgentServer.
Import ProviderSdk.

Record WrappedCommandConfig := mkWrapped {
  w_command : string;
  baseArgs : list string;
  w_timeoutMs : Z;
  w_stdin : bool;
  w_parse : CliParseMode;
  inferredKind : ProviderKind
}.

Definition summarizeAttachments (attachments : list Attachment) : string :=
  match attachments with
  | [] => ""
  | _ =>
      (String LF (String LF "Attachments: ")
       ++ join ", " (map attachment_summary attachments))%string
  end.

Definition applyPrompt (args : list string) (prompt : string) (stdinMode : bool)
  : list string :=
  let hasPlaceholder := existsb (fun arg => includes arg PLACEHOLDER) args in
  let replaced :=
    map (fun arg => if includes arg PLACEHOLDER
                    then replaceAll arg PLACEHOLDER prompt
                    else arg) args in
  if negb stdinMode && negb hasPlaceholder then replaced ++ [prompt]
  else replaced.

(** The second loop of the server's copy: the property values are
    taken in order, and the first text that is not empty ends the
    loop. *)
Fixpoint first_truthy_value (call : option JSON -> option string)
         (values : list JSON) : option (option string) :=
  match values with
  | [] => Some None
  | v :: r =>
      match call (Some v) with
      | None => None
      | Some text => if truthy text then Some (Some text)
                     else first_truthy_value call r
      end
  end.

(** The server's own copy of the extraction, on a call stack with
    room for [stack] nested calls; [None] is [RangeError]. *)
Fixpoint extractTextFromUnknown (stack : nat) (value : option JSON) : option string :=
  match stack with
  | O => None
  | S room =>
      match value with
      | Some (JString s) => Some s
      | Some (JArray items) =>
          match all_some (map (fun item => extractTextFromUnknown room (Some item)) items) with
          | Some texts => Some (trim (join (str1 LF) (filter truthy texts)))
          | None => None
          end
      | Some (JObject props) =>
          match first_truthy_call (extractTextFromUnknown room) props preferredKeys with
          | None => None
          | Some (Some text) => Some text
          | Some None =>
              match first_truthy_value (extractTextFromUnknown room) (map snd props) with
              | None => None
              | Some (Some text) => Some text
              | Some None => Some ""
              end
          end
      | _ => Some ""
      end
  end.

Definition extracted_line (stack : nat) (line : string) : list string :=
  let trimmed := trim line in
  if negb (truthy trimmed) then []
  else
    match Json.parse trimmed with
    | Some parsed =>
        match extractTextFromUnknown stack (Some parsed) with
        | Some text =>
            let extracted := trim text in
            if truthy extracted then [extracted] else []
        | None => []
        end
    | None => []
    end.

(** [normalizeWrappedOutput]: as in [normalizeCliOutput] the outer
    [try] holds the parse and the extraction. *)
Definition normalizeWrappedOutput (stack : nat) (stdout stderr : string)
           (parse : CliParseMode) : string :=
  let trimmedStdout := trim stdout in
  let fallback := if nonempty trimmedStdout then trimmedStdout else trim stderr in
  let by_lines :=
    match flat_map (extracted_line stack) (split_lines trimmedStdout) with
    | [] => fallback
    | parts => join (str1 LF) parts
    end in
  match parse with
  | parse_json =>
      if nonempty trimmedStdout then
        match Json.parse trimmedStdout with
        | Some parsed =>
            match extractTextFromUnknown stack (Some parsed) with
            | Some text =>
                let extracted := trim text in
                if truthy extracted then extracted else fallback
            | None => by_lines
            end
        | None => by_lines
        end
      else fallback
  | parse_text => fallback
  end.

Definition wrapped_timeout_message (cfg : WrappedCommandConfig) : string :=
  ("Wrapped command timed out after " ++ dec_of_Z (w_timeoutMs cfg) ++ "ms")%string.

(** [stderr.trim() || stdout.trim() || `exit code ${code}`]. *)
Definition exit_message (out err : string) (code : Z) : string :=
  or_else (trim err) (or_else (trim out) ("exit code " ++ dec_of_Z code)%string).

Definition runWrappedCommandPrompt_spawn (cfg : WrappedCommandConfig) (prompt : string)
  : Proc string :=
  mkProc "" "" false [] [] false (if w_stdin cfg then Some prompt else None) true.

Definition runWrappedCommandPrompt_step (stack : nat) (cfg : WrappedCommandConfig)
           (p : Proc string) (sig : Signal) : Proc string :=
  match sig with
  | StdoutData chunk =>
      mkProc (out_buf p ++ chunk)%string (err_buf p) (completed p) (settle_calls p)
             (kills p) (timer_cleared p) (stdin_written p) (stdin_ended p)
  | StderrData chunk =>
      mkProc (out_buf p) (err_buf p ++ chunk)%string (completed p) (settle_calls p)
             (kills p) (timer_cleared p) (stdin_written p) (stdin_ended p)
  | TimerFired =>
      if completed p then p
      else mkProc (out_buf p) (err_buf p) true
                  (settle_calls p ++ [Reject (ErrorObject (wrapped_timeout_message cfg))])
                  (kills p ++ ["SIGTERM"]) (timer_cleared p)
                  (stdin_written p) (stdin_ended p)
  | ChildError err =>
      if completed p then p
      else mkProc (out_buf p) (err_buf p) true
                  (settle_calls p ++ [Reject err])
                  (kills p) true (stdin_written p) (stdin_ended p)
  | ChildClose code =>
      if completed p then p
      else
        let c := match code with Some c => c | None => 0%Z end in
        mkProc (out_buf p) (err_buf p) true
               (settle_calls p ++
                [if negb (Z.eqb c 0)
                 then Reject (ErrorObject (exit_message (out_buf p) (err_buf p) c))
                 else Resolve (normalizeWrappedOutput stack (out_buf p) (err_buf p)
                                                      (w_parse cfg))])
               (kills p) true (stdin_written p) (stdin_ended p)
  end.

(** The arguments the child is spawned with. *)
Definition spawn_args (cfg : WrappedCommandConfig) (prompt : string) : list string :=
  applyPrompt (baseArgs cfg) prompt (w_stdin cfg).

(** [stack] is the room the call stack has when the [close] handler
    normalizes the output. *)
Definition runWrappedCommandPrompt (stack : nat) (cfg : WrappedCommandConfig)
           (prompt : string) (signals : list Signal) : Proc string :=
  fold_left (runWrappedCommandPrompt_step stack cfg) signals
            (runWrappedCommandPrompt_spawn cfg prompt).

Record ChatStreamRequest := mkRequest {
  req_threadId : string;
  req_message : OutboundMessageInput
}.

Local Open Scope gen_scope.

Definition runWrappedCommandStream (stack : nat) (cfg : WrappedCommandConfig)
           (signals : list Signal) (request : ChatStreamRequest) : Gen unit :=
  messageId <- randomId ;;
  createdAt <- nowISO ;;
  yield (message_start messageId (req_threadId request) createdAt) ;;
  yield (typing true) ;;
  let prompt := (out_text (req_message request)
                 ++ summarizeAttachments (out_attachments (req_message request)))%string in
  output <- await (awaited (runWrappedCommandPrompt stack cfg prompt signals)) ;;
  (if nonempty output then
     for_each (filter nonempty (split_lines output))
              (fun line => yield (token (line ++ str1 LF)%string))
   else ret tt) ;;
  yield (typing false) ;;
  endedAt <- nowISO ;;
  yield (message_end messageId output received endedAt).

(** [runProviderStream]: the wrapped command when the server runs in
    wrapped mode, the registry's adapter for the contact otherwise;
    either way every event is passed on as it is. *)
Definition runProviderStream (stack : nat) (wrappedCommand : option WrappedCommandConfig)
           (signals : list Signal) (adapter_stream : Gen unit)
           (request : ChatStreamRequest) : Gen unit :=
  match wrappedCommand with
  | Some cfg => runWrappedCommandStream stack cfg signals request
  | None => adapter_stream
  end.

(** hono's [stream.writeSSE({ data })]: every line of [data] gets a
    [data: ] prefix, and a blank line ends the message. *)
Definition writeSSE (data : string) : string :=
  (join (str1 LF) (map (fun line => "data: " ++ line)%string (split_newlines data))
   ++ String LF (str1 LF))%string.

Definition provider_error (t : Thrown) : StreamEvent :=
  error "provider_error" (message_or t "Unknown provider error") false.

(** What the [/v1/chat.stream] handler writes for a run of the
    producing generator, one entry per [writeSSE]. *)
Definition chat_stream_writes (run : Run unit) : list string :=
  map (fun event => writeSSE (stringify_event event)) (emitted run)
  ++ match result run with
     | Returned _ => [writeSSE "[DONE]"]
     | Threw t => [writeSSE (stringify_event (provider_error t))]
     | Pending => []
     end.

(** The events a reader of the response sees: those the producer
    yielded and the one the handler adds when the producer fails. *)
Definition chat_stream_events (run : Run unit) : list StreamEvent :=
  emitted run
  ++ match result run with
     | Threw t => [provider_error t]
     | _ => []
     end.

End AgentServer.

(** ** The client's request helpers (packages/client) *)

Module Transport.

(** [s.replace(/\/+$/, "")]: the pattern matches the run of slashes
    that reaches the end of the text, when there is one. *)
Fixpoint drop_slashes (s : string) : string :=
  match s with
  | String c r => if Ascii.eqb c "/" then drop_slashes r else s
  | EmptyString => EmptyString
  end.

Definition trimmedBase (baseUrl : string) : string := rev (drop_slashes (rev baseUrl)).

Definition normalizedPath (path : string) : string :=
  if startsWith path "/" then path else String "/" path.

Definition joinUrl (baseUrl path : string) : string :=
  (trimmedBase baseUrl ++ normalizedPath path)%string.

Inductive AuthConfig :=
| auth_none
| auth_bearer (bearer_token : string)
| auth_basic (username password : string).

(** What the runtime offers [encodeBase64]: a global [btoa], a global
    [Buffer], and the message of the [InvalidCharacterError] its
    [btoa] throws. *)
Record Runtime := mkRuntime {
  has_btoa : bool;
  has_Buffer : bool;
  btoa_error : string
}.

(** The characters of a text as Latin-1 bytes, when every character
    is below U+0100: what [btoa] reads.  A character from U+0080 on
    takes two bytes of the UTF-8 text. *)
Fixpoint latin1_of_utf8 (s : string) : option string :=
  match s with
  | EmptyString => Some EmptyString
  | String a r =>
      if N.ltb (N_of_ascii a) 128 then option_map (String a) (latin1_of_utf8 r)
      else
        match r with
        | String b r' =>
            if is_byte 194 a && in_range 128 191 b then
              option_map (String b) (latin1_of_utf8 r')
            else if is_byte 195 a && in_range 128 191 b then
              option_map (String (ascii_of_N (N_of_ascii b + 64))) (latin1_of_utf8 r')
            else None
        | EmptyString => None
        end
  end.

(** One character of the base64 alphabet. *)
Definition b64_char (n : N) : ascii :=
  if N.ltb n 26 then ascii_of_N (65 + n)
  else if N.ltb n 52 then ascii_of_N (71 + n)
  else if N.ltb n 62 then ascii_of_N (n - 4)
  else if N.eqb n 62 then "+"%char
  else "/"%char.

(** Base64 of a sequence of bytes, with [=] padding. *)
Fixpoint base64 (bytes : string) : string :=
  match bytes with
  | EmptyString => EmptyString
  | String a EmptyString =>
      let x := N_of_ascii a in
      String (b64_char (x / 4)) (String (b64_char ((x mod 4) * 16)) "==")
  | String a (String b EmptyString) =>
      let x := N_of_ascii a in
      let y := N_of_ascii b in
      String (b64_char (x / 4))
        (String (b64_char ((x mod 4) * 16 + y / 16))
          (String (b64_char ((y mod 16) * 4)) "="))
  | String a (String b (String c r)) =>
      let x := N_of_ascii a in
      let y := N_of_ascii b in
      let z := N_of_ascii c in
      String (b64_char (x / 4))
        (String (b64_char ((x mod 4) * 16 + y / 16))
          (String (b64_char ((y mod 16) * 4 + z / 64))
            (String (b64_char (z mod 64)) (base64 r))))
  end.

(** [btoa(value)]: [None] when it throws. *)
Definition btoa (value : string) : option string :=
  option_map base64 (latin1_of_utf8 value).

(** [Buffer.from(value, "utf-8").toString("base64")]. *)
Definition Buffer_base64 (value : string) : string := base64 value.

Definition encodeBase64 (rt : Runtime) (value : string) : Thrown + string :=
  if has_btoa rt then
    match btoa value with
    | Some encoded => inr encoded
    | None => inl (ErrorObject (btoa_error rt))
    end
  else if has_Buffer rt then inr (Buffer_base64 value)
  else inl (ErrorObject "Unable to encode basic auth credentials in this runtime.").

(** The headers object, as the list of its properties. *)
Definition buildAuthHeaders (rt : Runtime) (auth : option AuthConfig)
  : Thrown + list (string * string) :=
  match auth with
  | None | Some auth_none => inr []
  | Some (auth_bearer t) => inr [("Authorization", ("Bearer " ++ t)%string)]
  | Some (auth_basic username password) =>
      match encodeBase64 rt (username ++ ":" ++ password) with
      | inr encoded => inr [("Authorization", ("Basic " ++ encoded)%string)]
      | inl err => inl err
      end
  end.

End Transport.

(** ** The server's command line (services/agent-server) *)

Module ServerCli.
Import ProviderSdk AgentServer.

(** A JavaScript number: a finite one is kept as the decimal
    [m * 10^e] it is equal to. *)
Inductive JsNumber :=
| NaN
| Infinite (negative : bool)
| Finite (m e : Z).

(** [Number.isInteger(n)], with the integer. *)
Definition integer_value (n : JsNumber) : option Z :=
  match n with
  | Finite m e =>
      if Z.leb 0 e then Some (m * 10 ^ e)%Z
      else if Z.eqb (m mod 10 ^ (- e)) 0 then Some (m / 10 ^ (- e))%Z
      else None
  | _ => None
  end.

(** [Number.isFinite(n) && n > 0]. *)
Definition finite_positive (n : JsNumber) : bool :=
  match n with
  | Finite m _ => Z.ltb 0 m
  | _ => false
  end.

(** [s.toLowerCase()] on the letters A to Z.  The texts the sources
    look for in a lower-cased command ("claude", "openclaw", "nano",
    "codex", "codex.") have no letter that a character outside ASCII
    lower-cases to, so the other characters do not matter to the
    tests made. *)
Definition lower_char (c : ascii) : ascii :=
  if in_range 65 90 c then ascii_of_N (N_of_ascii c + 32) else c.

Fixpoint toLowerCase (s : string) : string :=
  match s with
  | EmptyString => EmptyString
  | String c r => String (lower_char c) (toLowerCase r)
  end.

Definition inferWrappedKind (command : string) : ProviderKind :=
  let normalized := toLowerCase command in
  if includes normalized "claude" then claude_code_cli
  else if includes normalized "openclaw" then openclaw_cli
  else if includes normalized "nano" then nanoclaw_cli
  else terminal_cli.

(** [command.split(/[\\/]/).pop()]: what follows the last slash or
    backslash. *)
Fixpoint leaf_acc (cur : string) (s : string) : string :=
  match s with
  | EmptyString => rev cur
  | String c r =>
      if Ascii.eqb c "/" || Ascii.eqb c BSLASH then leaf_acc EmptyString r
      else leaf_acc (String c cur) r
  end.

Definition isCodexCommand (command : string) : bool :=
  let leaf := leaf_acc EmptyString command in
  String.eqb (toLowerCase leaf) "codex" || startsWith (toLowerCase leaf) "codex.".

Definition isHelpFlag (value : string) : bool :=
  String.eqb value "--help" || String.eqb value "-h".

(** [argv.indexOf(x)], [None] standing for [-1]. *)
Fixpoint list_indexOf (l : list string) (x : string) : option nat :=
  match l with
  | [] => None
  | y :: r => if String.eqb y x then Some 0 else option_map S (list_indexOf r x)
  end.

Definition shouldShowServerHelp (argv : list string) : bool :=
  match list_indexOf argv "--" with
  | None => existsb isHelpFlag argv
  | Some separatorIndex =>
      let trailing := skipn (separatorIndex + 1) argv in
      match trailing with
      | [only] => if isHelpFlag only then true else false
      | [] => existsb isHelpFlag argv
      | _ => false
      end
  end.

Record ParsedServerCliArgs := mkParsed {
  argv : list string;
  portOverride : option Z
}.

(** The variables of the environment the server reads. *)
Record Env := mkEnv {
  PORT : option string;
  BIRDHOUSE_SERVER_PORT : option string;
  BIRDHOUSE_SERVER_TIMEOUT_MS : option string;
  BIRDHOUSE_WRAPPED_TIMEOUT_MS : option string;
  BIRDHOUSE_SERVER_STDIN : option string;
  BIRDHOUSE_WRAPPED_STDIN : option string;
  BIRDHOUSE_SERVER_PARSE : option string;
  BIRDHOUSE_WRAPPED_PARSE : option string;
  BIRDHOUSE_DEFAULT_PROVIDER : option string;
  OPENAI_API_KEY : option string
}.

Definition env_is (v : option string) (text : string) : bool :=
  match v with Some s => String.eqb s text | None => false end.

Section WithNumber.

(** [Number(value)] on a string, which is the platform's. *)
Variable Number_ : string -> JsNumber.

Definition parsePortValue (value flagName : string) : Thrown + Z :=
  let invalid :=
    ErrorObject ("Invalid value for " ++ flagName ++ ": " ++ value
                 ++ ". Expected an integer between 1 and 65535.") in
  match integer_value (Number_ value) with
  | Some parsed =>
      if Z.ltb parsed 1 || Z.ltb 65535 parsed then inl invalid else inr parsed
  | None => inl invalid
  end.

(** The loop of [parseServerCliArgs], from the token at [index] on:
    [rawArgv] is what is left to read, [argv] and [portOverride] what
    has been gathered. *)
Fixpoint parseServerCliArgs_from (rawArgv : list string) (argv : list string)
         (portOverride : option Z) : Thrown + ParsedServerCliArgs :=
  match rawArgv with
  | [] => inr (mkParsed argv portOverride)
  | tok :: rest =>
      if String.eqb tok "--" then inr (mkParsed (argv ++ tok :: rest) portOverride)
      else if String.eqb tok "--port" || String.eqb tok "-p" then
        match rest with
        | next :: rest' =>
            if truthy next then
              match parsePortValue next tok with
              | inr parsed => parseServerCliArgs_from rest' argv (Some parsed)
              | inl err => inl err
              end
            else inl (ErrorObject (tok ++ " requires a value."))
        | [] => inl (ErrorObject (tok ++ " requires a value."))
        end
      else if startsWith tok "--port=" then
        match parsePortValue (drop 7 tok) "--port" with
        | inr parsed => parseServerCliArgs_from rest argv (Some parsed)
        | inl err => inl err
        end
      else parseServerCliArgs_from rest (argv ++ [tok]) portOverride
  end.

Definition parseServerCliArgs (rawArgv : list string) : Thrown + ParsedServerCliArgs :=
  parseServerCliArgs_from rawArgv [] None.

(** The timeout of the wrapped command.  Without either variable the
    text read is "180000", whose number is 180000. *)
Definition wrapped_timeout (env : Env) : Z :=
  let chosen := match BIRDHOUSE_SERVER_TIMEOUT_MS env with
                | Some s => Some s
                | None => BIRDHOUSE_WRAPPED_TIMEOUT_MS env
                end in
  match chosen with
  | None => 180000
  | Some s =>
      match Number_ s with
      | Finite m e => if Z.ltb 0 m then floor_number m e else 180000
      | _ => 180000
      end
  end.

Definition parseWrappedCommandConfig (env : Env) (argv : list string)
  : option WrappedCommandConfig :=
  let separatorIndex := list_indexOf argv "--" in
  let commandArgs := match separatorIndex with
                     | Some i => skipn (i + 1) argv
                     | None => argv
                     end in
  match commandArgs with
  | [] => None
  | command :: rest =>
      if match separatorIndex with None => startsWith command "-" | Some _ => false end
      then None
      else
        let baseArgs := match rest with
                        | [] => if isCodexCommand command then ["exec"; "{prompt}"] else []
                        | _ => rest
                        end in
        Some (mkWrapped command baseArgs (wrapped_timeout env)
                (env_is (BIRDHOUSE_SERVER_STDIN env) "1"
                 || env_is (BIRDHOUSE_WRAPPED_STDIN env) "1")
                (if env_is (BIRDHOUSE_SERVER_PARSE env) "json"
                    || env_is (BIRDHOUSE_WRAPPED_PARSE env) "json"
                 then parse_json else parse_text)
                (inferWrappedKind command))
  end.

(** [process.env.X ? Number(process.env.X) : NaN]. *)
Definition env_number (v : option string) : JsNumber :=
  match v with
  | Some s => if truthy s then Number_ s else NaN
  | None => NaN
  end.

(** The port the server listens on; [Finite 0 0] lets the system
    choose. *)
Definition server_port (env : Env) (cliPort : option Z)
           (wrappedCommand : option WrappedCommandConfig) : JsNumber :=
  let envPort := env_number (PORT env) in
  let serverPort := env_number (BIRDHOUSE_SERVER_PORT env) in
  let fromEnv :=
    match wrappedCommand with
    | Some _ => if finite_positive serverPort then serverPort else Finite 0 0
    | None => if finite_positive envPort then envPort else Finite 8787 0
    end in
  match cliPort with
  | Some p => if Z.eqb p 0 then fromEnv else Finite p 0
  | None => fromEnv
  end.

End WithNumber.

End ServerCli.

(** ** The provider registry and provider discovery *)

Module Providers.
Import ProviderSdk AgentServer ServerCli.

Definition ProviderKind_eqb (a b : ProviderKind) : bool :=
  match a, b with
  | ai_sdk, ai_sdk | openclaw, openclaw | pi_mono, pi_mono
  | terminal_cli, terminal_cli | claude_code_cli, claude_code_cli
  | openclaw_cli, openclaw_cli | nanoclaw_cli, nanoclaw_cli => true
  | _, _ => false
  end.

(** [ProviderKindSchema.safeParse] on a string. *)
Definition ProviderKind_parse (s : string) : option ProviderKind :=
  if String.eqb s "ai-sdk" then Some ai_sdk
  else if String.eqb s "openclaw" then Some openclaw
  else if String.eqb s "pi-mono" then Some pi_mono
  else if String.eqb s "terminal-cli" then Some terminal_cli
  else if String.eqb s "claude-code-cli" then Some claude_code_cli
  else if String.eqb s "openclaw-cli" then Some openclaw_cli
  else if String.eqb s "nanoclaw-cli" then Some nanoclaw_cli
  else None.

Record ProviderCapability := mkCapability {
  cap_kind : ProviderKind;
  supportsStreaming : bool;
  supportsAttachments : bool;
  supportsAsync : bool
}.

(** *** ProviderRegistry

    The registry keeps a [Map] from kinds to adapters; the list holds
    its entries in insertion order. *)

Section Registry.

Variable Adapter : Type.
Variable kind_of : Adapter -> ProviderKind.
Variable capability_of : Adapter -> ProviderCapability.

Definition AdapterMap := list (ProviderKind * Adapter).

(** [map.set(key, value)]: an existing key keeps its place. *)
Fixpoint map_set (m : AdapterMap) (key : ProviderKind) (value : Adapter) : AdapterMap :=
  match m with
  | [] => [(key, value)]
  | (k, v) :: r =>
      if ProviderKind_eqb k key then (k, value) :: r else (k, v) :: map_set r key value
  end.

Fixpoint map_get (m : AdapterMap) (key : ProviderKind) : option Adapter :=
  match m with
  | [] => None
  | (k, v) :: r => if ProviderKind_eqb k key then Some v else map_get r key
  end.

(** [new ProviderRegistry(adapters)]. *)
Definition ProviderRegistry (adapters : list Adapter) : AdapterMap :=
  fold_left (fun m adapter => map_set m (kind_of adapter) adapter) adapters [].

Definition registry_get (m : AdapterMap) (kind : ProviderKind) : Thrown + Adapter :=
  match map_get m kind with
  | Some adapter => inr adapter
  | None => inl (ErrorObject ("No provider adapter registered for kind: " ++ kind_text kind))
  end.

Definition registry_capabilities (m : AdapterMap) : list ProviderCapability :=
  map (fun entry => capability_of (snd entry)) m.

End Registry.

(** *** The adapters of the default registry *)

Inductive Adapter :=
| AiSdkProviderAdapter (model : string)
| OpenClawProviderAdapter
| PiMonoProviderAdapter
| CliAdapter (adapter : CliWrappedProviderAdapter).

Definition adapter_kind (a : Adapter) : ProviderKind :=
  match a with
  | AiSdkProviderAdapter _ => ai_sdk
  | OpenClawProviderAdapter => openclaw
  | PiMonoProviderAdapter => pi_mono
  | CliAdapter adapter => kind adapter
  end.

Definition adapter_capability (a : Adapter) : ProviderCapability :=
  match a with
  | AiSdkProviderAdapter _ => mkCapability ai_sdk true true true
  | OpenClawProviderAdapter => mkCapability openclaw true true true
  | PiMonoProviderAdapter => mkCapability pi_mono true true true
  | CliAdapter adapter => mkCapability (kind adapter) true false false
  end.

(** The variables of the environment the adapters read. *)
Record SdkEnv := mkSdkEnv {
  OPENAI_MODEL : option string;
  BIRDHOUSE_TERMINAL_CLI_ARGS : option string;
  BIRDHOUSE_TERMINAL_CLI_COMMAND : option string;
  BIRDHOUSE_CODEX_COMMAND : option string;
  BIRDHOUSE_CLAUDE_CODE_COMMAND : option string;
  BIRDHOUSE_OPENCLAW_COMMAND : option string;
  BIRDHOUSE_NANOCLAW_COMMAND : option string
}.

Definition parseStringArrayEnv (value : option string) : option (list string) :=
  match value with
  | None => None
  | Some v =>
      if negb (truthy v) || Nat.eqb (String.length (trim v)) 0 then None
      else
        match Json.parse v with
        | Some (JArray items) => as_strings items
        | _ => None
        end
  end.

Definition ClaudeCodeCliProviderAdapter (env : SdkEnv) : CliWrappedProviderAdapter :=
  mkAdapter claude_code_cli
            (Some (or_default (BIRDHOUSE_CLAUDE_CODE_COMMAND env) "claude"))
            ["-p"; "{prompt}"] parse_text.

Definition TerminalCliProviderAdapter (env : SdkEnv) : CliWrappedProviderAdapter :=
  mkAdapter terminal_cli
            (Some (match BIRDHOUSE_TERMINAL_CLI_COMMAND env with
                   | Some c => c
                   | None => or_default (BIRDHOUSE_CODEX_COMMAND env) "codex"
                   end))
            (or_default (parseStringArrayEnv (BIRDHOUSE_TERMINAL_CLI_ARGS env))
                        ["exec"; "{prompt}"])
            parse_text.

Definition OpenClawCliProviderAdapter (env : SdkEnv) : CliWrappedProviderAdapter :=
  mkAdapter openclaw_cli
            (Some (or_default (BIRDHOUSE_OPENCLAW_COMMAND env) "openclaw"))
            ["--no-color"; "agent"; "--message"; "{prompt}"] parse_text.

Definition NanoClawCliProviderAdapter (env : SdkEnv) : CliWrappedProviderAdapter :=
  mkAdapter nanoclaw_cli (BIRDHOUSE_NANOCLAW_COMMAND env) ["{prompt}"] parse_text.

Definition createDefaultProviderRegistry (env : SdkEnv) : AdapterMap Adapter :=
  ProviderRegistry Adapter adapter_kind
    [AiSdkProviderAdapter (or_default (OPENAI_MODEL env) "gpt-4.1-mini");
     OpenClawProviderAdapter;
     PiMonoProviderAdapter;
     CliAdapter (TerminalCliProviderAdapter env);
     CliAdapter (ClaudeCodeCliProviderAdapter env);
     CliAdapter (OpenClawCliProviderAdapter env);
     CliAdapter (NanoClawCliProviderAdapter env)].

(** *** The server's view *)

(** [commandCapabilities()]; [registered] is
    [registry.capabilities()]. *)
Definition commandCapabilities (wrappedCommand : option WrappedCommandConfig)
           (registered : list ProviderCapability) : list ProviderCapability :=
  match wrappedCommand with
  | None => registered
  | Some cfg => [mkCapability (inferredKind cfg) true false true]
  end.

Definition hasOpenAiApiKey (env : Env) : bool :=
  match OPENAI_API_KEY env with
  | Some apiKey => negb (Nat.eqb (String.length (trim apiKey)) 0)
  | None => false
  end.

Definition has_kind (capabilities : list ProviderCapability) (k : ProviderKind) : bool :=
  existsb (fun capability => ProviderKind_eqb (cap_kind capability) k) capabilities.

Definition defaultProviderKind (env : Env) (wrappedCommand : option WrappedCommandConfig)
           (registered : list ProviderCapability) : option ProviderKind :=
  match wrappedCommand with
  | Some cfg => Some (inferredKind cfg)
  | None =>
      match registered with
      | [] => None
      | first :: _ =>
          let configured :=
            match BIRDHOUSE_DEFAULT_PROVIDER env with
            | Some configuredDefault =>
                if truthy configuredDefault then
                  match ProviderKind_parse configuredDefault with
                  | Some parsed => if has_kind registered parsed then Some parsed else None
                  | None => None
                  end
                else None
            | None => None
            end in
          match configured with
          | Some parsed => Some parsed
          | None =>
              if has_kind registered ai_sdk && hasOpenAiApiKey env then Some ai_sdk
              else if has_kind registered terminal_cli then Some terminal_cli
              else if has_kind registered ai_sdk then Some ai_sdk
              else Some (cap_kind first)
          end
      end
  end.

Definition json_of_capability (c : ProviderCapability) : JSON :=
  JObject [("kind", JString (kind_text (cap_kind c)));
           ("supportsStreaming", JBool (supportsStreaming c));
           ("supportsAttachments", JBool (supportsAttachments c));
           ("supportsAsync", JBool (supportsAsync c))].

(** hono's [c.json(value, status)]. *)
Record JsonReply := mkReply {
  reply_value : JSON;
  reply_status : nat
}.

(** The response a client receives for such a reply: the body is
    [JSON.stringify(value)], in whatever chunks. *)
Definition delivered (reply : JsonReply) (response : Response) : Prop :=
  status response = reply_status reply
  /\ ok response = (Nat.leb 200 (reply_status reply) && Nat.leb (reply_status reply) 299)
  /\ response_text response = stringify (reply_value reply).

(** [GET /v1/providers/capabilities]. *)
Definition providers_capabilities (wrappedCommand : option WrappedCommandConfig)
           (registered : list ProviderCapability) : JsonReply :=
  mkReply
    (JObject [("capabilities",
               JArray (map json_of_capability (commandCapabilities wrappedCommand registered)))])
    200.

(** [GET /v1/providers/default]. *)
Definition providers_default (env : Env) (wrappedCommand : option WrappedCommandConfig)
           (registered : list ProviderCapability) : JsonReply :=
  match defaultProviderKind env wrappedCommand registered with
  | None =>
      mkReply
        (JObject [("error", JString "no_provider");
                  ("message", JString "No provider is available on this endpoint.")])
        503
  | Some k => mkReply (JObject [("kind", JString (kind_text k))]) 200
  end.

(** *** The client's view *)

(** [await response.json()]. *)
Definition response_json (response : Response) : Thrown + JSON :=
  match Json.parse (response_text response) with
  | Some v => inr v
  | None => inl (ErrorObject "Unexpected token in JSON")
  end.

Definition ProviderCapabilitySchema_parse (v : JSON) : option ProviderCapability :=
  match v with
  | JObject props =>
      match obj_get props "kind", obj_get props "supportsStreaming",
            obj_get props "supportsAttachments", obj_get props "supportsAsync" with
      | Some (JString k), Some (JBool s), Some (JBool a), Some (JBool y) =>
          match ProviderKind_parse k with
          | Some parsed => Some (mkCapability parsed s a y)
          | None => None
          end
      | _, _, _, _ => None
      end
  | _ => None
  end.

Definition ProviderDiscoverySchema_parse (v : JSON) : option ProviderKind :=
  match v with
  | JObject props =>
      match obj_get props "kind" with
      | Some (JString k) => ProviderKind_parse k
      | _ => None
      end
  | _ => None
  end.

(** [payload.capabilities.map(capability => ProviderCapabilitySchema.parse(capability))]. *)
Fixpoint parse_capabilities (items : list JSON) : Thrown + list ProviderCapability :=
  match items with
  | [] => inr []
  | item :: r =>
      match ProviderCapabilitySchema_parse item with
      | None => inl (ErrorObject "ZodError")
      | Some c =>
          match parse_capabilities r with
          | inr cs => inr (c :: cs)
          | inl err => inl err
          end
      end
  end.

(** [listCapabilities]; [fetched] is what [await fetch(...)] gives. *)
Definition listCapabilities (fetched : Thrown + Response) : Thrown + list ProviderCapability :=
  match fetched with
  | inl err => inl err
  | inr response =>
      if negb (ok response) then
        inl (ErrorObject ("providers.capabilities failed (" ++ status_code_text response
                          ++ "): " ++ response_text response))
      else
        match response_json response with
        | inl err => inl err
        | inr payload =>
            match payload with
            | JObject props =>
                match obj_get props "capabilities" with
                | Some (JArray items) => parse_capabilities items
                | _ => inr []
                end
            | _ => inr []
            end
        end
  end.

Definition pick_provider (capabilities : list ProviderCapability) : ProviderKind :=
  match capabilities with
  | [] => terminal_cli
  | [only] => cap_kind only
  | first :: _ => if has_kind capabilities ai_sdk then ai_sdk else cap_kind first
  end.

(** [discoverProvider]; the two arguments are what the two requests
    give. *)
Definition discoverProvider (fetched_default fetched_capabilities : Thrown + Response)
  : Thrown + ProviderKind :=
  match fetched_default with
  | inl err => inl err
  | inr response =>
      let fallback :=
        match listCapabilities fetched_capabilities with
        | inl _ => inr terminal_cli
        | inr capabilities => inr (pick_provider capabilities)
        end in
      if ok response then
        match response_json response with
        | inl err => inl err
        | inr payload =>
            match ProviderDiscoverySchema_parse payload with
            | Some k => inr k
            | None => fallback
            end
        end
      else fallback
  end.

End Providers.

(** ** Push registrations and asynchronous messages (services/agent-server) *)

Module Async.
Import ProviderSdk AgentServer.

(** [pushRegistry]: a [Map] from keys to [Set]s of tokens, both in
    insertion order. *)
Definition PushRegistry := list (string * list string).

Definition getPushRegistryKey (contactId threadId : string) : string :=
  (contactId ++ ":" ++ threadId)%string.

(** [set.add(x)]. *)
Definition set_add (s : list string) (x : string) : list string :=
  if existsb (String.eqb x) s then s else s ++ [x].

Fixpoint registry_get (m : PushRegistry) (key : string) : option (list string) :=
  match m with
  | [] => None
  | (k, v) :: r => if String.eqb k key then Some v else registry_get r key
  end.

(** [map.set(key, value)]. *)
Fixpoint registry_set (m : PushRegistry) (key : string) (value : list string) : PushRegistry :=
  match m with
  | [] => [(key, value)]
  | (k, v) :: r =>
      if String.eqb k key then (k, value) :: r else (k, v) :: registry_set r key value
  end.

Definition registerPushToken (m : PushRegistry) (contactId threadId token_ : string)
  : PushRegistry :=
  let key := getPushRegistryKey contactId threadId in
  let existing := match registry_get m key with Some s => s | None => [] end in
  registry_set m key (set_add existing token_).

(** [Array.from(pushRegistry.get(key) ?? [])]. *)
Definition tokens_for (m : PushRegistry) (contactId threadId : string) : list string :=
  match registry_get m (getPushRegistryKey contactId threadId) with
  | Some s => s
  | None => []
  end.

Definition FOLLOW_UP_PROMPT : string :=
  "Send a short async follow-up message in one sentence.".

Definition FOLLOW_UP_FALLBACK : string := "Quick follow-up from your agent.".

(** The text the [for await] loop of [generateAgentText] collects. *)
Fixpoint collected (events : list StreamEvent) : string :=
  match events with
  | [] => ""
  | token t :: r => (t ++ collected r)%string
  | _ :: r => collected r
  end.

(** [generateAgentText].  [signals] is what the wrapped command
    delivers, [adapter_run] what [registry.get] and the adapter's
    stream give in registry mode, [stack] the room of the call stack
    when the wrapped command's output is normalized. *)
Definition generateAgentText (stack : nat) (wrappedCommand : option WrappedCommandConfig)
           (signals : list Signal) (adapter_run : Thrown + Run unit)
           (text : option string) : Result string :=
  let given := match text with
               | Some t => if truthy t && nonempty (trim t) then Some (trim t) else None
               | None => None
               end in
  match given with
  | Some t => Returned t
  | None =>
      match wrappedCommand with
      | Some cfg =>
          match awaited (runWrappedCommandPrompt stack cfg FOLLOW_UP_PROMPT signals) with
          | Returned output => Returned (or_else (trim output) FOLLOW_UP_FALLBACK)
          | Threw t => Threw t
          | Pending => Pending
          end
      | None =>
          match adapter_run with
          | inl err => Threw err
          | inr run =>
              match result run with
              | Returned _ =>
                  Returned (or_else (trim (collected (emitted run))) FOLLOW_UP_FALLBACK)
              | Threw t => Threw t
              | Pending => Pending
              end
          end
      end
  end.

Record PushData := mkPushData {
  data_contactId : string;
  data_threadId : string;
  data_text : string;
  data_timestamp : string
}.

Record Notification := mkNotification {
  to : string;
  sound : string;
  title : string;
  body_text : string;
  data : PushData
}.

(** [sendExpoPush]: the bodies of the requests made, and the
    outcome.  [expo] is what the request to the push service gives. *)
Definition sendExpoPush (tokens : list string) (title_ body_ : string) (data_ : PushData)
           (expo : Thrown + Response) : list (list Notification) * (Thrown + unit) :=
  match tokens with
  | [] => ([], inr tt)
  | _ =>
      let notifications := map (fun t => mkNotification t "default" title_ body_ data_) tokens in
      ([notifications],
       match expo with
       | inl err => inl err
       | inr response =>
           if negb (ok response) then
             inl (ErrorObject ("Expo push failed (" ++ status_code_text response ++ "): "
                               ++ response_text response))
           else inr tt
       end)
  end.

(** [dispatchAsyncMessage]: [generated] is what
    [generateAgentText] gives, [now] the time of the call. *)
Definition dispatchAsyncMessage (m : PushRegistry) (generated : Result string)
           (contactId displayName threadId now : string) (expo : Thrown + Response)
  : list (list Notification) * Result (nat * string) :=
  match generated with
  | Returned text =>
      let tokens := tokens_for m contactId threadId in
      match sendExpoPush tokens displayName text
                         (mkPushData contactId threadId text now) expo with
      | (requests, inr _) => (requests, Returned (List.length tokens, text))
      | (requests, inl err) => (requests, Threw err)
      end
  | Threw t => ([], Threw t)
  | Pending => ([], Pending)
  end.

End Async.

(** ** The other adapters (packages/provider-sdk) *)

Module Adapters.
Import ProviderSdk.

Local Open Scope gen_scope.

(** [AiSdkProviderAdapter.sendMessageStream].  [textStream] is what
    [result.textStream] delivers and [failure] what ends it early,
    when it fails; the request made to the model (the history and the
    prompt) does not show in the events. *)
Definition AiSdk_sendMessageStream (textStream : list string) (failure : option Thrown)
           (input : ProviderSendInput) : Gen unit :=
  messageId <- randomId ;;
  createdAt <- nowISO ;;
  yield (message_start messageId (threadId input) createdAt) ;;
  yield (typing true) ;;
  for_each textStream (fun t => yield (token t)) ;;
  match failure with
  | Some err => throw err
  | None =>
      let fullText := fold_left (fun acc t => (acc ++ t)%string) textStream "" in
      yield (typing false) ;;
      endedAt <- nowISO ;;
      yield (message_end messageId fullText received endedAt)
  end.

Definition getRemotePath (extra : list (string * JSON)) (defaultPath : string) : string :=
  match obj_get extra "path" with
  | Some (JString path) => if startsWith path "/" then path else defaultPath
  | _ => defaultPath
  end.

(** The address [streamRemoteProvider] posts to. *)
Definition remote_url (baseUrl : string) (extra : list (string * JSON))
           (defaultPath : string) : string :=
  Transport.joinUrl baseUrl (getRemotePath extra defaultPath).

End Adapters.

(** ** The mobile app's storage (apps/mobile/src/storage) *)

Module Storage.

(** [AsyncStorage]: the items stored, by key. *)
Definition AsyncStorage := list (string * string).

Definition CONTACTS_KEY : string := "birdhouse.contacts".
Definition THREADS_KEY : string := "birdhouse.threads".

(** [AsyncStorage.getItem(key)], [None] standing for [null]. *)
Fixpoint getItem (st : AsyncStorage) (key : string) : option string :=
  match st with
  | [] => None
  | (k, v) :: r => if String.eqb k key then Some v else getItem r key
  end.

(** [AsyncStorage.setItem(key, value)]. *)
Fixpoint setItem (st : AsyncStorage) (key value : string) : AsyncStorage :=
  match st with
  | [] => [(key, value)]
  | (k, v) :: r => if String.eqb k key then (k, value) :: r else (k, v) :: setItem r key value
  end.

(** [readJson(key, fallback)]; [fetched] is what
    [await AsyncStorage.getItem(key)] gives. *)
Definition readJson (fetched : Thrown + option string) (fallback : JSON) : JSON :=
  match fetched with
  | inr (Some value) =>
      if truthy value then
        match Json.parse value with
        | Some parsed => parsed
        | None => fallback
        end
      else fallback
  | _ => fallback
  end.

Definition loadContacts (st : AsyncStorage) : JSON :=
  readJson (inr (getItem st CONTACTS_KEY)) (JArray []).

Definition saveContacts (st : AsyncStorage) (contacts : JSON) : AsyncStorage :=
  setItem st CONTACTS_KEY (stringify contacts).

Definition loadThreads (st : AsyncStorage) : JSON :=
  readJson (inr (getItem st THREADS_KEY)) (JObject []).

Definition saveThreads (st : AsyncStorage) (threads : JSON) : AsyncStorage :=
  setItem st THREADS_KEY (stringify threads).

End Storage.

(** ** Messages and credentials in the two apps *)

Module Apps.
Import Transport.

Inductive ChatRole := role_user | role_agent | role_system.

Record Message := mkMessage {
  msg_id : string;
  msg_threadId : string;
  msg_role : ChatRole;
  msg_text : string;
  msg_attachments : list Attachment;
  msg_status : MessageStatus;
  msg_createdAt : string
}.

(** The mobile app's [normalizeMessageStatusForRead]. *)
Definition normalizeMessageStatusForRead (messages : list Message) : list Message :=
  map (fun m =>
         match msg_role m, msg_status m with
         | role_agent, received | role_agent, sent =>
             mkMessage (msg_id m) (msg_threadId m) (msg_role m) (msg_text m)
                       (msg_attachments m) read (msg_createdAt m)
         | _, _ => m
         end)
      messages.

(** [getThreadId] of the mobile app. *)
Definition getThreadId (contactId : string) : string := (contactId ++ "-default")%string.

(** [resolveThreadId] of the CLI, on the contact's id. *)
Definition resolveThreadId (contactId : string) (providedThreadId : option string) : string :=
  match providedThreadId with
  | Some t => t
  | None => (contactId ++ "-default")%string
  end.


Inductive AuthType := type_none | type_bearer | type_basic.



(** The mobile app's contact form. *)
Record DraftContact := mkDraft {
  draft_displayName : string;
  endpointUrl : string;
  authType : AuthType;
  bearerToken : string;
  basicUsername : string;
  basicPassword : string;
  extraJson : string
}.

(** The mobile app's [buildAuthConfig]. *)
Definition buildAuthConfig (draft : DraftContact) : AuthConfig :=
  match authType draft with
  | type_bearer => auth_bearer (trim (bearerToken draft))
  | type_basic => auth_basic (trim (basicUsername draft)) (trim (basicPassword draft))
  | type_none => auth_none
  end.



(** The options of the CLI that [authFromOptions] reads. *)
Record AuthOptions := mkAuthOptions {
  opt_auth : option string;
  opt_token : option string;
  opt_username : option string;
  opt_password : option string
}.

Definition option_truthy (o : option string) : bool :=
  match o with Some s => truthy s | None => false end.

(** The CLI's [authFromOptions]. *)
Definition authFromOptions (options : AuthOptions) : Thrown + AuthConfig :=
  let authType := match opt_auth options with Some a => a | None => "none" end in
  if String.eqb authType "bearer" then
    match opt_token options with
    | Some t =>
        if truthy t then inr (auth_bearer t)
        else inl (ErrorObject "Bearer auth selected but --token is missing")
    | None => inl (ErrorObject "Bearer auth selected but --token is missing")
    end
  else if String.eqb authType "basic" then
    match opt_username options, opt_password options with
    | Some u, Some p =>
        if truthy u && truthy p then inr (auth_basic u p)
        else inl (ErrorObject "Basic auth selected but --username and --password are required")
    | _, _ => inl (ErrorObject "Basic auth selected but --username and --password are required")
    end
  else inr auth_none.

(** What [AuthConfigSchema] asks of a value of the type. *)
Definition AuthConfig_valid (auth : AuthConfig) : bool :=
  match auth with
  | auth_none => true
  | auth_bearer t => truthy t
  | auth_basic u p => truthy u && truthy p
  end.



End Apps.

Example trim_example :
  trim (String "009" ("  a b" ++ String CR (String LF " "))) = "a b".
Proof. reflexivity. Qed.

Example split_lines_example :
  split_lines ("a" ++ String CR (String LF ("b" ++ String LF (String LF "c")))) = ["a"; "b"; ""; "c"].
Proof. reflexivity. Qed.

Example replaceAll_example :
  replaceAll "x{prompt}y{prompt}" "{prompt}" "[$&|$`|$'|$$|$1]"
  = "x[{prompt}|x|y{prompt}|$|$1]y[{prompt}|x{prompt}y||$|$1]".
Proof. reflexivity. Qed.

Example parse_example :
  parse (dq " {'a': [1, -2.50e1, true, null, 'x\né'], '1': {}, 'a': 'z'} ")
  = Some (JObject [("1", JObject []); ("a", JString "z")]).
Proof. vm_compute. reflexivity. Qed.

Example stringify_example :
  stringify (JObject [("type", JString "token"); ("text", JString (String LF (dq "a'b")))])
  = (dq "{'type':'token','text':'" ++ String BSLASH "n" ++ "a" ++ String BSLASH (dq "'b'}"))%string.
Proof. vm_compute. reflexivity. Qed.

(* ================================================================== *)
(** * Part II: properties                                              *)
(* ================================================================== *)

(** ** Facts about strings *)

Module StringFacts.

Lemma append_nil_r (s : string) : (s ++ "")%string = s.
Proof. induction s as [|c s IH]; simpl; [reflexivity | now rewrite IH]. Qed.

Lemma append_assoc (a b c : string) : ((a ++ b) ++ c)%string = (a ++ (b ++ c))%string.
Proof. induction a as [|x a IH]; simpl; [reflexivity | now rewrite IH]. Qed.

Lemma length_append (a b : string) :
  String.length (a ++ b) = String.length a + String.length b.
Proof. induction a as [|x a IH]; simpl; [reflexivity | now rewrite IH]. Qed.

Lemma append_cons (c : ascii) (a b : string) :
  (String c a ++ b)%string = String c (a ++ b).
Proof. reflexivity. Qed.

Lemma rev_append (a b : string) : rev (a ++ b) = (rev b ++ rev a)%string.
Proof.
  induction a as [|x a IH]; simpl.
  - now rewrite append_nil_r.
  - now rewrite IH, append_assoc.
Qed.

Lemma rev_involutive (s : string) : rev (rev s) = s.
Proof.
  induction s as [|c s IH]; simpl; [reflexivity|].
  now rewrite rev_append, IH.
Qed.

Lemma length_rev (s : string) : String.length (rev s) = String.length s.
Proof.
  induction s as [|c s IH]; simpl; [reflexivity|].
  rewrite length_append, IH. simpl. lia.
Qed.

Lemma append_empty (a b : string) : (a ++ b)%string = "" -> a = "" /\ b = "".
Proof. destruct a; simpl; [auto | discriminate]. Qed.

Lemma append_inv_head (a b c : string) : (a ++ b)%string = (a ++ c)%string -> b = c.
Proof. induction a as [|x a IH]; simpl; [auto | intros H; injection H; auto]. Qed.

Lemma append_same_length (a b c d : string) :
  (a ++ b)%string = (c ++ d)%string -> String.length a = String.length c ->
  a = c /\ b = d.
Proof.
  revert c. induction a as [|x a IH]; intros [|y c]; simpl; try discriminate; auto.
  intros H L. injection H as -> H. injection L as L.
  destruct (IH _ H L) as [-> ->]. auto.
Qed.

Lemma take_append (a b : string) : take (String.length a) (a ++ b) = a.
Proof. induction a as [|x a IH]; simpl; [now destruct b | now rewrite IH]. Qed.

Lemma drop_append (a b : string) : drop (String.length a) (a ++ b) = b.
Proof. induction a as [|x a IH]; simpl; auto. Qed.

Lemma take_all (s : string) : take (String.length s) s = s.
Proof. induction s as [|c s IH]; simpl; [reflexivity | now rewrite IH]. Qed.

Lemma drop_all (s : string) : drop (String.length s) s = "".
Proof. induction s as [|c s IH]; simpl; auto. Qed.

Lemma take_drop (n : nat) (s : string) : (take n s ++ drop n s)%string = s.
Proof.
  revert s. induction n as [|n IH]; intros [|c s]; simpl; auto.
  now rewrite IH.
Qed.

Lemma prefix_append (p s : string) : has_prefix p (p ++ s) = true.
Proof.
  induction p as [|c p IH]; simpl; [reflexivity|].
  now rewrite Ascii.eqb_refl, IH.
Qed.

Lemma prefix_split (p s : string) :
  has_prefix p s = true -> s = (p ++ drop (String.length p) s)%string.
Proof.
  revert s. induction p as [|c p IH]; intros s H; simpl.
  - reflexivity.
  - destruct s as [|d s]; simpl in H; [discriminate|].
    apply andb_true_iff in H as [Hc Hp]. apply Ascii.eqb_eq in Hc. subst d.
    simpl. f_equal. auto.
Qed.

Lemma includes_prefix (s p : string) : has_prefix p s = true -> includes s p = true.
Proof.
  intros H. destruct s as [|c s].
  - destruct p; [reflexivity | discriminate H].
  - change (includes (String c s) p)
      with (has_prefix p (String c s) || includes s p).
    now rewrite H.
Qed.

Lemma includes_cons (c : ascii) (s p : string) :
  includes s p = true -> includes (String c s) p = true.
Proof.
  intros H. change (includes (String c s) p)
    with (has_prefix p (String c s) || includes s p).
  rewrite H. apply orb_true_r.
Qed.

Lemma includes_append (a b c : string) : includes (a ++ (b ++ c)) b = true.
Proof.
  induction a as [|x a IH].
  - simpl. apply includes_prefix. apply prefix_append.
  - rewrite append_cons. now apply includes_cons.
Qed.

Lemma truthy_nonempty (s : string) : truthy s = ProviderSdk.nonempty s.
Proof. destruct s; reflexivity. Qed.

Lemma truthy_false (s : string) : truthy s = false -> s = "".
Proof. destruct s; [reflexivity | discriminate]. Qed.

End StringFacts.
Import StringFacts.

(** ** The completion latch of the process wrappers *)

Module Latch.
Import ProviderSdk AgentServer.

Section Generic.

Context {A : Type} (step : Proc A -> Signal -> Proc A).

(** What the two wrappers' handlers have in common. *)
Definition guarded : Prop :=
  forall p sig,
    (completed p = true ->
       completed (step p sig) = true /\
       settle_calls (step p sig) = settle_calls p /\
       kills (step p sig) = kills p) /\
    (terminal sig = false ->
       completed (step p sig) = completed p /\
       settle_calls (step p sig) = settle_calls p /\
       kills (step p sig) = kills p /\
       out_buf (step p sig)
         = (out_buf p ++ stdout_of [sig])%string /\
       err_buf (step p sig)
         = (err_buf p ++ stderr_of [sig])%string).

Hypothesis Hstep : guarded.

Lemma quiet_run (sigs : list Signal) : forall p,
  existsb terminal sigs = false ->
  completed (fold_left step sigs p) = completed p /\
  settle_calls (fold_left step sigs p) = settle_calls p /\
  kills (fold_left step sigs p) = kills p /\
  out_buf (fold_left step sigs p) = (out_buf p ++ stdout_of sigs)%string /\
  err_buf (fold_left step sigs p) = (err_buf p ++ stderr_of sigs)%string.
Proof.
  induction sigs as [|sig sigs IH]; intros p H; simpl.
  - now rewrite !append_nil_r.
  - simpl in H. apply orb_false_elim in H as [Hs Hr].
    destruct (Hstep p sig) as [_ Hq].
    destruct (Hq Hs) as (Hc & Hcalls & Hk & Ho & He).
    destruct (IH (step p sig) Hr) as (Hc' & Hcalls' & Hk' & Ho' & He').
    rewrite Hc', Hcalls', Hk', Ho', He', Hc, Hcalls, Hk, Ho, He.
    repeat split; trivial.
    + rewrite append_assoc. f_equal.
      destruct sig; simpl; try reflexivity; now rewrite append_nil_r.
    + rewrite append_assoc. f_equal.
      destruct sig; simpl; try reflexivity; now rewrite append_nil_r.
Qed.

Lemma settled_run (sigs : list Signal) : forall p,
  completed p = true ->
  completed (fold_left step sigs p) = true /\
  settle_calls (fold_left step sigs p) = settle_calls p /\
  kills (fold_left step sigs p) = kills p.
Proof.
  induction sigs as [|sig sigs IH]; intros p H; simpl; [auto|].
  destruct (Hstep p sig) as [Hd _].
  destruct (Hd H) as (Hc & Hcalls & Hk).
  destruct (IH (step p sig) Hc) as (Hc' & Hcalls' & Hk').
  rewrite Hc', Hcalls', Hk', Hcalls, Hk. auto.
Qed.

Lemma later_signals_ignored (before later : list Signal) (first : Signal) (p : Proc A) :
  completed (fold_left step (before ++ [first]) p) = true ->
  settle_calls (fold_left step (before ++ first :: later) p)
    = settle_calls (fold_left step (before ++ [first]) p) /\
  kills (fold_left step (before ++ first :: later) p)
    = kills (fold_left step (before ++ [first]) p).
Proof.
  intros H.
  replace (before ++ first :: later) with ((before ++ [first]) ++ later)
    by (now rewrite <- app_assoc).
  rewrite (fold_left_app step (before ++ [first]) later).
  destruct (settled_run later _ H) as (_ & Hcalls & Hk). auto.
Qed.

End Generic.

Lemma runCliCommand_guarded (cmd : ResolvedCliCommand) :
  guarded (runCliCommand_step cmd).
Proof.
  intros p sig; split; intros H.
  - destruct sig; simpl; rewrite ?H; auto.
  - destruct sig; simpl in *; try discriminate; rewrite ?append_nil_r; auto.
Qed.

Lemma runWrappedCommandPrompt_guarded (stack : nat) (cfg : WrappedCommandConfig) :
  guarded (runWrappedCommandPrompt_step stack cfg).
Proof.
  intros p sig; split; intros H.
  - destruct sig; simpl; rewrite ?H; auto.
  - destruct sig; simpl in *; try discriminate; rewrite ?append_nil_r; auto.
Qed.

(** The state right before the first terminal signal. *)
Lemma runCliCommand_quiet (cmd : ResolvedCliCommand) (before : list Signal) :
  existsb terminal before = false ->
  completed (runCliCommand cmd before) = false /\
  settle_calls (runCliCommand cmd before) = [] /\
  kills (runCliCommand cmd before) = [] /\
  out_buf (runCliCommand cmd before) = stdout_of before /\
  err_buf (runCliCommand cmd before) = stderr_of before.
Proof.
  intros H. unfold runCliCommand.
  destruct (quiet_run _ (runCliCommand_guarded cmd) before (runCliCommand_spawn cmd) H)
    as (Hc & Hs & Hk & Ho & He).
  rewrite Hc, Hs, Hk, Ho, He. simpl. auto.
Qed.

Lemma runWrappedCommandPrompt_quiet (stack : nat) (cfg : WrappedCommandConfig) (prompt : string)
      (before : list Signal) :
  existsb terminal before = false ->
  completed (runWrappedCommandPrompt stack cfg prompt before) = false /\
  settle_calls (runWrappedCommandPrompt stack cfg prompt before) = [] /\
  kills (runWrappedCommandPrompt stack cfg prompt before) = [] /\
  out_buf (runWrappedCommandPrompt stack cfg prompt before) = stdout_of before /\
  err_buf (runWrappedCommandPrompt stack cfg prompt before) = stderr_of before.
Proof.
  intros H. unfold runWrappedCommandPrompt.
  destruct (quiet_run _ (runWrappedCommandPrompt_guarded stack cfg) before
                      (runWrappedCommandPrompt_spawn cfg prompt) H)
    as (Hc & Hs & Hk & Ho & He).
  rewrite Hc, Hs, Hk, Ho, He. simpl. auto.
Qed.

(** What the first terminal signal does to the promise of
    [runCliCommand]. *)
Definition cli_settlement (cmd : ResolvedCliCommand) (before : list Signal) (first : Signal)
  : Settlement CliResult :=
  match first with
  | ChildError err => Reject err
  | ChildClose code =>
      Resolve (mkCliResult (stdout_of before) (stderr_of before)
                           (match code with Some c => c | None => 0%Z end))
  | _ => Reject (ErrorObject (timeout_message cmd))
  end.

Definition wrapped_settlement (stack : nat) (cfg : WrappedCommandConfig) (before : list Signal)
           (first : Signal) : Settlement string :=
  match first with
  | ChildError err => Reject err
  | ChildClose code =>
      let c := match code with Some c => c | None => 0%Z end in
      if negb (Z.eqb c 0)
      then Reject (ErrorObject (exit_message (stdout_of before) (stderr_of before) c))
      else Resolve (normalizeWrappedOutput stack (stdout_of before) (stderr_of before) (w_parse cfg))
  | _ => Reject (ErrorObject (wrapped_timeout_message cfg))
  end.

Definition kills_for (first : Signal) : list string :=
  match first with TimerFired => ["SIGTERM"] | _ => [] end.

Lemma runCliCommand_first (cmd : ResolvedCliCommand) (before : list Signal) (first : Signal) :
  existsb terminal before = false -> terminal first = true ->
  completed (runCliCommand cmd (before ++ [first])) = true /\
  settle_calls (runCliCommand cmd (before ++ [first])) = [cli_settlement cmd before first] /\
  kills (runCliCommand cmd (before ++ [first])) = kills_for first.
Proof.
  intros Hb Hf.
  destruct (runCliCommand_quiet cmd before Hb) as (Hc & Hs & Hk & Ho & He).
  unfold runCliCommand in *. rewrite fold_left_app. simpl.
  destruct first; try discriminate; simpl; rewrite Hc; simpl;
    rewrite ?Hs, ?Hk, ?Ho, ?He; auto.
Qed.

Lemma runWrappedCommandPrompt_first (stack : nat) (cfg : WrappedCommandConfig) (prompt : string)
      (before : list Signal) (first : Signal) :
  existsb terminal before = false -> terminal first = true ->
  completed (runWrappedCommandPrompt stack cfg prompt (before ++ [first])) = true /\
  settle_calls (runWrappedCommandPrompt stack cfg prompt (before ++ [first]))
    = [wrapped_settlement stack cfg before first] /\
  kills (runWrappedCommandPrompt stack cfg prompt (before ++ [first])) = kills_for first.
Proof.
  intros Hb Hf.
  destruct (runWrappedCommandPrompt_quiet stack cfg prompt before Hb) as (Hc & Hs & Hk & Ho & He).
  unfold runWrappedCommandPrompt in *. rewrite fold_left_app. simpl.
  destruct first; try discriminate; simpl; rewrite Hc; simpl;
    rewrite ?Hs, ?Hk, ?Ho, ?He; auto.
Qed.

Lemma runCliCommand_settled_by_first (cmd : ResolvedCliCommand)
      (before later : list Signal) (first : Signal) :
  existsb terminal before = false -> terminal first = true ->
  settle_calls (runCliCommand cmd (before ++ first :: later))
    = [cli_settlement cmd before first] /\
  kills (runCliCommand cmd (before ++ first :: later)) = kills_for first.
Proof.
  intros Hb Hf.
  destruct (runCliCommand_first cmd before first Hb Hf) as (Hc1 & Hs1 & Hk1).
  destruct (later_signals_ignored _ (runCliCommand_guarded cmd) before later first
                                  (runCliCommand_spawn cmd) Hc1) as (Hp & Hpk).
  unfold runCliCommand in *. now rewrite Hp, Hpk, Hs1, Hk1.
Qed.

Lemma runWrappedCommandPrompt_settled_by_first (stack : nat) (cfg : WrappedCommandConfig)
      (prompt : string) (before later : list Signal) (first : Signal) :
  existsb terminal before = false -> terminal first = true ->
  settle_calls (runWrappedCommandPrompt stack cfg prompt (before ++ first :: later))
    = [wrapped_settlement stack cfg before first] /\
  kills (runWrappedCommandPrompt stack cfg prompt (before ++ first :: later)) = kills_for first.
Proof.
  intros Hb Hf.
  destruct (runWrappedCommandPrompt_first stack cfg prompt before first Hb Hf) as (Hc1 & Hs1 & Hk1).
  destruct (later_signals_ignored _ (runWrappedCommandPrompt_guarded stack cfg) before later first
                                  (runWrappedCommandPrompt_spawn cfg prompt) Hc1) as (Hp & Hpk).
  unfold runWrappedCommandPrompt in *. now rewrite Hp, Hpk, Hs1, Hk1.
Qed.

(** C9.  Whatever the timer and the child deliver, and in whatever
    order: nothing settles the promise before the first terminal
    signal (timeout, child error, child close); that signal settles it
    with one call of [resolve] or [reject]; every later signal leaves
    the promise and the child alone.  When the timeout is the first,
    the child is sent SIGTERM and the promise is rejected with a text
    that says "timed out after <ms>ms".  This holds for
    [runCliCommand] and for the server's [runWrappedCommandPrompt]. *)
Theorem completion_is_one_shot (stack : nat)
        (cmd : ResolvedCliCommand) (cfg : WrappedCommandConfig) (prompt : string)
        (before later : list Signal) (first : Signal) :
  existsb terminal before = false ->
  terminal first = true ->
  let p := runCliCommand cmd (before ++ first :: later) in
  let q := runWrappedCommandPrompt stack cfg prompt (before ++ first :: later) in
  (settle_calls (runCliCommand cmd before) = [] /\
   settle_calls (runWrappedCommandPrompt stack cfg prompt before) = []) /\
  (settle_calls p = [cli_settlement cmd before first] /\
   settle_calls q = [wrapped_settlement stack cfg before first]) /\
  (kills p = kills_for first /\ kills q = kills_for first) /\
  (first = TimerFired ->
   promise_state p = Some (Reject (ErrorObject (timeout_message cmd))) /\
   promise_state q = Some (Reject (ErrorObject (wrapped_timeout_message cfg))) /\
   kills p = ["SIGTERM"] /\ kills q = ["SIGTERM"] /\
   includes (timeout_message cmd)
            ("timed out after " ++ dec_of_Z (timeoutMs cmd) ++ "ms") = true /\
   includes (wrapped_timeout_message cfg)
            ("timed out after " ++ dec_of_Z (w_timeoutMs cfg) ++ "ms") = true).
Proof.
  intros Hb Hf p q.
  destruct (runCliCommand_quiet cmd before Hb) as (_ & Hs0 & _).
  destruct (runWrappedCommandPrompt_quiet stack cfg prompt before Hb) as (_ & Hq0 & _).
  destruct (runCliCommand_settled_by_first cmd before later first Hb Hf) as (Hp & Hpk).
  destruct (runWrappedCommandPrompt_settled_by_first stack cfg prompt before later first Hb Hf)
    as (Hq & Hqk).
  fold p in Hp, Hpk. fold q in Hq, Hqk.
  repeat split; trivial.
  - unfold promise_state. now rewrite Hp, H.
  - unfold promise_state. now rewrite Hq, H.
  - now rewrite Hpk, H.
  - now rewrite Hqk, H.
  - unfold timeout_message.
    change ("CLI command timed out after " ++ dec_of_Z (timeoutMs cmd) ++ "ms: " ++ command cmd)%string
      with ("CLI command " ++ ("timed out after " ++ dec_of_Z (timeoutMs cmd) ++ "ms: " ++ command cmd))%string.
    replace ("timed out after " ++ dec_of_Z (timeoutMs cmd) ++ "ms: " ++ command cmd)%string
      with (("timed out after " ++ dec_of_Z (timeoutMs cmd) ++ "ms") ++ (": " ++ command cmd))%string.
    + apply includes_append.
    + rewrite !append_assoc. reflexivity.
  - unfold wrapped_timeout_message.
    change ("Wrapped command timed out after " ++ dec_of_Z (w_timeoutMs cfg) ++ "ms")%string
      with ("Wrapped command " ++ ("timed out after " ++ dec_of_Z (w_timeoutMs cfg) ++ "ms"))%string.
    rewrite <- (append_nil_r ("timed out after " ++ dec_of_Z (w_timeoutMs cfg) ++ "ms")) at 1.
    apply includes_append.
Qed.

Definition sample_command : ResolvedCliCommand :=
  mkCommand "codex" ["exec"; "hello"] None None 1500 None parse_text.

(** A call stack with room for a thousand nested calls. *)
Definition sample_stack : nat := 1000.

Definition sample_wrapped : WrappedCommandConfig :=
  mkWrapped "codex" ["exec"; "{prompt}"] 1500 false parse_text terminal_cli.

(** The timeout fires while output is still arriving; the child's
    exit comes later and changes nothing. *)
Lemma completion_is_one_shot_witness :
  settle_calls (runCliCommand sample_command
                  ([StdoutData "partial"] ++ TimerFired :: [ChildClose None]))
  = [Reject (ErrorObject "CLI command timed out after 1500ms: codex")] /\
  settle_calls (runWrappedCommandPrompt sample_stack sample_wrapped "hello"
                  ([StdoutData "partial"] ++ TimerFired :: [ChildClose None]))
  = [Reject (ErrorObject "Wrapped command timed out after 1500ms")].
Proof.
  destruct (completion_is_one_shot sample_stack sample_command sample_wrapped "hello"
              [StdoutData "partial"] [ChildClose None] TimerFired
              eq_refl eq_refl) as (_ & (Hp & Hq) & _).
  split; [exact Hp | exact Hq].
Defined.

End Latch.

(** ** The failure message for a non-zero exit code *)

Module FailureMessage.
Import ProviderSdk AgentServer Latch.

Definition terminal_adapter : CliWrappedProviderAdapter :=
  mkAdapter terminal_cli (Some "codex") ["exec"; "{prompt}"] parse_text.

Definition sample_input : ProviderSendInput :=
  mkInput [] "thread-1" (mkOutbound "hi" []).

Definition sample_world : World :=
  mkWorld (fun n => "id-" ++ dec_of_N (N.of_nat n))%string
          (fun n => "2026-01-01T00:00:0" ++ dec_of_N (N.of_nat n) ++ "Z")%string
          0 0.

(** [stderr.trim() || stdout.trim() || `exit code ${code}`], spelled
    out. *)
Definition preferred_text (out err : string) (code : Z) : string :=
  if nonempty (trim err) then trim err
  else if nonempty (trim out) then trim out
  else ("exit code " ++ dec_of_Z code)%string.

Lemma exit_message_preferred (out err : string) (code : Z) :
  exit_message out err code = preferred_text out err code.
Proof.
  unfold exit_message, preferred_text, or_else.
  now rewrite !truthy_nonempty.
Qed.

Lemma errorText_preferred (r : CliResult) :
  errorText r = preferred_text (stdout r) (stderr r) (exitCode r).
Proof.
  unfold errorText, preferred_text, or_else.
  now rewrite !truthy_nonempty.
Qed.

(** C7, as the claim states it, fails for the CLI-wrapped adapter:
    with exit code 1, empty stdout and stderr "boom", the failure it
    throws reads "terminal-cli command failed: boom". *)
Lemma adapter_failure_message_is_prefixed :
  result (sendMessageStream Latch.sample_stack terminal_adapter [StderrData "boom"; ChildClose (Some 1%Z)]
                            sample_input sample_world)
  = Threw (ErrorObject "terminal-cli command failed: boom")
  /\ String.eqb "terminal-cli command failed: boom" "boom" = false.
Proof. vm_compute. split; reflexivity. Qed.

(** C7, amended.  When the child closes with a non-zero exit code
    before the timeout or a spawn error, the failure text is the
    trimmed stderr when that is non-empty, else the trimmed stdout
    when that is non-empty, else "exit code N".  The server's
    [runWrappedCommandPrompt] rejects with exactly that text; the
    CLI-wrapped adapter throws it behind the prefix
    "<kind> command failed: ". *)
Theorem nonzero_exit_failure_message (stack : nat)
        (self : CliWrappedProviderAdapter) (input : ProviderSendInput)
        (cmd : ResolvedCliCommand) (cfg : WrappedCommandConfig) (prompt : string)
        (before later : list Signal) (code : Z) (w : World) :
  resolveCommand self input = inr cmd ->
  existsb terminal before = false ->
  code <> 0%Z ->
  let text := preferred_text (stdout_of before) (stderr_of before) code in
  promise_state (runWrappedCommandPrompt stack cfg prompt (before ++ ChildClose (Some code) :: later))
    = Some (Reject (ErrorObject text))
  /\ result (sendMessageStream stack self (before ++ ChildClose (Some code) :: later) input w)
     = Threw (ErrorObject (kind_text (kind self) ++ " command failed: " ++ text)).
Proof.
  intros Hcmd Hb Hcode text.
  destruct (runCliCommand_settled_by_first cmd before later (ChildClose (Some code))
                                           Hb eq_refl) as (Hp & _).
  destruct (runWrappedCommandPrompt_settled_by_first stack cfg prompt before later
              (ChildClose (Some code)) Hb eq_refl) as (Hq & _).
  assert (Hnz : negb (Z.eqb code 0) = true)
    by (apply negb_true_iff, Z.eqb_neq; exact Hcode).
  split.
  - unfold promise_state. rewrite Hq. simpl. rewrite Hnz.
    now rewrite exit_message_preferred.
  - unfold sendMessageStream, Gen.bind, randomId, nowISO, yield, await, awaited,
      throw_error, throw, promise_state.
    simpl. rewrite Hcmd. simpl. rewrite Hp. simpl. rewrite Hnz. simpl.
    now rewrite errorText_preferred.
Qed.

(** The case the specification names: exit code 1, nothing on stdout,
    "boom" on stderr. *)
Lemma nonzero_exit_failure_message_witness :
  promise_state (runWrappedCommandPrompt Latch.sample_stack sample_wrapped "hi"
                   ([StderrData "boom"] ++ ChildClose (Some 1%Z) :: []))
    = Some (Reject (ErrorObject "boom"))
  /\ result (sendMessageStream Latch.sample_stack terminal_adapter
               ([StderrData "boom"] ++ ChildClose (Some 1%Z) :: []) sample_input sample_world)
     = Threw (ErrorObject "terminal-cli command failed: boom").
Proof.
  apply (nonzero_exit_failure_message Latch.sample_stack terminal_adapter sample_input
           (mkCommand "codex" ["exec"; "hi"] None None 180000 None parse_text)
           sample_wrapped "hi" [StderrData "boom"] [] 1%Z sample_world).
  - reflexivity.
  - reflexivity.
  - discriminate.
Defined.

End FailureMessage.

(** ** Prompt substitution *)

Module PromptSubstitution.
Import ProviderSdk AgentServer.

Lemma applyPrompt_is_applyPromptToArgs (args : list string) (prompt : string) (stdin : bool) :
  applyPrompt args prompt stdin = applyPromptToArgs args prompt (negb stdin).
Proof. reflexivity. Qed.

Lemma GetSubstitution_plain (matched before after template : string) :
  free_of "$" template = true ->
  GetSubstitution matched before after template = template.
Proof.
  induction template as [|c r IH]; simpl; [reflexivity|].
  intros H. apply andb_true_iff in H as [Hc Hr].
  apply negb_true_iff in Hc. rewrite Hc. now rewrite IH.
Qed.

Lemma replaceAll_from_plain (search text : string) (s : string) :
  free_of "$" text = true ->
  forall before skip,
    replaceAll_from search text before skip s = substitute_from search text skip s.
Proof.
  intros Hp. induction s as [|c r IH]; intros before skip; simpl; [reflexivity|].
  destruct skip as [|k]; [|apply IH].
  rewrite GetSubstitution_plain by exact Hp.
  now rewrite !IH.
Qed.

Lemma substitute_absent (search text s : string) :
  includes s search = false -> substitute s search text = s.
Proof.
  unfold substitute. induction s as [|c r IH]; intros H; [reflexivity|].
  change (includes (String c r) search)
    with (has_prefix search (String c r) || includes r search) in H.
  apply orb_false_elim in H as [Hpre Hr].
  cbn [substitute_from]. rewrite Hpre. now rewrite IH.
Qed.

(** C5 at the input where the code departs from it: a prompt with
    [$$] in it.  [String.prototype.replaceAll] reads [$$], [$&], [$`]
    and [$'] in a replacement string as patterns, so the argument
    gets "pay $5" where the prompt is "pay $$5"; replacing the
    placeholder by the prompt itself gives "pay $$5". *)
Theorem prompt_with_dollar_is_rewritten :
  applyPromptToArgs ["--message={prompt}"] "pay $$5" true = ["--message=pay $5"]
  /\ applyPrompt ["--message={prompt}"] "pay $$5" false = ["--message=pay $5"]
  /\ applyPromptToArgs ["{prompt}"] "$&" true = ["{prompt}"]
  /\ map (fun arg => substitute arg PLACEHOLDER "pay $$5") ["--message={prompt}"]
     = ["--message=pay $$5"].
Proof. repeat split; reflexivity. Qed.

(** For a prompt with no [$] in it the substitution is the one the
    specification describes: every argument has each occurrence of
    the placeholder replaced by the prompt (an argument without the
    placeholder is returned as it is); the prompt is appended exactly
    when no argument has the placeholder and stdin mode is off. *)
Theorem prompt_substitution_without_dollar
        (args : list string) (prompt : string) (stdin : bool) :
  free_of "$" prompt = true ->
  let replaced := map (fun arg => substitute arg PLACEHOLDER prompt) args in
  let missing := negb (existsb (fun arg => includes arg PLACEHOLDER) args) in
  applyPrompt args prompt stdin
    = (if negb stdin && missing then replaced ++ [prompt] else replaced)
  /\ applyPromptToArgs args prompt (negb stdin) = applyPrompt args prompt stdin
  /\ (missing = true -> replaced = args)
  /\ List.length (applyPrompt args prompt stdin)
     = (if negb stdin && missing then S (List.length args) else List.length args).
Proof.
  intros Hp replaced missing.
  assert (Hmap : map (fun arg => if includes arg PLACEHOLDER
                                 then replaceAll arg PLACEHOLDER prompt else arg) args
                 = replaced).
  { unfold replaced. apply map_ext. intros arg.
    destruct (includes arg PLACEHOLDER) eqn:Hin.
    - unfold replaceAll, substitute. now apply replaceAll_from_plain.
    - symmetry. now apply substitute_absent. }
  assert (Happ : applyPrompt args prompt stdin
                 = (if negb stdin && missing then replaced ++ [prompt] else replaced)).
  { unfold applyPrompt. rewrite Hmap. reflexivity. }
  repeat split.
  - exact Happ.
  - intros Hm. unfold replaced, missing in *.
    apply negb_true_iff in Hm.
    rewrite <- (map_id args) at 2. apply map_ext_in.
    intros arg Hin. apply substitute_absent.
    destruct (includes arg PLACEHOLDER) eqn:E; [|reflexivity].
    assert (existsb (fun arg => includes arg PLACEHOLDER) args = true)
      by (apply existsb_exists; eauto).
    congruence.
  - rewrite Happ. destruct (negb stdin && missing).
    + unfold replaced. rewrite length_app, length_map. simpl. lia.
    + unfold replaced. now rewrite length_map.
Qed.

Lemma prompt_substitution_without_dollar_witness :
  applyPrompt ["exec"; "--ask={prompt}!"] "hello" false = ["exec"; "--ask=hello!"]
  /\ applyPrompt ["exec"] "hello" false = ["exec"; "hello"]
  /\ applyPrompt ["exec"] "hello" true = ["exec"].
Proof.
  pose proof (prompt_substitution_without_dollar ["exec"; "--ask={prompt}!"] "hello" false
                eq_refl) as (H1 & _).
  pose proof (prompt_substitution_without_dollar ["exec"] "hello" false eq_refl) as (H2 & _).
  pose proof (prompt_substitution_without_dollar ["exec"] "hello" true eq_refl) as (H3 & _).
  exact (conj H1 (conj H2 H3)).
Defined.

End PromptSubstitution.

(** ** Facts about [trim] and line splitting *)

Module TrimFacts.
Import ProviderSdk.

Lemma strip_space_shorter (s r : string) :
  strip_space s = Some r ->
  exists w, s = (w ++ r)%string /\ String.length r < String.length s.
Proof.
  unfold strip_space. destruct s as [|a r1]; [discriminate|].
  destruct (ascii_space a).
  { intros H; injection H as <-. exists (str1 a). simpl. split; [reflexivity | lia]. }
  destruct r1 as [|b r2]; [discriminate|].
  destruct (is_byte 194 a && is_byte 160 b).
  { intros H; injection H as <-. exists (String a (str1 b)). simpl.
    split; [reflexivity | lia]. }
  destruct r2 as [|c r3]; [discriminate|].
  match goal with |- (if ?x then _ else _) = _ -> _ => destruct x end; [|discriminate].
  intros H; injection H as <-. exists (String a (String b (str1 c))). simpl.
  split; [reflexivity | lia].
Qed.

Lemma strip_space_rev_shorter (s r : string) :
  strip_space_rev s = Some r ->
  exists w, s = (w ++ r)%string /\ String.length r < String.length s.
Proof.
  unfold strip_space_rev. destruct s as [|a r1]; [discriminate|].
  destruct (ascii_space a).
  { intros H; injection H as <-. exists (str1 a). simpl. split; [reflexivity | lia]. }
  destruct r1 as [|b r2]; [discriminate|].
  destruct (is_byte 194 b && is_byte 160 a).
  { intros H; injection H as <-. exists (String a (str1 b)). simpl.
    split; [reflexivity | lia]. }
  destruct r2 as [|c r3]; [discriminate|].
  match goal with |- (if ?x then _ else _) = _ -> _ => destruct x end; [|discriminate].
  intros H; injection H as <-. exists (String a (String b (str1 c))). simpl.
  split; [reflexivity | lia].
Qed.

Lemma strip_space_none (c : ascii) (r : string) :
  strip_space (String c r) = None -> ascii_space c = false.
Proof. unfold strip_space. destruct (ascii_space c); [discriminate | reflexivity]. Qed.

Lemma strip_space_rev_none (c : ascii) (r : string) :
  strip_space_rev (String c r) = None -> ascii_space c = false.
Proof. unfold strip_space_rev. destruct (ascii_space c); [discriminate | reflexivity]. Qed.

Section Fuel.

Variable strip : string -> option string.
Hypothesis strip_shorter : forall s r,
  strip s = Some r ->
  exists w, s = (w ++ r)%string /\ String.length r < String.length s.

Lemma trim_fuel_suffix (fuel : nat) : forall s,
  exists w, s = (w ++ trim_fuel strip fuel s)%string.
Proof.
  induction fuel as [|k IH]; intros s; simpl.
  - now exists "".
  - destruct (strip s) as [r|] eqn:E; [|now exists ""].
    destruct (strip_shorter _ _ E) as (w & -> & _).
    destruct (IH r) as (w' & Hw'). exists (w ++ w')%string.
    rewrite append_assoc. now rewrite <- Hw'.
Qed.

Lemma trim_fuel_done (fuel : nat) : forall s,
  String.length s <= fuel -> strip (trim_fuel strip fuel s) = None.
Proof.
  induction fuel as [|k IH]; intros s L; simpl.
  - destruct (strip s) as [r|] eqn:E; [|reflexivity].
    destruct (strip_shorter _ _ E) as (_ & _ & Hlt). lia.
  - destruct (strip s) as [r|] eqn:E; [|exact E].
    destruct (strip_shorter _ _ E) as (_ & _ & Hlt). apply IH. lia.
Qed.

(** Nothing to strip: the text stays. *)
Lemma trim_fuel_fixed (fuel : nat) (s : string) :
  strip s = None -> trim_fuel strip fuel s = s.
Proof. destruct fuel; simpl; [reflexivity|]. now intros ->. Qed.

End Fuel.

Lemma trimStart_spec (s : string) :
  (exists w, s = (w ++ trimStart s)%string) /\ strip_space (trimStart s) = None.
Proof.
  split.
  - apply trim_fuel_suffix, strip_space_shorter.
  - apply trim_fuel_done; [apply strip_space_shorter | lia].
Qed.

Lemma trimEnd_spec (s : string) :
  (exists w, s = (trimEnd s ++ w)%string) /\ strip_space_rev (rev (trimEnd s)) = None.
Proof.
  unfold trimEnd. split.
  - destruct (trim_fuel_suffix _ strip_space_rev_shorter (String.length s) (rev s))
      as (w & Hw).
    exists (rev w). rewrite <- rev_append, <- Hw. now rewrite rev_involutive.
  - rewrite rev_involutive.
    apply trim_fuel_done; [apply strip_space_rev_shorter | now rewrite length_rev].
Qed.

(** What is known of a trimmed text: it does not start with an ASCII
    white-space character, and does not end with one. *)
Lemma trim_ends (s : string) :
  (trim s = "" \/ exists c r, trim s = String c r /\ ascii_space c = false) /\
  (trim s = "" \/ exists c r, rev (trim s) = String c r /\ ascii_space c = false).
Proof.
  unfold trim.
  destruct (trimStart_spec s) as (_ & Hstart).
  destruct (trimEnd_spec (trimStart s)) as ((w & Hw) & Hend).
  split.
  - destruct (trimEnd (trimStart s)) as [|c r] eqn:E; [now left|]. right.
    exists c, r. split; [reflexivity|].
    rewrite Hw in Hstart. simpl in Hstart. now apply strip_space_none in Hstart.
  - destruct (rev (trimEnd (trimStart s))) as [|c r] eqn:E.
    + left. rewrite <- (rev_involutive (trimEnd (trimStart s))), E. reflexivity.
    + right. exists c, r. split; [reflexivity|]. now apply strip_space_rev_none in Hend.
Qed.

(** A text that neither starts nor ends with white space is its own
    trim. *)
Lemma trim_fixed (s : string) :
  strip_space s = None -> strip_space_rev (rev s) = None -> trim s = s.
Proof.
  intros H1 H2. unfold trim, trimStart, trimEnd.
  rewrite (trim_fuel_fixed _ _ _ H1), (trim_fuel_fixed _ _ _ H2).
  apply rev_involutive.
Qed.

(** *** Lines *)

Lemma split_lines_acc_cons (cur s : string) :
  exists x tl, split_lines_acc cur s = x :: tl.
Proof.
  revert cur. induction s as [|c r IH]; intros cur; simpl; [eauto|].
  destruct (Ascii.eqb c LF); [eauto|].
  destruct r as [|d r']; [eauto|].
  destruct (Ascii.eqb c CR && Ascii.eqb d LF); [eauto|]. apply IH.
Qed.

Lemma split_lines_acc_single (s : string) : forall cur,
  free_of LF s = true -> split_lines_acc cur s = [(rev cur ++ s)%string].
Proof.
  unfold free_of. induction s as [|c r IH]; intros cur H; simpl.
  - now rewrite append_nil_r.
  - simpl in H. apply andb_true_iff in H as [Hc Hr].
    apply negb_true_iff in Hc. rewrite Hc.
    destruct r as [|d r'].
    + simpl. reflexivity.
    + assert (Hd : Ascii.eqb d LF = false).
      { simpl in Hr. apply andb_true_iff in Hr as [Hd _]. now apply negb_true_iff in Hd. }
      rewrite Hd, andb_false_r. rewrite IH by exact Hr.
      simpl. now rewrite append_assoc.
Qed.

Fixpoint last_is (P : ascii -> bool) (s : string) : bool :=
  match s with
  | EmptyString => false
  | String c EmptyString => P c
  | String _ r => last_is P r
  end.

Lemma last_is_rev (P : ascii -> bool) (s : string) (c : ascii) (r : string) :
  rev s = String c r -> last_is P s = P c.
Proof.
  revert c r. induction s as [|x s IH]; intros c r H; [discriminate|].
  destruct s as [|y s'].
  - simpl in H. now injection H as -> _.
  - change (last_is P (String x (String y s'))) with (last_is P (String y s')).
    simpl in H.
    destruct (rev s' ++ str1 y)%string as [|c' r'] eqn:E.
    + apply append_empty in E as [_ E]. discriminate.
    + simpl in H. injection H as <- _. apply (IH c' r'). simpl. exact E.
Qed.

Lemma nonempty_rev (s : string) : nonempty (rev s) = nonempty s.
Proof. unfold nonempty. now rewrite length_rev. Qed.

(** The last piece is non-empty when the text does not end with a
    line feed. *)
Lemma split_lines_acc_last_bounded (n : nat) : forall s cur,
  String.length s <= n ->
  nonempty cur = true \/ s <> "" ->
  last_is (fun c => Ascii.eqb c LF) s = false ->
  nonempty (last (split_lines_acc cur s) "") = true.
Proof.
  induction n as [|n IH]; intros s cur Hn Hne Hlast.
  - destruct s; [|simpl in Hn; lia].
    simpl. rewrite nonempty_rev. destruct Hne as [H|H]; [exact H | contradiction].
  - destruct s as [|c r].
    { simpl. rewrite nonempty_rev. destruct Hne as [H|H]; [exact H | contradiction]. }
    simpl in Hn. simpl. destruct (Ascii.eqb c LF) eqn:Hc.
    + destruct r as [|d r']; [simpl in Hlast; congruence|].
      destruct (split_lines_acc_cons "" (String d r')) as (x & tl & E).
      rewrite E. change (last (rev cur :: x :: tl) "") with (last (x :: tl) "").
      rewrite <- E. apply IH; [lia | right; discriminate | exact Hlast].
    + destruct r as [|d r'].
      * simpl. unfold nonempty. rewrite length_append. simpl.
        now rewrite Nat.add_comm.
      * destruct (Ascii.eqb c CR && Ascii.eqb d LF) eqn:Hcr.
        -- apply andb_true_iff in Hcr as [_ Hd].
           destruct r' as [|e r''].
           { simpl in Hlast. congruence. }
           destruct (split_lines_acc_cons "" (String e r'')) as (x & tl & E).
           rewrite E. change (last (rev cur :: x :: tl) "") with (last (x :: tl) "").
           rewrite <- E. apply IH; [simpl in *; lia | right; discriminate | exact Hlast].
        -- apply IH; [lia | left; reflexivity | exact Hlast].
Qed.

Lemma split_lines_acc_last (s cur : string) :
  nonempty cur = true \/ s <> "" ->
  last_is (fun c => Ascii.eqb c LF) s = false ->
  nonempty (last (split_lines_acc cur s) "") = true.
Proof. apply (split_lines_acc_last_bounded (String.length s)). lia. Qed.

(** The first piece is non-empty once something was read into it,
    and a line feed in the text gives at least two pieces. *)
Lemma split_lines_acc_first_bounded (n : nat) : forall s cur,
  String.length s <= n ->
  exists x tl, split_lines_acc cur s = x :: tl /\
               (nonempty cur = true -> nonempty x = true) /\
               (free_of LF s = false -> tl <> []).
Proof.
  unfold free_of.
  induction n as [|n IH]; intros s cur Hn.
  - destruct s; [|simpl in Hn; lia]. exists (rev cur), []. simpl.
    split; [reflexivity|]. split; [now rewrite nonempty_rev | discriminate].
  - destruct s as [|c r].
    { exists (rev cur), []. simpl.
      split; [reflexivity|]. split; [now rewrite nonempty_rev | discriminate]. }
    simpl in Hn. simpl. destruct (Ascii.eqb c LF) eqn:Hc.
    + destruct (split_lines_acc_cons "" r) as (y & tl & E).
      exists (rev cur), (y :: tl). rewrite E.
      split; [reflexivity|]. split; [now rewrite nonempty_rev | discriminate].
    + destruct r as [|d r'].
      * exists (rev (String c cur)), []. split; [reflexivity|].
        split; [|simpl; discriminate].
        intros _. rewrite nonempty_rev. reflexivity.
      * destruct (Ascii.eqb c CR && Ascii.eqb d LF) eqn:Hcr.
        -- destruct (split_lines_acc_cons "" r') as (y & tl & E).
           exists (rev cur), (y :: tl). rewrite E.
           split; [reflexivity|]. split; [now rewrite nonempty_rev | discriminate].
        -- destruct (IH (String d r') (String c cur)) as (x & tl & E & Hx & Htl); [lia|].
           exists x, tl. split; [exact E|]. split.
           ++ intros _. now apply Hx.
           ++ simpl. intros H. apply Htl. exact H.
Qed.

Lemma filter_first_last (x : string) (tl : list string) :
  nonempty x = true -> tl <> [] -> nonempty (last tl "") = true ->
  2 <= List.length (filter nonempty (x :: tl)).
Proof.
  intros Hx Htl Hlast. simpl. rewrite Hx. simpl.
  assert (1 <= List.length (filter nonempty tl)); [|lia].
  clear Hx. induction tl as [|y tl IH]; [contradiction|].
  destruct tl as [|z tl'].
  - simpl in *. rewrite Hlast. simpl. lia.
  - change (last (y :: z :: tl') "") with (last (z :: tl') "") in Hlast.
    simpl filter at 1. destruct (nonempty y); simpl.
    + lia.
    + apply IH; [discriminate | exact Hlast].
Qed.

(** A trimmed, non-empty text with at most one non-empty line is that
    line. *)
Lemma single_line (s : string) :
  trim s <> "" ->
  List.length (filter nonempty (split_lines (trim s))) <= 1 ->
  filter nonempty (split_lines (trim s)) = [trim s].
Proof.
  intros Hne Hlen.
  destruct (trim_ends s) as ([E|(c & r & E & Hc)] & [E'|(c' & r' & E' & Hc')]);
    try contradiction.
  destruct (free_of LF (trim s)) eqn:Hlf.
  - unfold split_lines. rewrite split_lines_acc_single by exact Hlf.
    simpl. rewrite E. reflexivity.
  - exfalso.
    assert (Hlast : last_is (fun x => Ascii.eqb x LF) (trim s) = false).
    { rewrite (last_is_rev _ _ _ _ E'). destruct c' as [[] [] [] [] [] [] [] []];
        try reflexivity; discriminate. }
    assert (HcLF : Ascii.eqb c LF = false)
      by (destruct c as [[] [] [] [] [] [] [] []]; try reflexivity; discriminate).
    assert (HcCR : Ascii.eqb c CR = false)
      by (destruct c as [[] [] [] [] [] [] [] []]; try reflexivity; discriminate).
    rewrite E in Hlf, Hlast, Hlen. unfold split_lines in Hlen.
    destruct r as [|d r2].
    { unfold free_of in Hlf. simpl in Hlf. rewrite HcLF in Hlf. discriminate. }
    assert (Hstep : split_lines_acc "" (String c (String d r2))
                    = split_lines_acc (String c "") (String d r2)).
    { simpl. rewrite HcLF, HcCR. reflexivity. }
    rewrite Hstep in Hlen.
    destruct (split_lines_acc_first_bounded (String.length (String d r2)) (String d r2)
                (String c "") (le_n _)) as (x & tl & Ex & Hx & Htl).
    assert (Hlf' : free_of LF (String d r2) = false).
    { unfold free_of in *. simpl in Hlf. rewrite HcLF in Hlf. exact Hlf. }
    assert (Hl : nonempty (last (split_lines_acc (String c "") (String d r2)) "") = true).
    { apply split_lines_acc_last; [left; reflexivity|].
      destruct r2; exact Hlast. }
    rewrite Ex in Hl, Hlen.
    assert (Htl' : tl <> []) by (apply Htl; exact Hlf').
    assert (Hl' : nonempty (last tl "") = true).
    { destruct tl as [|y tl']; [contradiction | exact Hl]. }
    pose proof (filter_first_last x tl (Hx eq_refl) Htl' Hl'). lia.
Qed.

End TrimFacts.

(** ** Facts about generators *)

Module GenFacts.

Lemma for_each_yield {A} (f : A -> StreamEvent) (xs : list A) (w : World) :
  for_each xs (fun x => yield (f x)) w = mkRun (map f xs) (Returned tt) w.
Proof.
  induction xs as [|x xs IH]; [reflexivity|].
  simpl. unfold Gen.bind. simpl. now rewrite IH.
Qed.

(** The same, with [yield] unfolded, as [simpl] leaves it. *)
Lemma for_each_emit {A} (f : A -> StreamEvent) (xs : list A) (w : World) :
  for_each xs (fun x w0 => mkRun [f x] (Returned tt) w0) w
  = mkRun (map f xs) (Returned tt) w.
Proof. exact (for_each_yield f xs w). Qed.

Lemma for_each_yield_id (xs : list StreamEvent) (w : World) :
  for_each xs yield w = mkRun xs (Returned tt) w.
Proof.
  induction xs as [|x xs IH]; [reflexivity|].
  simpl. unfold Gen.bind. simpl. now rewrite IH.
Qed.

End GenFacts.

(** ** Chunking the output into tokens *)

Module Chunking.
Import ProviderSdk AgentServer TrimFacts GenFacts.

Lemma newline_all_but_last_spec (lines : list string) :
  lines <> [] ->
  newline_all_but_last lines
  = map (fun line => (line ++ str1 LF)%string) (removelast lines) ++ [last lines ""].
Proof.
  induction lines as [|x tl IH]; [contradiction|]. intros _.
  destruct tl as [|y tl']; [reflexivity|].
  change (newline_all_but_last (x :: y :: tl'))
    with ((x ++ str1 LF)%string :: newline_all_but_last (y :: tl')).
  rewrite IH by discriminate. reflexivity.
Qed.

Lemma newline_all_but_last_length (lines : list string) :
  List.length (newline_all_but_last lines) = List.length lines.
Proof.
  induction lines as [|x tl IH]; [reflexivity|].
  destruct tl as [|y tl']; [reflexivity|].
  change (newline_all_but_last (x :: y :: tl'))
    with ((x ++ str1 LF)%string :: newline_all_but_last (y :: tl')).
  cbn [List.length]. f_equal. exact IH.
Qed.

Lemma chunkText_lines (text : string) :
  chunkText text = newline_all_but_last (filter nonempty (split_lines (trim text))).
Proof.
  unfold chunkText.
  destruct (trim text) as [|c r] eqn:E; [reflexivity|].
  cbn [truthy is_empty negb].
  destruct (Nat.leb (List.length (filter nonempty (split_lines (String c r)))) 1) eqn:L;
    [|reflexivity].
  apply Nat.leb_le in L. rewrite <- E in L |- *.
  rewrite single_line; [reflexivity | rewrite E; discriminate | exact L].
Qed.

Definition wrapped_request : ChatStreamRequest :=
  mkRequest "thread-1" (mkOutbound "hi" []).

(** C8, as the claim states it, fails for the server's wrapped-command
    stream: a one-line output "hello" is sent as the token "hello"
    followed by a line feed, not as the output itself. *)
Lemma wrapped_stream_token_keeps_newline :
  emitted (runWrappedCommandStream Latch.sample_stack Latch.sample_wrapped
             [StdoutData "hello"; ChildClose (Some 0%Z)]
             wrapped_request FailureMessage.sample_world)
  = [message_start "id-0" "thread-1" "2026-01-01T00:00:00Z";
     typing true;
     token (String "h" (String "e" (String "l" (String "l" (String "o" (str1 LF))))));
     typing false;
     message_end "id-0" "hello" received "2026-01-01T00:00:01Z"]
  /\ chunkText "hello" = ["hello"].
Proof. vm_compute. split; reflexivity. Qed.

(** C8, amended.  [chunkText], which the CLI-wrapped adapter uses,
    gives one token per non-empty line of the trimmed output: every
    line but the last followed by a line feed, the last line as it
    is; an output of one line gives the trimmed output as its only
    token.  The server's wrapped-command stream gives one token per
    non-empty line of the output, every one followed by a line feed,
    the last line included. *)
Theorem line_tokens (stack : nat)
        (text : string) (cfg : WrappedCommandConfig) (signals : list Signal)
        (request : ChatStreamRequest) (output : string) (w : World) :
  awaited (runWrappedCommandPrompt stack cfg
             (out_text (req_message request)
              ++ summarizeAttachments (out_attachments (req_message request)))
             signals) = Returned output ->
  let lines := filter nonempty (split_lines (trim text)) in
  (List.length (chunkText text) = List.length lines
   /\ (lines <> [] ->
       chunkText text
       = map (fun line => (line ++ str1 LF)%string) (removelast lines) ++ [last lines ""])
   /\ (List.length lines = 1 -> chunkText text = [trim text]))
  /\ exists id t0 t1,
      emitted (runWrappedCommandStream stack cfg signals request w)
      = [message_start id (req_threadId request) t0; typing true]
        ++ map (fun line => token (line ++ str1 LF)%string)
               (filter nonempty (split_lines output))
        ++ [typing false; message_end id output received t1].
Proof.
  intros Hout lines. split.
  - rewrite chunkText_lines. fold lines. split; [|split].
    + apply newline_all_but_last_length.
    + apply newline_all_but_last_spec.
    + intros H1.
      assert (Hne : trim text <> "").
      { intros E. unfold lines in H1. rewrite E in H1. discriminate. }
      assert (Hl : lines = [trim text]) by (apply single_line; [exact Hne | fold lines; lia]).
      now rewrite Hl.
  - exists (id_supply w (id_calls w)), (clock w (clock_calls w)),
           (clock w (S (clock_calls w))).
    unfold runWrappedCommandStream, Gen.bind, randomId, nowISO, yield, await.
    simpl. rewrite Hout. simpl.
    destruct (nonempty output) eqn:Hne.
    + rewrite for_each_emit. simpl. reflexivity.
    + unfold ret. simpl.
      destruct output; [reflexivity | discriminate].
Qed.

Lemma line_tokens_witness :
  chunkText (String " " ("a" ++ String LF (String LF ("b" ++ str1 LF))))
  = [String "a" (str1 LF); "b"]
  /\ exists id t0 t1,
      emitted (runWrappedCommandStream Latch.sample_stack Latch.sample_wrapped
                 [StdoutData ("a" ++ String LF (String LF ("b" ++ str1 LF)));
                  ChildClose None]
                 wrapped_request FailureMessage.sample_world)
      = [message_start id "thread-1" t0; typing true]
        ++ [token (String "a" (str1 LF)); token (String "b" (str1 LF))]
        ++ [typing false;
            message_end id (String "a" (String LF (String LF "b"))) received t1].
Proof.
  pose proof (line_tokens Latch.sample_stack
                (String " " ("a" ++ String LF (String LF ("b" ++ str1 LF))))
                Latch.sample_wrapped
                [StdoutData ("a" ++ String LF (String LF ("b" ++ str1 LF))); ChildClose None]
                wrapped_request (String "a" (String LF (String LF "b")))
                FailureMessage.sample_world eq_refl) as ((_ & H & _) & H').
  exact (conj (H ltac:(discriminate)) H').
Defined.

End Chunking.

(** ** Text extraction from a parsed value *)

Module Extraction.
Import ProviderSdk.

Lemma depth_of_item (items : list JSON) (item : JSON) :
  In item items ->
  json_depth item <= fold_right (fun x acc => Nat.max (json_depth x) acc) 0 items.
Proof.
  induction items as [|x tl IH]; simpl; [contradiction|].
  intros [->|H]; [lia|]. specialize (IH H). lia.
Qed.

Lemma depth_of_property (props : list (string * JSON)) (key : string) (v : JSON) :
  In (key, v) props ->
  json_depth v <= fold_right (fun kv acc => Nat.max (json_depth (snd kv)) acc) 0 props.
Proof.
  induction props as [|x tl IH]; simpl; [contradiction|].
  intros [->|H]; [simpl; lia|]. specialize (IH H). lia.
Qed.

Lemma recursive_call_decreases (v w : JSON) :
  recursive_call v w -> json_depth w < json_depth v.
Proof.
  intros [items item H | props key x H]; simpl.
  - apply depth_of_item in H. lia.
  - apply depth_of_property in H. lia.
Qed.

Lemma obj_get_in (props : list (string * JSON)) (key : string) (v : JSON) :
  obj_get props key = Some v -> exists k, In (k, v) props.
Proof.
  induction props as [|[k x] tl IH]; simpl; [discriminate|].
  destruct (String.eqb k key).
  - intros H; injection H as ->. eauto.
  - intros H. destruct (IH H) as (k' & Hk'). eauto.
Qed.

Lemma all_some_map {A B} (f : A -> option B) (g : A -> B) (l : list A) :
  (forall x, In x l -> f x = Some (g x)) ->
  all_some (map f l) = Some (map g l).
Proof.
  induction l as [|x tl IH]; intros H; [reflexivity|].
  change (all_some (map f (x :: tl)))
    with (match f x, all_some (map f tl) with
          | Some a, Some r => Some (a :: r)
          | _, _ => None
          end).
  rewrite (H x (or_introl eq_refl)), IH; [reflexivity|].
  intros y Hy. apply H. now right.
Qed.

(** The text found for [obj[key]]. *)
Definition text_of (f : JSON -> string) (o : option JSON) : string :=
  match o with Some v => f v | None => "" end.

Lemma text_at_get (f : JSON -> string) (props : list (string * JSON)) (key : string) :
  text_at (map (fun kv => (fst kv, f (snd kv))) props) key = text_of f (obj_get props key).
Proof.
  induction props as [|[k x] tl IH]; [reflexivity|].
  simpl. destruct (String.eqb k key); [reflexivity | exact IH].
Qed.

Lemma first_truthy_call_spec (call : option JSON -> option string) (f : JSON -> string)
      (props : list (string * JSON)) (keys : list string) :
  (forall key, call (obj_get props key) = Some (text_of f (obj_get props key))) ->
  first_truthy_call call props keys
  = Some (first_truthy (map (text_at (map (fun kv => (fst kv, f (snd kv))) props)) keys)).
Proof.
  intros H. induction keys as [|key tl IH]; [reflexivity|].
  simpl. rewrite H, text_at_get.
  unfold first_truthy in *. simpl.
  destruct (truthy (text_of f (obj_get props key))); [reflexivity | exact IH].
Qed.

(** The call returns when the stack has room for one call more than
    the value is deep, and returns the extracted text. *)
Lemma extraction_returns (stack : nat) : forall v,
  json_depth v < stack ->
  extractTextFromUnknown stack (Some v) = Some (extracted_text v).
Proof.
  induction stack as [|d IH]; intros v Hd; [lia|].
  destruct v as [| b | m e | s | items | props]; try reflexivity.
  - simpl in Hd. simpl.
    rewrite (all_some_map _ extracted_text).
    + reflexivity.
    + intros x Hx. apply IH. apply depth_of_item in Hx. lia.
  - simpl in Hd. cbn [extractTextFromUnknown extracted_text].
    assert (Hkey : forall key,
               extractTextFromUnknown d (obj_get props key)
               = Some (text_of extracted_text (obj_get props key))).
    { intros key. destruct (obj_get props key) as [x|] eqn:E.
      - destruct (obj_get_in _ _ _ E) as (k & Hk).
        apply IH. apply depth_of_property in Hk. lia.
      - destruct d; [lia | reflexivity]. }
    rewrite (first_truthy_call_spec _ extracted_text _ _ Hkey).
    destruct (first_truthy _) as [t|]; [reflexivity|].
    rewrite (all_some_map _ (fun kv => extracted_text (snd kv))).
    + now rewrite map_map.
    + intros [k x] Hx. apply IH. apply depth_of_property in Hx. simpl. lia.
Qed.

Lemma find_nonempty_truthy (l : list string) : find nonempty l = first_truthy l.
Proof.
  unfold first_truthy. induction l as [|x tl IH]; [reflexivity|].
  simpl. rewrite truthy_nonempty, IH. reflexivity.
Qed.

(** An induction principle that reaches the values inside arrays and
    objects. *)
Lemma JSON_nested_ind (P : JSON -> Prop) :
  P JNull -> (forall b, P (JBool b)) -> (forall m e, P (JNumber m e)) ->
  (forall s, P (JString s)) ->
  (forall items, Forall P items -> P (JArray items)) ->
  (forall props, Forall (fun kv => P (snd kv)) props -> P (JObject props)) ->
  forall v, P v.
Proof.
  intros Hnull Hbool Hnum Hstr Harr Hobj.
  fix self 1. intros [| b | m e | s | items | props].
  - exact Hnull.
  - apply Hbool.
  - apply Hnum.
  - apply Hstr.
  - apply Harr. induction items as [|x tl IH]; constructor; [apply self | exact IH].
  - apply Hobj. induction props as [|x tl IH]; constructor; [apply self | exact IH].
Qed.

Lemma first_truthy_value_spec (call : option JSON -> option string) (f : JSON -> string)
      (values : list JSON) :
  (forall v, In v values -> call (Some v) = Some (f v)) ->
  AgentServer.first_truthy_value call values = Some (first_truthy (map f values)).
Proof.
  induction values as [|v tl IH]; intros H; [reflexivity|].
  cbn [AgentServer.first_truthy_value map]. rewrite (H v (or_introl eq_refl)).
  unfold first_truthy in *. cbn [find].
  destruct (truthy (f v)); [reflexivity|].
  apply IH. intros x Hx. apply H. now right.
Qed.

(** The server's copy returns the same text when the stack has room. *)
Lemma server_extraction_returns (stack : nat) : forall v,
  json_depth v < stack ->
  AgentServer.extractTextFromUnknown stack (Some v) = Some (extracted_text v).
Proof.
  induction stack as [|d IH]; intros v Hd; [lia|].
  destruct v as [| b | m e | s | items | props]; try reflexivity.
  - simpl in Hd. simpl.
    rewrite (all_some_map _ extracted_text).
    + reflexivity.
    + intros x Hx. apply IH. apply depth_of_item in Hx. lia.
  - simpl in Hd. cbn [AgentServer.extractTextFromUnknown extracted_text].
    assert (Hkey : forall key,
               AgentServer.extractTextFromUnknown d (obj_get props key)
               = Some (text_of extracted_text (obj_get props key))).
    { intros key. destruct (obj_get props key) as [x|] eqn:E.
      - destruct (obj_get_in _ _ _ E) as (k & Hk).
        apply IH. apply depth_of_property in Hk. lia.
      - destruct d; [lia | reflexivity]. }
    rewrite (first_truthy_call_spec _ extracted_text _ _ Hkey).
    destruct (first_truthy _) as [t|]; [reflexivity|].
    rewrite (first_truthy_value_spec _ extracted_text).
    + rewrite find_nonempty_truthy, !map_map. cbn [snd].
      now destruct (first_truthy _).
    + intros x Hx. apply in_map_iff in Hx as ([k y] & <- & Hy).
      apply IH. apply depth_of_property in Hy. simpl. lia.
Qed.

(** Arrays nested [n] deep around a string: the value of the JSON text
    made of [n] opening brackets, a string and [n] closing brackets. *)
Fixpoint nested (n : nat) (inner : JSON) : JSON :=
  match n with
  | O => inner
  | S k => JArray [nested k inner]
  end.

Fixpoint brackets (c : ascii) (n : nat) : string :=
  match n with
  | O => ""
  | S k => String c (brackets c k)
  end.

Definition nested_text (n : nat) (inner : string) : string :=
  (brackets "[" n ++ inner ++ brackets "]" n)%string.

Lemma nested_overflows (stack : nat) (inner : JSON) :
  extractTextFromUnknown stack (Some (nested stack inner)) = None
  /\ AgentServer.extractTextFromUnknown stack (Some (nested stack inner)) = None.
Proof.
  induction stack as [|d [IH1 IH2]]; [split; reflexivity|].
  cbn [nested extractTextFromUnknown AgentServer.extractTextFromUnknown map all_some
       fold_right].
  now rewrite IH1, IH2.
Qed.

End Extraction.

(** ** The output normalizer *)

Module Normalizer.
Import ProviderSdk Extraction.

(** What remains when no text was extracted. *)
Definition fallback (stdout stderr : string) : string :=
  if nonempty (trim stdout) then trim stdout else trim stderr.

(** The lines of [stdout] the newline-delimited reading looks at. *)
Definition json_lines (stdout : string) : list string :=
  filter truthy (map trim (split_lines (trim stdout))).

(** The result of reading [stdout] line by line. *)
Definition by_lines (stack : nat) (stdout stderr : string) : string :=
  match flat_map (extracted_part stack) (json_lines stdout) with
  | [] => fallback stdout stderr
  | parts => join (str1 LF) parts
  end.











End Normalizer.

(** ** What [JSON.stringify] writes *)

Module JsonFacts.
Import Extraction.

(** Not a control character: in particular neither CR nor LF. *)
Definition printable (c : ascii) : bool := N.leb 32 (N_of_ascii c).

Lemma string_forall_append (P : ascii -> bool) (a b : string) :
  string_forall P (a ++ b) = string_forall P a && string_forall P b.
Proof.
  induction a as [|c a IH]; simpl; [reflexivity|].
  now rewrite IH, andb_assoc.
Qed.

Lemma string_forall_weaken (P Q : ascii -> bool) (s : string) :
  (forall c, P c = true -> Q c = true) ->
  string_forall P s = true -> string_forall Q s = true.
Proof.
  intros H. induction s as [|c s IH]; simpl; [reflexivity|].
  intros E. apply andb_true_iff in E as [Ec Es].
  now rewrite (H c Ec), IH.
Qed.

Lemma quote_char_printable (c : ascii) : string_forall printable (quote_char c) = true.
Proof. destruct c as [[] [] [] [] [] [] [] []]; reflexivity. Qed.

Lemma quote_printable (s : string) : string_forall printable (quote s) = true.
Proof.
  unfold quote. cbn [string_forall]. rewrite string_forall_append.
  assert (H : string_forall printable (quote_chars s) = true).
  { induction s as [|c s IH]; simpl; [reflexivity|].
    now rewrite string_forall_append, quote_char_printable, IH. }
  now rewrite H.
Qed.

Lemma uint_printable (d : Decimal.uint) :
  string_forall printable (NilEmpty.string_of_uint d) = true.
Proof. induction d; simpl; try reflexivity; exact IHd. Qed.

Lemma dec_of_Z_printable (z : Z) : string_forall printable (dec_of_Z z) = true.
Proof.
  unfold dec_of_Z, dec_of_N. destruct (Z.ltb z 0); simpl; apply uint_printable.
Qed.

Lemma number_text_printable (m e : Z) : string_forall printable (number_text m e) = true.
Proof.
  unfold number_text. destruct (Z.eqb e 0); [apply dec_of_Z_printable|].
  rewrite string_forall_append. cbn [string_forall].
  now rewrite !dec_of_Z_printable.
Qed.

Lemma join_printable (l : list string) :
  Forall (fun s => string_forall printable s = true) l ->
  string_forall printable (join "," l) = true.
Proof.
  unfold join. induction 1 as [|x tl Hx Htl IH]; [reflexivity|].
  simpl. destruct tl as [|y tl']; [exact Hx|].
  rewrite string_forall_append, Hx. cbn [string_forall andb].
  exact IH.
Qed.

Lemma stringify_printable (v : JSON) : string_forall printable (stringify v) = true.
Proof.
  induction v as [| b | m e | s | items IH | props IH] using JSON_nested_ind.
  - reflexivity.
  - destruct b; reflexivity.
  - apply number_text_printable.
  - apply quote_printable.
  - cbn [stringify]. cbn [append string_forall]. rewrite string_forall_append.
    rewrite join_printable; [reflexivity|].
    apply Forall_map. exact IH.
  - cbn [stringify]. cbn [append string_forall]. rewrite string_forall_append.
    rewrite join_printable; [reflexivity|].
    apply Forall_map. eapply Forall_impl; [|exact IH].
    intros [k x] Hx. cbn [fst snd] in *.
    rewrite string_forall_append, quote_printable. cbn [string_forall append andb].
    exact Hx.
Qed.

Lemma printable_free_of_LF (s : string) :
  string_forall printable s = true -> free_of LF s = true.
Proof.
  apply string_forall_weaken.
  intros c. destruct c as [[] [] [] [] [] [] [] []]; try reflexivity; discriminate.
Qed.

Lemma printable_free_of_CR (s : string) :
  string_forall printable s = true -> free_of CR s = true.
Proof.
  apply string_forall_weaken.
  intros c. destruct c as [[] [] [] [] [] [] [] []]; try reflexivity; discriminate.
Qed.

(** An event is written as one object: an opening brace, a body, a
    closing brace. *)
Lemma stringify_event_braces (e : StreamEvent) :
  exists body, stringify_event e = String "{" (body ++ "}").
Proof. destruct e; eexists; reflexivity. Qed.

Lemma split_newlines_acc_single (s : string) : forall cur,
  free_of LF s = true -> free_of CR s = true ->
  split_newlines_acc cur s = [(rev cur ++ s)%string].
Proof.
  unfold free_of. induction s as [|c r IH]; intros cur Hl Hc; simpl.
  - now rewrite append_nil_r.
  - simpl in Hl, Hc.
    apply andb_true_iff in Hl as [Hl Hl']. apply andb_true_iff in Hc as [Hc Hc'].
    apply negb_true_iff in Hl. apply negb_true_iff in Hc.
    rewrite Hl, Hc. rewrite IH by assumption.
    simpl. now rewrite append_assoc.
Qed.

(** A payload with no line break in it takes one [data:] line. *)
Lemma writeSSE_one_line (data : string) :
  string_forall printable data = true ->
  AgentServer.writeSSE data = ("data: " ++ data ++ String LF (str1 LF))%string.
Proof.
  intros H. unfold AgentServer.writeSSE, split_newlines.
  rewrite split_newlines_acc_single
    by (apply printable_free_of_LF || apply printable_free_of_CR; exact H).
  reflexivity.
Qed.

Lemma writeSSE_event (e : StreamEvent) :
  AgentServer.writeSSE (stringify_event e)
  = ("data: " ++ stringify_event e ++ String LF (str1 LF))%string.
Proof. apply writeSSE_one_line, stringify_printable. Qed.

End JsonFacts.

(** ** The streaming endpoint *)

Module Endpoint.
Import AgentServer JsonFacts.

(** The frame of one event and the end-of-stream marker, as they go on
    the wire. *)
Definition frame (e : StreamEvent) : string :=
  ("data: " ++ stringify_event e ++ String LF (str1 LF))%string.

Definition done_frame : string := ("data: [DONE]" ++ String LF (str1 LF))%string.

Lemma frame_is_not_done (e : StreamEvent) : String.eqb (frame e) done_frame = false.
Proof.
  unfold frame. destruct (stringify_event_braces e) as (body & ->). reflexivity.
Qed.

Lemma done_not_among_frames (events : list StreamEvent) :
  existsb (fun f => String.eqb f done_frame) (map frame events) = false.
Proof.
  induction events as [|e tl IH]; [reflexivity|].
  cbn [map existsb]. now rewrite frame_is_not_done, IH.
Qed.

Lemma writeSSE_frame (e : StreamEvent) : writeSSE (stringify_event e) = frame e.
Proof. apply writeSSE_event. Qed.

Lemma writes_are_frames (events : list StreamEvent) :
  map (fun event => writeSSE (stringify_event event)) events = map frame events.
Proof. apply map_ext. intros e. apply writeSSE_frame. Qed.

(** C4.  What the streaming endpoint writes.  Every event the producer
    yields is written as one frame, none of which is the [DONE]
    marker.  When the producer completes, the literal frame
    [data: [DONE]] follows the event frames, last.  When the producer
    fails, one frame follows them instead: the error event with code
    "provider_error", retryable false and, as its message, the text of
    the failure (the message of the Error thrown; "Unknown provider
    error" for a thrown value that is not an Error); the [DONE] marker
    is nowhere in what was written. *)
Theorem stream_ends_with_done_or_error (run : Run unit) :
  let frames := map frame (emitted run) in
  existsb (fun f => String.eqb f done_frame) frames = false
  /\ (forall u, result run = Returned u ->
        chat_stream_writes run = frames ++ [done_frame])
  /\ (forall m, result run = Threw (ErrorObject m) ->
        chat_stream_writes run = frames ++ [frame (error "provider_error" m false)]
        /\ existsb (fun f => String.eqb f done_frame) (chat_stream_writes run) = false)
  /\ (forall v, result run = Threw (ThrownValue v) ->
        chat_stream_writes run
        = frames ++ [frame (error "provider_error" "Unknown provider error" false)]
        /\ existsb (fun f => String.eqb f done_frame) (chat_stream_writes run) = false).
Proof.
  intros frames. unfold chat_stream_writes. rewrite writes_are_frames. fold frames.
  split; [apply done_not_among_frames|].
  split; [|split].
  - intros u ->. reflexivity.
  - intros m ->. unfold provider_error. cbn [message_or]. rewrite writeSSE_frame.
    split; [reflexivity|].
    rewrite existsb_app. unfold frames. rewrite done_not_among_frames.
    cbn [existsb]. now rewrite frame_is_not_done.
  - intros v ->. unfold provider_error. cbn [message_or]. rewrite writeSSE_frame.
    split; [reflexivity|].
    rewrite existsb_app. unfold frames. rewrite done_not_among_frames.
    cbn [existsb]. now rewrite frame_is_not_done.
Qed.

End Endpoint.

(** ** Decoding one SSE payload *)

Module PayloadDecoding.
Import RemoteProvider Client.

(** C3, as the claim states it, fails in both decoders.  In the remote
    adapter's [parseSseEvents] a payload that is valid JSON, is not an
    event and has no string [text] or [token] yields no event at all.
    In the client's [chatStream] a payload that is valid JSON, is not
    an event and has a string [text] is sent on whole, as raw text, not
    as that string. *)
Lemma payload_dropped_or_sent_raw :
  payload_events (fun _ => true) (dq "{'foo':1}") = []
  /\ data_events (fun _ => true) (dq "{'text':'hi'}") = [token (dq "{'text':'hi'}")]
  /\ payload_events (fun _ => true) (dq "{'text':'hi'}") = [token "hi"].
Proof. vm_compute. repeat split. Qed.

(** C3, amended.  For a payload that is neither empty nor [DONE]:
    both decoders pass on an event that parses and validates, and both
    send a payload that is not JSON as a token holding the payload.
    For a payload that is JSON but not an event, [parseSseEvents] sends
    a token holding its string [text] property, or else its string
    [token] property, and nothing when it has neither; the client's
    [chatStream] sends a token holding the payload itself.  The
    client's decoder yields exactly one event for every such
    payload. *)
Theorem payload_decoding (is_datetime : string -> bool) (payload : string) :
  payload <> "" -> payload <> "[DONE]" ->
  (forall json ev,
      Json.parse payload = Some json ->
      StreamEventSchema_parse is_datetime json = Some ev ->
      payload_events is_datetime payload = [ev]
      /\ data_events is_datetime payload = [ev])
  /\ (forall json text,
         Json.parse payload = Some json ->
         StreamEventSchema_parse is_datetime json = None ->
         string_property json "text" = Some text ->
         payload_events is_datetime payload = [token text])
  /\ (forall json text,
         Json.parse payload = Some json ->
         StreamEventSchema_parse is_datetime json = None ->
         string_property json "text" = None ->
         string_property json "token" = Some text ->
         payload_events is_datetime payload = [token text])
  /\ (forall json,
         Json.parse payload = Some json ->
         StreamEventSchema_parse is_datetime json = None ->
         string_property json "text" = None ->
         string_property json "token" = None ->
         payload_events is_datetime payload = [])
  /\ (forall json,
         Json.parse payload = Some json ->
         StreamEventSchema_parse is_datetime json = None ->
         data_events is_datetime payload = [token payload])
  /\ (Json.parse payload = None ->
      payload_events is_datetime payload = [token payload]
      /\ data_events is_datetime payload = [token payload])
  /\ List.length (data_events is_datetime payload) = 1.
Proof.
  intros Hne Hdone.
  assert (Ed : String.eqb payload "[DONE]" = false) by (now apply String.eqb_neq).
  assert (Ee : is_empty payload = false) by (destruct payload; [contradiction | reflexivity]).
  unfold payload_events, data_events. rewrite Ed, Ee. cbn [orb].
  split; [|split; [|split; [|split; [|split; [|split]]]]].
  - intros json ev -> ->. split; reflexivity.
  - intros json text -> -> ->. reflexivity.
  - intros json text -> -> -> ->. reflexivity.
  - intros json -> -> -> ->. reflexivity.
  - intros json -> ->. reflexivity.
  - intros ->. split; reflexivity.
  - destruct (Json.parse payload) as [json|]; [|reflexivity].
    destruct (StreamEventSchema_parse is_datetime json); reflexivity.
Qed.

Lemma payload_decoding_witness :
  payload_events (fun _ => true) (dq "{'token':'hi'}") = [token "hi"]
  /\ data_events (fun _ => true) (dq "{'token':'hi'}") = [token (dq "{'token':'hi'}")]
  /\ payload_events (fun _ => true) (dq "{'type':'typing','isTyping':true}") = [typing true].
Proof.
  destruct (payload_decoding (fun _ => true) (dq "{'token':'hi'}")
              ltac:(discriminate) ltac:(discriminate)) as (_ & _ & H3 & _ & H4 & _).
  destruct (payload_decoding (fun _ => true) (dq "{'type':'typing','isTyping':true}")
              ltac:(discriminate) ltac:(discriminate)) as (H1 & _).
  exact (conj (H3 (JObject [("token", JString "hi")]) "hi" eq_refl eq_refl eq_refl eq_refl)
          (conj (H4 (JObject [("token", JString "hi")]) eq_refl eq_refl)
                (proj1 (H1 (JObject [("type", JString "typing"); ("isTyping", JBool true)])
                           (typing true) eq_refl eq_refl)))).
Defined.

End PayloadDecoding.

(** ** The shape of one turn *)

Module TurnShape.
Import ProviderSdk AgentServer Latch GenFacts.

Definition is_middle (e : StreamEvent) : bool :=
  match e with
  | token _ | attachment _ | typing _ => true
  | _ => false
  end.

(** One [message_start] first; then only token, attachment and typing
    events; then one [message_end] carrying the identifier of the
    start, or one [error]. *)
Definition well_formed_turn (events : list StreamEvent) : bool :=
  match events with
  | message_start id _ _ :: rest =>
      match List.rev rest with
      | message_end id' _ _ _ :: middle => String.eqb id id' && forallb is_middle middle
      | error _ _ _ :: middle => forallb is_middle middle
      | _ => false
      end
  | _ => false
  end.

Arguments well_formed_turn : simpl never.

Lemma forallb_rev {A} (f : A -> bool) (l : list A) :
  forallb f (List.rev l) = forallb f l.
Proof.
  induction l as [|x tl IH]; [reflexivity|].
  simpl. rewrite forallb_app, IH. simpl. rewrite andb_true_r. apply andb_comm.
Qed.

Lemma turn_with_end (id tid t0 text t1 : string) (st : MessageStatus)
      (middle : list StreamEvent) :
  forallb is_middle middle = true ->
  well_formed_turn (message_start id tid t0 :: middle ++ [message_end id text st t1]) = true.
Proof.
  intros H. unfold well_formed_turn. rewrite rev_app_distr. cbn [List.rev app].
  now rewrite String.eqb_refl, forallb_rev, H.
Qed.

Lemma turn_with_error (id tid t0 code msg : string) (r : bool) (middle : list StreamEvent) :
  forallb is_middle middle = true ->
  well_formed_turn (message_start id tid t0 :: middle ++ [error code msg r]) = true.
Proof.
  intros H. unfold well_formed_turn. rewrite rev_app_distr. cbn [List.rev app].
  now rewrite forallb_rev, H.
Qed.

Lemma tokens_are_middle {A} (f : A -> string) (l : list A) :
  forallb is_middle (map (fun x => token (f x)) l) = true.
Proof. induction l as [|x tl IH]; [reflexivity | exact IH]. Qed.

(** The turn both CLI paths produce on success. *)
Lemma framed_turn (id tid t0 text t1 : string) (tokens : list StreamEvent) :
  forallb is_middle tokens = true ->
  well_formed_turn (message_start id tid t0 :: typing true
                    :: tokens ++ [typing false; message_end id text received t1]) = true.
Proof.
  intros H.
  change (well_formed_turn
            (message_start id tid t0
             :: (typing true :: tokens ++ [typing false; message_end id text received t1]))
          = true).
  replace (typing true :: tokens ++ [typing false; message_end id text received t1])
    with ((typing true :: tokens ++ [typing false]) ++ [message_end id text received t1])
    by (simpl; now rewrite <- app_assoc).
  apply turn_with_end. simpl. rewrite forallb_app, H. reflexivity.
Qed.

Lemma first_terminal (signals : list Signal) :
  existsb terminal signals = true ->
  exists before first later,
    signals = before ++ first :: later /\
    existsb terminal before = false /\ terminal first = true.
Proof.
  induction signals as [|sig tl IH]; [discriminate|].
  simpl. destruct (terminal sig) eqn:E.
  - intros _. exists [], sig, tl. auto.
  - intros H. destruct (IH H) as (before & first & later & -> & Hb & Hf).
    exists (sig :: before), first, later. simpl. rewrite E. auto.
Qed.

Lemma settled_is_not_pending {A} (p : Proc A) (x : Settlement A) :
  settle_calls p = [x] ->
  awaited p = match x with Resolve a => Returned a | Reject t => Threw t end.
Proof. unfold awaited, promise_state. now intros ->. Qed.

Definition is_token_or_typing (e : StreamEvent) : bool :=
  match e with
  | token _ | typing _ => true
  | _ => false
  end.

(** The events between the first and the last. *)
Definition middle (events : list StreamEvent) : list StreamEvent :=
  removelast (tl events).

Lemma middle_of (first last : StreamEvent) (mid : list StreamEvent) :
  middle (first :: mid ++ [last]) = mid.
Proof. unfold middle. cbn [tl]. apply removelast_last. Qed.

Lemma token_or_typing_is_middle (events : list StreamEvent) :
  forallb is_token_or_typing events = true -> forallb is_middle events = true.
Proof.
  induction events as [|e tl IH]; [reflexivity|]. cbn [forallb]. intros H.
  apply andb_true_iff in H as [He Htl]. rewrite (IH Htl).
  destruct e; try discriminate He; reflexivity.
Qed.

Lemma tokens_are_tokens {A} (f : A -> string) (l : list A) :
  forallb is_token_or_typing (map (fun x => token (f x)) l) = true.
Proof. induction l as [|x tl IH]; [reflexivity | exact IH]. Qed.

(** The turn both CLI paths produce on success, with nothing but
    tokens and typing events between the first and the last. *)
Lemma framed_token_turn (id tid t0 text t1 : string) (tokens : list StreamEvent) :
  forallb is_token_or_typing tokens = true ->
  let events := message_start id tid t0 :: typing true
                :: tokens ++ [typing false; message_end id text received t1] in
  well_formed_turn events = true /\ forallb is_token_or_typing (middle events) = true.
Proof.
  intros H events. split.
  - apply framed_turn, token_or_typing_is_middle, H.
  - unfold events.
    replace (typing true :: tokens ++ [typing false; message_end id text received t1])
      with ((typing true :: tokens ++ [typing false]) ++ [message_end id text received t1])
      by (simpl; now rewrite <- app_assoc).
    rewrite middle_of. cbn [forallb is_token_or_typing]. rewrite forallb_app, H. reflexivity.
Qed.

(** The CLI-wrapped adapter, read through the endpoint, whatever the
    command does.  Once the timer or the child has delivered a
    terminal signal the turn is one [message_start], then token and
    typing events only, then one [message_end] with the identifier of
    the start or one [error].  When no terminal signal is delivered
    (the command has not ended yet, or an error of the child's stdin
    has ended the process first) the turn stops after
    [message_start] and the typing event, and nothing ends it. *)
Lemma cli_adapter_turn (stack : nat) (self : CliWrappedProviderAdapter)
      (events : list ProcessEvent) (input : ProviderSendInput) (w : World) :
  let run := sendMessageStream stack self (delivered events) input w in
  (existsb terminal (delivered events) = true ->
   well_formed_turn (chat_stream_events run) = true
   /\ forallb is_token_or_typing (middle (chat_stream_events run)) = true)
  /\ (forall cmd,
         resolveCommand self input = inr cmd ->
         existsb terminal (delivered events) = false ->
         chat_stream_events run
         = [message_start (id_supply w (id_calls w)) (threadId input)
                          (clock w (clock_calls w));
            typing true]
         /\ result run = Pending).
Proof.
  intros run. unfold run. split.
  - intros H.
    destruct (first_terminal (delivered events) H)
      as (before & first & later & -> & Hb & Hf).
    unfold sendMessageStream.
    destruct (resolveCommand self input) as [err|cmd].
    + split; reflexivity.
    + destruct (runCliCommand_settled_by_first cmd before later first Hb Hf) as (Hs & _).
      rewrite (settled_is_not_pending _ _ Hs).
      destruct (cli_settlement cmd before first) as [r|t]; [|split; reflexivity].
      unfold chat_stream_events, Gen.bind, randomId, nowISO, yield, await, throw_error, throw.
      cbn [emitted result world app].
      destruct (negb (Z.eqb (exitCode r) 0)); cbn [emitted result world app];
        [split; reflexivity|].
      rewrite for_each_emit. cbn [emitted result world app]. rewrite app_nil_r.
      apply framed_token_turn, tokens_are_tokens.
  - intros cmd Hcmd H.
    destruct (runCliCommand_quiet cmd (delivered events) H) as (_ & Hs & _).
    unfold sendMessageStream. rewrite Hcmd.
    unfold awaited, promise_state. rewrite Hs.
    split; reflexivity.
Qed.

(** The server's wrapped-command stream, read through the endpoint.
    Once the timer or the child has delivered a terminal signal the
    turn is one [message_start], then token and typing events only,
    then one [message_end] with the identifier of the start or one
    [error].  When no terminal signal is delivered (the command has
    not ended yet, or an error of the child's stdin has ended the
    process first) the turn stops after [message_start] and the
    typing event, and nothing ends it. *)
Lemma wrapped_stream_turn (stack : nat) (cfg : WrappedCommandConfig)
      (events : list ProcessEvent) (request : ChatStreamRequest) (w : World) :
  let run := runWrappedCommandStream stack cfg (delivered events) request w in
  (existsb terminal (delivered events) = true ->
   well_formed_turn (chat_stream_events run) = true
   /\ forallb is_token_or_typing (middle (chat_stream_events run)) = true)
  /\ (existsb terminal (delivered events) = false ->
      chat_stream_events run
      = [message_start (id_supply w (id_calls w)) (req_threadId request)
                       (clock w (clock_calls w));
         typing true]
      /\ result run = Pending).
Proof.
  intros run. unfold run. split.
  - intros H.
    destruct (first_terminal (delivered events) H)
      as (before & first & later & -> & Hb & Hf).
    unfold runWrappedCommandStream.
    destruct (runWrappedCommandPrompt_settled_by_first stack cfg
                (out_text (req_message request)
                 ++ summarizeAttachments (out_attachments (req_message request)))
                before later first Hb Hf) as (Hs & _).
    rewrite (settled_is_not_pending _ _ Hs).
    destruct (wrapped_settlement stack cfg before first) as [output|t];
      [|split; reflexivity].
    unfold chat_stream_events, Gen.bind, randomId, nowISO, yield, await, ret.
    cbn [emitted result world app].
    destruct (nonempty output); cbn [emitted result world app].
    + rewrite for_each_emit. cbn [emitted result world app]. rewrite app_nil_r.
      apply framed_token_turn, tokens_are_tokens.
    + apply (framed_token_turn _ _ _ _ _ []). reflexivity.
  - intros H.
    destruct (runWrappedCommandPrompt_quiet stack cfg
                (out_text (req_message request)
                 ++ summarizeAttachments (out_attachments (req_message request)))
                (delivered events) H) as (_ & Hs & _).
    unfold runWrappedCommandStream, awaited, promise_state. rewrite Hs.
    split; reflexivity.
Qed.

(** The text of a JSON answer: its string [text], else its string
    [message], else its string [output], else nothing. *)
Definition envelope_text (body : JSON) : string :=
  match RemoteProvider.string_property body "text" with
  | Some t => t
  | None =>
      match RemoteProvider.string_property body "message" with
      | Some t => t
      | None =>
          match RemoteProvider.string_property body "output" with
          | Some t => t
          | None => ""
          end
      end
  end.

(** The remote adapters' synthesized envelope.  For an answer that is
    not an event stream and holds JSON, [streamRemoteProvider] yields
    [message_start], one token that holds the text of the answer when
    that text is not empty and no token otherwise, and [message_end]
    with the identifier and the time stamp of [message_start] and the
    same text; then it returns.  The turn is well formed. *)
Lemma remote_envelope_turn (is_datetime : string -> bool) (response : Response)
      (body : JSON) (tid : string) (w : World) :
  ok response = true ->
  includes (contentType response) "text/event-stream" = false ->
  Json.parse (response_text response) = Some body ->
  let run := RemoteProvider.streamRemoteProvider is_datetime (inr response) tid w in
  let id := id_supply w (id_calls w) in
  let now := clock w (clock_calls w) in
  let text := envelope_text body in
  result run = Returned tt
  /\ emitted run
     = message_start id tid now
       :: (if nonempty text then [token text] else [])
       ++ [message_end id text received now]
  /\ well_formed_turn (emitted run) = true.
Proof.
  intros Hok Hct Hbody. unfold RemoteProvider.streamRemoteProvider.
  rewrite Hok, Hct, Hbody. cbn [negb]. fold (envelope_text body).
  unfold Gen.bind, randomId, nowISO, yield, ret. simpl.
  destruct (nonempty (envelope_text body)); simpl.
  - split; [reflexivity|]. split; [reflexivity|].
    match goal with
    | |- well_formed_turn [?s; ?t; ?e] = true =>
        change (well_formed_turn (s :: [t] ++ [e]) = true)
    end.
    apply turn_with_end. reflexivity.
  - split; [reflexivity|]. split; [reflexivity|].
    match goal with
    | |- well_formed_turn [?s; ?e] = true =>
        change (well_formed_turn (s :: [] ++ [e]) = true)
    end.
    apply turn_with_end. reflexivity.
Qed.

(** C1 at the path where the code departs from it: the client's
    fallback for a response that is not an event stream.  The three
    events are there, in order, but [randomId()] is called once for
    [message_start] and once more for [message_end], so the two carry
    the first and the second identifier the platform hands out; the
    turn is well formed exactly when those two happen to be equal. *)
Theorem client_fallback_draws_two_ids (is_datetime : string -> bool) (response : Response)
        (payload : JSON) (tid : string) (w : World) :
  ok response = true ->
  includes (contentType response) "text/event-stream" = false ->
  Json.parse (response_text response) = Some payload ->
  Client.events_array payload = None ->
  let run := Client.chatStream is_datetime tid (inr response) w in
  emitted run
  = [message_start (id_supply w (id_calls w)) tid (clock w (clock_calls w));
     token (Client.fallback_text payload);
     message_end (id_supply w (S (id_calls w))) (Client.fallback_text payload) received
                 (clock w (S (clock_calls w)))]
  /\ result run = Returned tt
  /\ well_formed_turn (emitted run)
     = String.eqb (id_supply w (id_calls w)) (id_supply w (S (id_calls w))).
Proof.
  intros Hok Hct Hp He. unfold Client.chatStream.
  rewrite Hok, Hct, Hp, He. cbn [negb].
  unfold Gen.bind, randomId, nowISO, yield. simpl.
  split; [reflexivity|]. split; [reflexivity|].
  unfold well_formed_turn. simpl. now rewrite andb_true_r.
Qed.

Definition json_response (text : string) : Response :=
  mkResponse true 200 (Some "application/json") (Some [text]).

(** A server answers [{"text":"hi"}] as plain JSON; the platform hands
    out "id-0", then "id-1". *)
Lemma client_fallback_draws_two_ids_witness :
  emitted (Client.chatStream (fun _ => true) "thread-1"
             (inr (json_response (dq "{'text':'hi'}"))) FailureMessage.sample_world)
  = [message_start "id-0" "thread-1" "2026-01-01T00:00:00Z";
     token "hi";
     message_end "id-1" "hi" received "2026-01-01T00:00:01Z"]
  /\ well_formed_turn
       (emitted (Client.chatStream (fun _ => true) "thread-1"
                   (inr (json_response (dq "{'text':'hi'}"))) FailureMessage.sample_world))
     = false.
Proof.
  destruct (client_fallback_draws_two_ids (fun _ => true)
              (json_response (dq "{'text':'hi'}")) (JObject [("text", JString "hi")])
              "thread-1" FailureMessage.sample_world eq_refl eq_refl eq_refl eq_refl)
    as (H1 & _ & H3).
  exact (conj H1 H3).
Defined.

(** The three other paths at concrete inputs: a command that prints
    two lines and exits with 0, a command that exits with 2, and a
    remote endpoint that answers with plain JSON. *)
Lemma cli_adapter_turn_witness :
  well_formed_turn
    (chat_stream_events
       (sendMessageStream sample_stack FailureMessage.terminal_adapter
          [StdoutData ("one" ++ String LF "two"); ChildClose (Some 0%Z)]
          FailureMessage.sample_input FailureMessage.sample_world))
  = true
  /\ forallb is_token_or_typing
       (middle
          (chat_stream_events
             (sendMessageStream sample_stack FailureMessage.terminal_adapter
                [StdoutData ("one" ++ String LF "two"); ChildClose (Some 0%Z)]
                FailureMessage.sample_input FailureMessage.sample_world)))
     = true.
Proof.
  exact (proj1 (cli_adapter_turn sample_stack FailureMessage.terminal_adapter
                  [Handled (StdoutData ("one" ++ String LF "two"));
                   Handled (ChildClose (Some 0%Z))]
                  FailureMessage.sample_input FailureMessage.sample_world)
               eq_refl).
Defined.

(** The child's stdin fails before the command ends: the exit that
    would have followed is never seen. *)
Lemma wrapped_stream_turn_witness :
  well_formed_turn
    (chat_stream_events
       (runWrappedCommandStream sample_stack sample_wrapped
          [StderrData "boom"; ChildClose (Some 2%Z)]
          (mkRequest "thread-1" (mkOutbound "hi" [])) FailureMessage.sample_world))
  = true
  /\ chat_stream_events
       (runWrappedCommandStream sample_stack sample_wrapped
          (delivered [Handled (StdoutData "partial");
                      StdinError (ErrorObject "write EPIPE");
                      Handled (ChildClose (Some 0%Z))])
          (mkRequest "thread-1" (mkOutbound "hi" [])) FailureMessage.sample_world)
     = [message_start "id-0" "thread-1" "2026-01-01T00:00:00Z"; typing true].
Proof.
  exact (conj
           (proj1 (proj1 (wrapped_stream_turn sample_stack sample_wrapped
                            [Handled (StderrData "boom"); Handled (ChildClose (Some 2%Z))]
                            (mkRequest "thread-1" (mkOutbound "hi" []))
                            FailureMessage.sample_world)
                         eq_refl))
           (proj1 (proj2 (wrapped_stream_turn sample_stack sample_wrapped
                            [Handled (StdoutData "partial");
                             StdinError (ErrorObject "write EPIPE");
                             Handled (ChildClose (Some 0%Z))]
                            (mkRequest "thread-1" (mkOutbound "hi" []))
                            FailureMessage.sample_world)
                         eq_refl))).
Defined.

Lemma remote_envelope_turn_witness :
  emitted (RemoteProvider.streamRemoteProvider (fun _ => true)
             (inr (json_response (dq "{'text':'hi'}"))) "thread-1"
             FailureMessage.sample_world)
  = [message_start "id-0" "thread-1" "2026-01-01T00:00:00Z";
     token "hi";
     message_end "id-0" "hi" received "2026-01-01T00:00:00Z"].
Proof.
  exact (proj1 (proj2 (remote_envelope_turn (fun _ => true)
                         (json_response (dq "{'text':'hi'}"))
                         (JObject [("text", JString "hi")]) "thread-1"
                         FailureMessage.sample_world eq_refl eq_refl eq_refl))).
Defined.

End TurnShape.

(** ** Events and the schema *)

Module SchemaFacts.

Section WithSchemas.

Variable is_datetime : string -> bool.

Lemma nonneg_integer_of_N (n : N) : nonneg_integer (Z.of_N n) 0 = Some n.
Proof.
  unfold nonneg_integer.
  assert (H : Z.ltb (Z.of_N n) 0 = false) by (apply Z.ltb_ge; lia).
  rewrite H. cbn [Z.leb Z.compare]. f_equal.
  rewrite Z.pow_0_r, Z.mul_1_r. apply N2Z.id.
Qed.

Lemma AttachmentKind_parse_text (k : AttachmentKind) :
  AttachmentKind_parse (attachment_kind_text k) = Some k.
Proof. destruct k; reflexivity. Qed.

Lemma MessageStatus_parse_text (st : MessageStatus) :
  MessageStatus_parse (status_text st) = Some st.
Proof. destruct st; reflexivity. Qed.

Lemma AttachmentSchema_parse_json (a : Attachment) :
  Attachment_valid a = true ->
  AttachmentSchema_parse (json_of_attachment a) = Some a.
Proof.
  destruct a as [id k name mime size uri data].
  unfold Attachment_valid, json_of_attachment. cbn [att_id att_kind att_name att_mimeType
    att_sizeBytes att_uri att_dataBase64].
  intros H. repeat (apply andb_true_iff in H as [H ?]).
  destruct id as [id|], mime as [mime|], size as [size|], uri as [uri|], data as [data|];
    cbn [some_truthy] in *;
    cbn -[nonneg_integer AttachmentKind_parse attachment_kind_text truthy];
    repeat match goal with
           | E : truthy ?s = true |- context [truthy ?s] => rewrite E
           end;
    rewrite ?nonneg_integer_of_N, ?AttachmentKind_parse_text;
    reflexivity.
Qed.

(** An event that meets the schema's constraints is what the schema
    reads back from its own JSON. *)
Lemma StreamEventSchema_parse_json (e : StreamEvent) :
  StreamEvent_valid is_datetime e = true ->
  StreamEventSchema_parse is_datetime (json_of_event e) = Some e.
Proof.
  destruct e as [mid tid at_ | t | a | b | mid t st at_ | c m r];
    cbn [StreamEvent_valid]; intros H.
  - repeat (apply andb_true_iff in H as [H ?]).
    cbn -[truthy]. unfold z_string1, z_datetime, z_string, bind_opt. cbn -[truthy].
    now rewrite H, H0, H1.
  - reflexivity.
  - cbn -[AttachmentSchema_parse json_of_attachment].
    unfold bind_opt. cbn -[AttachmentSchema_parse json_of_attachment].
    now rewrite AttachmentSchema_parse_json.
  - reflexivity.
  - repeat (apply andb_true_iff in H as [H ?]).
    cbn -[truthy MessageStatus_parse status_text].
    unfold z_string1, z_datetime, z_string, bind_opt.
    cbn -[truthy MessageStatus_parse status_text].
    now rewrite H, H0, MessageStatus_parse_text.
  - repeat (apply andb_true_iff in H as [H ?]).
    cbn -[truthy]. unfold z_string1, z_string, bind_opt. cbn -[truthy].
    now rewrite H, H0.
Qed.

End WithSchemas.

End SchemaFacts.

(** ** [JSON.parse] reads back what [JSON.stringify] writes *)

Module JsonRoundTrip.
Import Extraction JsonFacts.

(** What may follow a value inside a JSON text. *)
Definition terminator (rest : string) : bool :=
  match rest with
  | EmptyString => true
  | String c _ => Ascii.eqb c "," || Ascii.eqb c "]" || Ascii.eqb c "}"
  end.

Fixpoint distinct (keys : list string) : bool :=
  match keys with
  | [] => true
  | k :: tl => negb (existsb (String.eqb k) tl) && distinct tl
  end.

Definition not_index (k : string) : bool :=
  match array_index k with Some _ => false | None => true end.

(** The values [JSON.stringify] is applied to in the sources: integers
    for numbers, objects whose keys are distinct and none of them an
    array index, so that the properties keep the order they were
    written in. *)
Fixpoint canonical (v : JSON) : bool :=
  match v with
  | JNumber _ e => Z.eqb e 0
  | JArray items => forallb canonical items
  | JObject props =>
      distinct (map fst props) && forallb not_index (map fst props)
      && forallb (fun kv => canonical (snd kv)) props
  | _ => true
  end.

Fixpoint size (v : JSON) : nat :=
  match v with
  | JArray items => S (fold_right (fun x acc => S (size x + acc)) 0 items)
  | JObject props => S (fold_right (fun kv acc => S (size (snd kv) + acc)) 0 props)
  | _ => 1
  end.

Definition head_ok (P : ascii -> bool) (s : string) : bool :=
  match s with
  | String c _ => P c
  | EmptyString => false
  end.

(** The first character of a value: not white space, not a closing
    bracket. *)
Definition starts_value (c : ascii) : bool :=
  negb (json_space c) && negb (Ascii.eqb "]" c) && negb (Ascii.eqb "}" c).

Definition is_digit (c : ascii) : bool := in_range 48 57 c.

Lemma head_ok_append (P : ascii -> bool) (s r : string) :
  head_ok P s = true -> head_ok P (s ++ r) = true.
Proof. destruct s; [discriminate | exact (fun H => H)]. Qed.

Lemma skip_ws_head (s : string) :
  head_ok starts_value s = true -> skip_ws s = s.
Proof.
  destruct s as [|c t]; [reflexivity|]. unfold head_ok, starts_value. intros H.
  apply andb_true_iff in H as [H _]. apply andb_true_iff in H as [H _].
  apply negb_true_iff in H. cbn [skip_ws]. now rewrite H.
Qed.

Lemma no_bracket_head (s : string) :
  head_ok starts_value s = true -> has_prefix "]" s = false /\ has_prefix "}" s = false.
Proof.
  destruct s as [|c t]; [discriminate|]. unfold head_ok, starts_value. intros H.
  apply andb_true_iff in H as [H H2]. apply andb_true_iff in H as [_ H1].
  apply negb_true_iff in H1, H2. cbn [has_prefix]. now rewrite H1, H2.
Qed.

(** *** Strings *)

(** One character, as [JSON.stringify] writes it, is read back as that
    character. *)
Lemma parse_string_body_char (c : ascii) (more : string) :
  parse_string_body (quote_char c ++ more)
  = after (parse_string_body more) (str1 c).
Proof. destruct c as [[] [] [] [] [] [] [] []]; reflexivity. Qed.

Lemma parse_string_body_quote (s rest : string) :
  parse_string_body (quote_chars s ++ String DQUOTE rest) = Some (s, rest).
Proof.
  induction s as [|c s IH]; [reflexivity|].
  cbn [quote_chars]. rewrite append_assoc, parse_string_body_char, IH.
  reflexivity.
Qed.

Lemma parse_string_quote (s rest : string) :
  exists t, (quote s ++ rest)%string = String DQUOTE t
            /\ parse_string_body t = Some (s, rest).
Proof.
  exists (quote_chars s ++ String DQUOTE rest)%string. split.
  - unfold quote. cbn [append]. now rewrite append_assoc.
  - apply parse_string_body_quote.
Qed.

(** *** Numbers *)

Lemma read_uint_stop (rest : string) :
  head_ok is_digit rest = false -> read_uint rest = (Decimal.Nil, rest).
Proof.
  destruct rest as [|c r]; [reflexivity|]. cbn [head_ok]. intros H.
  destruct c as [[] [] [] [] [] [] [] []]; try reflexivity; discriminate H.
Qed.

Lemma read_uint_print (d : Decimal.uint) (rest : string) :
  head_ok is_digit rest = false ->
  read_uint (NilEmpty.string_of_uint d ++ rest) = (d, rest).
Proof.
  intros H. induction d; cbn [NilEmpty.string_of_uint append];
    [now apply read_uint_stop | ..];
    cbn [read_uint]; rewrite IHd; reflexivity.
Qed.

Lemma nzhead_not_zero (d : Decimal.uint) :
  match Decimal.nzhead d with Decimal.D0 _ => False | _ => True end.
Proof. induction d; simpl; auto. Qed.

Lemma canonical_unorm (d : Decimal.uint) : canonical_uint (Decimal.unorm d) = true.
Proof.
  unfold Decimal.unorm. pose proof (nzhead_not_zero d) as H.
  destruct (Decimal.nzhead d); try reflexivity. contradiction.
Qed.

Lemma canonical_to_uint (n : N) : canonical_uint (N.to_uint n) = true.
Proof.
  rewrite <- (DecimalN.Unsigned.of_to n) at 1.
  rewrite DecimalN.Unsigned.to_of. apply canonical_unorm.
Qed.

Lemma canonical_head (d : Decimal.uint) :
  canonical_uint d = true -> head_ok is_digit (NilEmpty.string_of_uint d) = true.
Proof. destruct d; try reflexivity. discriminate. Qed.

Lemma dec_of_N_head (n : N) : head_ok is_digit (dec_of_N n) = true.
Proof. apply canonical_head, canonical_to_uint. Qed.

Lemma take_minus_digit (s : string) :
  head_ok is_digit s = true -> take_minus s = (false, s).
Proof.
  destruct s as [|c r]; [discriminate|]. cbn [head_ok]. intros H.
  destruct c as [[] [] [] [] [] [] [] []]; try reflexivity; discriminate H.
Qed.

Lemma terminator_stops (rest : string) :
  terminator rest = true ->
  head_ok is_digit rest = false /\ has_prefix "." rest = false
  /\ has_prefix "e" rest = false /\ has_prefix "E" rest = false.
Proof.
  destruct rest as [|c r]; [repeat split|]. cbn [terminator head_ok]. intros H.
  destruct c as [[] [] [] [] [] [] [] []]; try discriminate H; repeat split.
Qed.

Lemma digit_starts_value (s : string) :
  head_ok is_digit s = true -> head_ok starts_value s = true.
Proof.
  destruct s as [|c r]; [discriminate|]. cbn [head_ok]. intros H.
  destruct c as [[] [] [] [] [] [] [] []]; try reflexivity; discriminate H.
Qed.

Lemma parse_number_print (m : Z) (rest : string) :
  terminator rest = true ->
  parse_number (dec_of_Z m ++ rest) = Some (JNumber m 0, rest).
Proof.
  intros Ht. destruct (terminator_stops rest Ht) as (Hd & Hdot & He & HE).
  unfold parse_number, dec_of_Z.
  assert (Hread : read_uint (dec_of_N (Z.abs_N m) ++ rest) = (N.to_uint (Z.abs_N m), rest))
    by (apply read_uint_print; exact Hd).
  assert (Htail : take_fraction rest = Some (Decimal.Nil, rest)
                  /\ take_exponent rest = Some (0%Z, rest)).
  { unfold take_fraction, take_exponent. now rewrite Hdot, He, HE. }
  destruct Htail as (Hf & Hx).
  destruct (Z.ltb m 0) eqn:Hneg.
  - cbn [append take_minus]. cbn [Ascii.eqb Bool.eqb]. rewrite Hread.
    rewrite canonical_to_uint. cbn [negb]. rewrite Hf, Hx.
    rewrite DecimalFacts.app_nil_r, DecimalN.Unsigned.of_to. cbn [Decimal.nb_digits].
    apply Z.ltb_lt in Hneg. rewrite N2Z.inj_abs_N.
    replace (- Z.abs m)%Z with m by lia. reflexivity.
  - rewrite take_minus_digit by (apply head_ok_append, dec_of_N_head).
    rewrite Hread. rewrite canonical_to_uint. cbn [negb]. rewrite Hf, Hx.
    rewrite DecimalFacts.app_nil_r, DecimalN.Unsigned.of_to. cbn [Decimal.nb_digits].
    apply Z.ltb_ge in Hneg. rewrite N2Z.inj_abs_N.
    replace (Z.abs m) with m by lia. reflexivity.
Qed.

Lemma dec_of_Z_head (m : Z) : head_ok starts_value (dec_of_Z m) = true.
Proof.
  unfold dec_of_Z. destruct (Z.ltb m 0); [reflexivity|].
  apply digit_starts_value, dec_of_N_head.
Qed.

(** *** Values *)

Definition number_start (c : ascii) : bool := is_digit c || Ascii.eqb c "-".

Lemma dec_of_Z_number_start (m : Z) : head_ok number_start (dec_of_Z m) = true.
Proof.
  unfold dec_of_Z. destruct (Z.ltb m 0); [reflexivity|].
  pose proof (dec_of_N_head (Z.abs_N m)) as H.
  destruct (dec_of_N (Z.abs_N m)); [discriminate|].
  cbn [head_ok] in *. unfold number_start. now rewrite H.
Qed.

Lemma parse_value_number (fuel : nat) (s : string) :
  head_ok number_start s = true -> parse_value (S fuel) s = parse_number s.
Proof.
  destruct s as [|c t]; [discriminate|]. cbn [head_ok]. intros H.
  destruct c as [[] [] [] [] [] [] [] []]; try discriminate H; reflexivity.
Qed.

Lemma value_head (v : JSON) : head_ok starts_value (stringify v) = true.
Proof.
  destruct v as [| [] | m e | s | items | props]; try reflexivity.
  cbn [stringify]. unfold number_text. destruct (Z.eqb e 0).
  - apply dec_of_Z_head.
  - apply head_ok_append, dec_of_Z_head.
Qed.

Definition size_list (items : list JSON) : nat :=
  fold_right (fun x acc => S (size x + acc)) 0 items.

Definition size_props (props : list (string * JSON)) : nat :=
  fold_right (fun kv acc => S (size (snd kv) + acc)) 0 props.

Definition member (kv : string * JSON) : string :=
  (quote (fst kv) ++ ":" ++ stringify (snd kv))%string.

(** [v], written and followed by a terminator, is read back as [v],
    leaving the terminator. *)
Definition reads_back (v : JSON) : Prop :=
  canonical v = true ->
  forall fuel rest, size v <= fuel -> terminator rest = true ->
  parse_value fuel (stringify v ++ rest) = Some (v, rest).

Lemma parse_elements_join (items : list JSON) :
  Forall reads_back items -> forallb canonical items = true -> items <> [] ->
  forall fuel rest, size_list items <= fuel ->
  parse_elements fuel (join "," (map stringify items) ++ String "]" rest)
  = Some (items, rest).
Proof.
  induction items as [|x tl IH]; [contradiction|].
  intros HF Hc _ fuel rest Hfuel.
  inversion HF as [|? ? Hx Htl]; subst.
  cbn [forallb] in Hc. apply andb_true_iff in Hc as [Hcx Hctl].
  cbn [size_list fold_right] in Hfuel. fold (size_list tl) in Hfuel.
  destruct fuel as [|f]; [lia|].
  cbn [parse_elements].
  destruct tl as [|y tl'].
  - cbn [map join String.concat].
    rewrite (Hx Hcx f (String "]" rest)) by (lia || reflexivity).
    reflexivity.
  - change (join "," (map stringify (x :: y :: tl')))
      with (stringify x ++ "," ++ join "," (map stringify (y :: tl')))%string.
    rewrite !append_assoc. cbn [append].
    rewrite (Hx Hcx f) by (lia || reflexivity).
    cbn [skip_ws json_space]. cbn -[parse_elements join stringify map].
    rewrite (IH Htl Hctl ltac:(discriminate) f rest) by lia.
    reflexivity.
Qed.

Lemma member_shape (k : string) (text more : string) :
  ((quote k ++ ":" ++ text) ++ more)%string
  = String DQUOTE (quote_chars k ++ String DQUOTE (String ":" (text ++ more))).
Proof.
  unfold quote. cbn [append]. rewrite !append_assoc. reflexivity.
Qed.

Lemma parse_members_join (props : list (string * JSON)) :
  Forall (fun kv => reads_back (snd kv)) props ->
  forallb (fun kv => canonical (snd kv)) props = true -> props <> [] ->
  forall fuel rest, size_props props <= fuel ->
  parse_members fuel (join "," (map member props) ++ String "}" rest)
  = Some (props, rest).
Proof.
  induction props as [|[k x] tl IH]; [contradiction|].
  intros HF Hc _ fuel rest Hfuel.
  inversion HF as [|? ? Hx Htl]; subst. cbn [snd] in Hx.
  cbn [forallb snd] in Hc. apply andb_true_iff in Hc as [Hcx Hctl].
  cbn [size_props fold_right snd] in Hfuel. fold (size_props tl) in Hfuel.
  destruct fuel as [|f]; [lia|].
  destruct tl as [|y tl'].
  - cbn [map join String.concat]. unfold member at 1. cbn [fst snd].
    rewrite member_shape. cbn [parse_members skip_ws json_space].
    cbn -[parse_string_body parse_value parse_members stringify quote_chars append].
    rewrite parse_string_body_quote.
    cbn -[parse_value parse_members stringify append].
    rewrite (Hx Hcx f (String "}" rest)) by (lia || reflexivity).
    reflexivity.
  - change (join "," (map member ((k, x) :: y :: tl')))
      with (member (k, x) ++ "," ++ join "," (map member (y :: tl')))%string.
    unfold member at 1. cbn [fst snd].
    rewrite append_assoc, member_shape. cbn [parse_members skip_ws json_space].
    cbn -[parse_string_body parse_value parse_members stringify quote_chars append join map].
    rewrite parse_string_body_quote.
    cbn -[parse_value parse_members stringify append join map].
    rewrite append_assoc. cbn [append].
    rewrite (Hx Hcx f) by (lia || reflexivity).
    cbn -[parse_members join stringify map member].
    rewrite (IH Htl Hctl ltac:(discriminate) f rest) by lia.
    reflexivity.
Qed.

Lemma join_head {A} (pr : A -> string) (x : A) (tl : list A) :
  head_ok starts_value (pr x) = true ->
  head_ok starts_value (join "," (map pr (x :: tl))) = true.
Proof.
  intros H. destruct tl; [exact H|].
  change (join "," (map pr (x :: a :: tl)))
    with (pr x ++ "," ++ join "," (map pr (a :: tl)))%string.
  now apply head_ok_append.
Qed.

(** *** Objects keep their properties in the order written *)

Lemma obj_get_absent (props : list (string * JSON)) (k : string) :
  existsb (String.eqb k) (map fst props) = false -> obj_get props k = None.
Proof.
  induction props as [|[k' x] tl IH]; [reflexivity|].
  cbn [map fst existsb obj_get]. intros H.
  apply orb_false_elim in H as [Hk Htl].
  rewrite String.eqb_sym, Hk. now apply IH.
Qed.

Lemma object_of_entries_from (entries : list (string * JSON)) : forall acc,
  distinct (map fst acc ++ map fst entries) = true ->
  forallb not_index (map fst entries) = true ->
  fold_left (fun a kv => obj_set a (fst kv) (snd kv)) entries acc = acc ++ entries.
Proof.
  induction entries as [|[k x] tl IH]; intros acc Hd Hn.
  - now rewrite app_nil_r.
  - cbn [fold_left fst snd map forallb] in *.
    apply andb_true_iff in Hn as [Hk Hn].
    assert (Habs : existsb (String.eqb k) (map fst acc) = false).
    { clear - Hd. induction acc as [|[k' y] acc IHa]; [reflexivity|].
      cbn [map fst app distinct existsb] in *.
      apply andb_true_iff in Hd as [Hk' Hd]. apply negb_true_iff in Hk'.
      rewrite existsb_app in Hk'. apply orb_false_elim in Hk' as [_ Hk'].
      cbn [existsb] in Hk'. apply orb_false_elim in Hk' as [Hk' _].
      rewrite String.eqb_sym, Hk'. now apply IHa. }
    unfold obj_set. rewrite (obj_get_absent _ _ Habs).
    unfold not_index in Hk. destruct (array_index k); [discriminate|].
    rewrite IH.
    + now rewrite <- app_assoc.
    + rewrite map_app, <- app_assoc. exact Hd.
    + exact Hn.
Qed.

Lemma object_of_entries_plain (props : list (string * JSON)) :
  distinct (map fst props) = true -> forallb not_index (map fst props) = true ->
  object_of_entries props = props.
Proof. intros Hd Hn. unfold object_of_entries. now rewrite object_of_entries_from. Qed.

Lemma parse_value_stringify (v : JSON) : reads_back v.
Proof.
  induction v as [| b | m e | s | items IH | props IH] using JSON_nested_ind;
    intros Hc fuel rest Hfuel Ht;
    (destruct fuel as [|f]; [cbn [size] in Hfuel; lia|]).
  - reflexivity.
  - destruct b; reflexivity.
  - cbn [canonical] in Hc. apply Z.eqb_eq in Hc. subst e.
    cbn [stringify]. unfold number_text. cbn [Z.eqb].
    rewrite parse_value_number by (apply head_ok_append, dec_of_Z_number_start).
    now apply parse_number_print.
  - cbn [stringify].
    destruct (parse_string_quote s rest) as (t & -> & Hp).
    cbn -[parse_string_body]. now rewrite Hp.
  - cbn [canonical] in Hc. cbn [size] in Hfuel. fold (size_list items) in Hfuel.
    cbn [stringify]. destruct items as [|x tl]; [reflexivity|].
    rewrite !append_assoc. cbn [append].
    cbn [parse_value skip_ws json_space].
    cbn -[parse_elements join stringify has_prefix skip_ws append map].
    assert (Hhead : head_ok starts_value
                      (join "," (map stringify (x :: tl)) ++ String "]" rest) = true)
      by (apply head_ok_append, join_head, value_head).
    rewrite (skip_ws_head _ Hhead).
    destruct (no_bracket_head _ Hhead) as (Hb & _). rewrite Hb.
    rewrite (parse_elements_join (x :: tl) IH Hc ltac:(discriminate) f rest) by lia.
    reflexivity.
  - cbn [canonical] in Hc. apply andb_true_iff in Hc as [Hk Hc].
    apply andb_true_iff in Hk as [Hd Hn].
    cbn [size] in Hfuel. fold (size_props props) in Hfuel.
    cbn [stringify]. fold member. destruct props as [|kv tl]; [reflexivity|].
    rewrite !append_assoc. cbn [append].
    cbn [parse_value skip_ws json_space].
    cbn -[parse_members join member has_prefix skip_ws append object_of_entries map].
    assert (Hhead : head_ok starts_value
                      (join "," (map member (kv :: tl)) ++ String "}" rest) = true).
    { apply head_ok_append, join_head. reflexivity. }
    rewrite (skip_ws_head _ Hhead).
    destruct (no_bracket_head _ Hhead) as (_ & Hb). rewrite Hb.
    rewrite (parse_members_join (kv :: tl) IH Hc ltac:(discriminate) f rest) by lia.
    now rewrite object_of_entries_plain.
Qed.

(** *** The fuel [JSON.parse] starts with is enough *)

Lemma head_ok_length (P : ascii -> bool) (s : string) :
  head_ok P s = true -> 1 <= String.length s.
Proof. destruct s; [discriminate | simpl; lia]. Qed.

Lemma weighted_join {A} (w : A -> nat) (pr : A -> string) (l : list A) :
  Forall (fun x => w x <= 2 * String.length (pr x)) l ->
  fold_right (fun x acc => S (w x + acc)) 0 l
  <= 2 * String.length (join "," (map pr l)) + 1.
Proof.
  induction 1 as [|x tl Hx Htl IH]; [simpl; lia|].
  destruct tl as [|y tl'].
  - cbn [fold_right map join String.concat]. lia.
  - change (join "," (map pr (x :: y :: tl')))
      with (pr x ++ "," ++ join "," (map pr (y :: tl')))%string.
    rewrite !length_append. cbn [String.length].
    change (fold_right (fun x acc => S (w x + acc)) 0 (x :: y :: tl'))
      with (S (w x + fold_right (fun x acc => S (w x + acc)) 0 (y :: tl'))).
    lia.
Qed.

Lemma size_le_length (v : JSON) : size v <= 2 * String.length (stringify v).
Proof.
  induction v as [| b | m e | s | items IH | props IH] using JSON_nested_ind.
  - simpl. lia.
  - destruct b; simpl; lia.
  - pose proof (head_ok_length _ _ (value_head (JNumber m e))). cbn [size]. lia.
  - pose proof (head_ok_length _ _ (value_head (JString s))). cbn [size]. lia.
  - cbn [size stringify]. rewrite !length_append. cbn [String.length].
    pose proof (weighted_join size stringify items IH). lia.
  - cbn [size stringify]. rewrite !length_append. cbn [String.length].
    assert (H : Forall (fun kv => size (snd kv) <= 2 * String.length (member kv)) props).
    { eapply Forall_impl; [|exact IH]. intros [k x] Hx. unfold member. cbn [fst snd] in *.
      rewrite !length_append. lia. }
    pose proof (weighted_join (fun kv => size (snd kv)) member props H) as Hw.
    unfold member in Hw. lia.
Qed.

(** [JSON.parse(JSON.stringify(v))] is [v]. *)
Theorem parse_stringify (v : JSON) :
  canonical v = true -> Json.parse (stringify v) = Some v.
Proof.
  intros Hc. unfold Json.parse.
  pose proof (parse_value_stringify v Hc (2 * String.length (stringify v) + 2) ""
                ltac:(pose proof (size_le_length v); lia) eq_refl) as H.
  rewrite append_nil_r in H. now rewrite H.
Qed.

Lemma parse_stringify_witness :
  Json.parse (stringify (JObject [("type", JString "token");
                                  ("text", JString (String LF (dq "say 'hi'")))]))
  = Some (JObject [("type", JString "token");
                   ("text", JString (String LF (dq "say 'hi'")))]).
Proof. apply parse_stringify. reflexivity. Defined.

(** *** Events *)

Lemma json_of_attachment_canonical (a : Attachment) :
  canonical (json_of_attachment a) = true.
Proof.
  destruct a as [[id|] k name [mime|] [size|] [uri|] [data|]]; reflexivity.
Qed.

Lemma json_of_event_canonical (e : StreamEvent) : canonical (json_of_event e) = true.
Proof.
  destruct e; try reflexivity.
  cbn [json_of_event]. cbn -[json_of_attachment].
  now rewrite json_of_attachment_canonical.
Qed.

Lemma parse_stringify_event (e : StreamEvent) :
  Json.parse (stringify_event e) = Some (json_of_event e).
Proof. apply parse_stringify, json_of_event_canonical. Qed.

End JsonRoundTrip.

(** ** The extraction and the call stack *)

Module ExtractionDepth.
Import ProviderSdk Extraction JsonRoundTrip.

Lemma nested_canonical (n : nat) (inner : JSON) :
  canonical inner = true -> canonical (nested n inner) = true.
Proof.
  intros H. induction n as [|k IH]; [exact H|].
  cbn [nested canonical forallb]. now rewrite IH.
Qed.

(** C10, as the claim states it, fails: the function has no depth
    guard, and on a value nested deeper than the call stack has room
    for it does not return a string, it raises [RangeError].  Here the
    stack has room for a thousand nested calls and the value is what
    [JSON.parse] gives for a thousand opening brackets, a string and a
    thousand closing brackets. *)
Lemma deep_value_raises_RangeError :
  Json.parse (nested_text 1000 (dq "'x'")) = Some (nested 1000 (JString "x"))
  /\ extractTextFromUnknown 1000 (Some (nested 1000 (JString "x"))) = None
  /\ AgentServer.extractTextFromUnknown 1000 (Some (nested 1000 (JString "x"))) = None.
Proof. vm_compute. repeat split. Qed.

(** C10, amended.  [extractTextFromUnknown] calls itself only on array
    elements and property values, each strictly less deep than the
    value it came from, so no chain of calls is infinite and every run
    ends.  It ends with a string when the call stack has room for one
    call more than the value is deep: a string is returned as it is;
    [null], a boolean, a number and [undefined] give the empty string.
    It has no depth guard: whatever room the stack has, arrays
    nested that deep, a value [JSON.parse] gives for the text
    [JSON.stringify] writes for them, make it raise [RangeError].
    The server's copy behaves the same. *)
Theorem extraction_within_the_stack (stack : nat) :
  (forall v, json_depth v < stack ->
             extractTextFromUnknown stack (Some v) = Some (extracted_text v)
             /\ AgentServer.extractTextFromUnknown stack (Some v) = Some (extracted_text v))
  /\ (forall v w, recursive_call v w -> json_depth w < json_depth v)
  /\ well_founded (fun w v => recursive_call v w)
  /\ (forall s, extracted_text (JString s) = s)
  /\ (extracted_text JNull = ""
      /\ (forall b, extracted_text (JBool b) = "")
      /\ (forall m e, extracted_text (JNumber m e) = "")
      /\ extractTextFromUnknown (S stack) None = Some ""
      /\ AgentServer.extractTextFromUnknown (S stack) None = Some "")
  /\ (forall inner,
         json_depth (nested stack inner) = stack + json_depth inner
         /\ extractTextFromUnknown stack (Some (nested stack inner)) = None
         /\ AgentServer.extractTextFromUnknown stack (Some (nested stack inner)) = None
         /\ (canonical inner = true ->
             Json.parse (stringify (nested stack inner)) = Some (nested stack inner))).
Proof.
  split; [|split; [|split; [|split; [|split]]]].
  - intros v Hd. split; [now apply extraction_returns | now apply server_extraction_returns].
  - exact recursive_call_decreases.
  - apply (Wf_nat.well_founded_lt_compat _ json_depth).
    intros w v H. now apply recursive_call_decreases.
  - reflexivity.
  - repeat split.
  - intros inner. split; [|split; [apply nested_overflows|split; [apply nested_overflows|]]].
    + induction stack as [|d IH]; [reflexivity|].
      cbn [nested json_depth fold_right]. rewrite IH. lia.
    + intros Hc. apply parse_stringify. now apply nested_canonical.
Qed.

End ExtractionDepth.

(** ** Reading one frame back, however it is cut into chunks *)

Module SseReader.
Import Extraction JsonFacts TrimFacts.

Definition BLANK : string := String LF (str1 LF).

(** The reader past the start of the stream, where no byte order mark
    is looked for: the state is the unfinished character, the buffer
    and the frames found. *)
Record Plain := mkPlain {
  p_held : string;
  p_buffer : string;
  p_frames : list string
}.

Definition plain_chunk (st : Plain) (chunk : string) : Plain :=
  let '(text, held') := decode_bytes (p_held st) chunk in
  let buf := (p_buffer st ++ text)%string in
  let '(found, rest) := take_frames (S (String.length buf)) buf in
  mkPlain held' rest (p_frames st ++ found).

Definition plain_all (chunks : list string) : Plain :=
  fold_left plain_chunk chunks (mkPlain EmptyString EmptyString []).

Lemma replace_crlf_plain (s : string) : free_of CR s = true -> replace_crlf s = s.
Proof.
  unfold free_of. induction s as [|c r IH]; [reflexivity|].
  cbn [string_forall]. intros H. apply andb_true_iff in H as [Hc Hr].
  apply negb_true_iff in Hc. cbn [replace_crlf].
  destruct r as [|d r']; [reflexivity|].
  rewrite Hc. cbn [andb]. now rewrite IH.
Qed.

Lemma has_prefix_append (p b x : string) :
  has_prefix p b = true -> has_prefix p (b ++ x) = true.
Proof.
  revert b. induction p as [|a p IH]; intros b H; [reflexivity|].
  destruct b as [|c b]; [discriminate|].
  cbn [has_prefix append] in *. apply andb_true_iff in H as [Ha Hp].
  now rewrite Ha, IH.
Qed.

(** A text found in a prefix is found in the whole. *)
Lemma indexOf_prefix (pat b x : string) :
  indexOf (b ++ x) pat = None -> indexOf b pat = None.
Proof.
  induction b as [|c b IH].
  - cbn [append]. destruct pat as [|a pat]; [|reflexivity].
    destruct x; discriminate.
  - cbn [append indexOf].
    destruct (has_prefix pat (String c b)) eqn:E.
    + apply (has_prefix_append _ _ x) in E. cbn [append] in E. rewrite E. discriminate.
    + destruct (has_prefix pat (String c (b ++ x))); [discriminate|].
      destruct (indexOf (b ++ x) pat); [discriminate|].
      intros _. now rewrite IH.
Qed.

Lemma indexOf_blank_absent (q : string) :
  free_of LF q = true -> indexOf (q ++ str1 LF) BLANK = None.
Proof.
  unfold free_of. induction q as [|c q IH]; [reflexivity|].
  cbn [string_forall]. intros H. apply andb_true_iff in H as [Hc Hq].
  apply negb_true_iff in Hc. cbn [append indexOf BLANK has_prefix].
  rewrite (Ascii.eqb_sym LF c), Hc. cbn [andb].
  fold BLANK. now rewrite IH.
Qed.

Lemma indexOf_blank_found (q rest : string) :
  free_of LF q = true ->
  indexOf (q ++ String LF (String LF rest)) BLANK = Some (String.length q).
Proof.
  unfold free_of. induction q as [|c q IH]; [reflexivity|].
  cbn [string_forall]. intros H. apply andb_true_iff in H as [Hc Hq].
  apply negb_true_iff in Hc. cbn [append indexOf BLANK str1 has_prefix].
  rewrite (Ascii.eqb_sym LF c), Hc. cbn [andb].
  change (String LF (String LF "")) with BLANK. now rewrite IH.
Qed.

Lemma free_of_prefix (c : ascii) (b x : string) :
  free_of c (b ++ x) = true -> free_of c b = true.
Proof.
  unfold free_of. rewrite string_forall_append. intros H.
  now apply andb_true_iff in H as [H _].
Qed.

(** Cutting the last character off a text that goes on after [b]. *)
Lemma proper_prefix (b x y : string) (c : ascii) :
  (b ++ x)%string = (y ++ str1 c)%string -> x <> "" ->
  exists x', (b ++ x')%string = y.
Proof.
  revert y. induction b as [|d b IH]; intros y H Hx.
  - cbn [append] in H. subst x. exists y. reflexivity.
  - destruct y as [|e y].
    + cbn [append] in H. injection H as _ H.
      apply append_empty in H as [_ H]. contradiction.
    + cbn [append] in H. injection H as -> H.
      destruct (IH y H Hx) as (x' & Hx'). exists x'. cbn [append]. now rewrite Hx'.
Qed.

Section OneFrame.

(** [data] is one payload as the encoder writes it: no control
    character in it. *)
Variable data : string.
Hypothesis data_printable : string_forall printable data = true.

Definition raw_event : string := ("data: " ++ data)%string.

Definition whole_frame : string := (raw_event ++ BLANK)%string.

Lemma raw_event_printable : string_forall printable raw_event = true.
Proof. unfold raw_event. rewrite string_forall_append, data_printable. reflexivity. Qed.

(** Before the frame is complete nothing is cut off the buffer. *)
Lemma take_frames_incomplete (fuel : nat) (b x : string) :
  (b ++ x)%string = whole_frame -> x <> "" ->
  take_frames fuel b = ([], b).
Proof.
  intros H Hx. destruct fuel as [|f]; [reflexivity|].
  assert (Hsplit : whole_frame = ((raw_event ++ str1 LF) ++ str1 LF)%string)
    by (unfold whole_frame, BLANK; now rewrite append_assoc).
  rewrite Hsplit in H.
  destruct (proper_prefix _ _ _ _ H Hx) as (x' & Hx').
  assert (Hcr : free_of CR b = true).
  { apply (free_of_prefix CR b x').
    rewrite Hx'. unfold free_of. rewrite string_forall_append.
    fold (free_of CR raw_event). rewrite (printable_free_of_CR _ raw_event_printable).
    reflexivity. }
  assert (Hnone : indexOf b BLANK = None).
  { apply (indexOf_prefix BLANK b x'). rewrite Hx'.
    apply indexOf_blank_absent, printable_free_of_LF, raw_event_printable. }
  cbn [take_frames]. rewrite (replace_crlf_plain _ Hcr). fold BLANK. now rewrite Hnone.
Qed.

Lemma whole_frame_free_of_CR : free_of CR whole_frame = true.
Proof.
  unfold whole_frame, free_of. rewrite string_forall_append.
  fold (free_of CR raw_event). now rewrite (printable_free_of_CR _ raw_event_printable).
Qed.

(** Once it is complete the frame is cut off, and the buffer is
    empty. *)
Lemma take_frames_complete (fuel : nat) :
  2 <= fuel -> take_frames fuel whole_frame = ([raw_event], "").
Proof.
  intros Hf. destruct fuel as [|[|f]]; try lia.
  cbn [take_frames]. rewrite (replace_crlf_plain _ whole_frame_free_of_CR).
  fold BLANK. unfold whole_frame.
  change (indexOf (raw_event ++ BLANK) BLANK)
    with (indexOf (raw_event ++ String LF (String LF "")) BLANK).
  rewrite (indexOf_blank_found raw_event "")
    by (apply printable_free_of_LF, raw_event_printable).
  rewrite take_append.
  replace (String.length raw_event + 2)
    with (String.length (raw_event ++ BLANK))
    by (rewrite length_append; reflexivity).
  now rewrite drop_all.
Qed.

Lemma decode_bytes_joins (held chunk : string) :
  (fst (decode_bytes held chunk) ++ snd (decode_bytes held chunk))%string
  = (held ++ chunk)%string.
Proof. unfold decode_bytes. cbn [fst snd]. apply take_drop. Qed.

(** A chunk that ends the frame ends with a line feed, so no byte is
    held back. *)
Lemma decode_bytes_at_end (held chunk y : string) :
  (held ++ chunk)%string = (y ++ str1 LF)%string ->
  decode_bytes held chunk = ((held ++ chunk)%string, "").
Proof.
  intros H. unfold decode_bytes. rewrite H, rev_append. cbn [rev append pending_len].
  cbn [sequence_length in_range N_of_ascii LF]. cbn.
  now rewrite Nat.sub_0_r, take_all, drop_all.
Qed.

Lemma plain_chunk_empty (found : list string) :
  plain_chunk (mkPlain "" "" found) "" = mkPlain "" "" found.
Proof. unfold plain_chunk. cbn. now rewrite app_nil_r. Qed.

Lemma plain_all_after (chunks : list string) (found : list string) :
  concat_chunks chunks = "" ->
  fold_left plain_chunk chunks (mkPlain "" "" found) = mkPlain "" "" found.
Proof.
  induction chunks as [|c tl IH]; [reflexivity|].
  cbn [concat_chunks fold_right fold_left]. intros H.
  apply append_empty in H as [-> H]. rewrite plain_chunk_empty. now apply IH.
Qed.

(** The reader, from any state reached before the frame is complete,
    ends with the frame found and nothing left over. *)
Lemma plain_all_from (chunks : list string) : forall buf hold,
  ((buf ++ hold) ++ concat_chunks chunks)%string = whole_frame ->
  (buf ++ hold)%string <> whole_frame ->
  fold_left plain_chunk chunks (mkPlain hold buf []) = mkPlain "" "" [raw_event].
Proof.
  induction chunks as [|c tl IH]; intros buf hold H Hne.
  - cbn [concat_chunks fold_right] in H. rewrite append_nil_r in H. contradiction.
  - cbn [concat_chunks fold_right] in H. fold (concat_chunks tl) in H.
    cbn [fold_left].
    destruct (string_dec (buf ++ hold ++ c)%string whole_frame) as [E|E].
    + (* this chunk completes the frame *)
      assert (Hc : c <> "").
      { intros ->. rewrite append_nil_r in E. contradiction. }
      assert (Htl : concat_chunks tl = "").
      { assert (H' : (whole_frame ++ concat_chunks tl)%string = (whole_frame ++ "")%string).
        { rewrite append_nil_r. rewrite <- E at 1. rewrite <- H.
          now rewrite !append_assoc. }
        now apply append_inv_head in H'. }
      assert (Hend : exists y, (hold ++ c)%string = (y ++ str1 LF)%string).
      { assert (Hw : whole_frame = ((raw_event ++ str1 LF) ++ str1 LF)%string)
          by (unfold whole_frame, BLANK; now rewrite append_assoc).
        rewrite Hw in E.
        destruct (proper_prefix buf (hold ++ c) (raw_event ++ str1 LF) LF E) as (x' & Hx').
        - intros Hz. apply append_empty in Hz as [_ Hz]. contradiction.
        - rewrite <- Hx' in E. rewrite append_assoc in E.
          apply append_inv_head in E. eauto. }
      destruct Hend as (y & Hy).
      unfold plain_chunk. cbn [p_held p_buffer p_frames].
      rewrite (decode_bytes_at_end _ _ _ Hy). rewrite E.
      rewrite take_frames_complete.
      * cbn [app]. now apply plain_all_after.
      * unfold whole_frame, raw_event. rewrite !length_append. cbn. lia.
    + (* the frame is still incomplete *)
      unfold plain_chunk. cbn [p_held p_buffer p_frames].
      pose proof (decode_bytes_joins hold c) as Hj.
      destruct (decode_bytes hold c) as [text hold'] eqn:Ed. cbn [fst snd] in Hj.
      assert (Hnew : ((buf ++ text) ++ hold')%string = (buf ++ hold ++ c)%string)
        by (now rewrite append_assoc, Hj).
      rewrite (take_frames_incomplete _ (buf ++ text)%string
                                      (hold' ++ concat_chunks tl)%string).
      * cbn [app]. apply IH.
        -- rewrite Hnew. rewrite <- H. now rewrite !append_assoc.
        -- now rewrite Hnew.
      * rewrite <- append_assoc, Hnew. rewrite <- H. now rewrite !append_assoc.
      * intros Hz. apply append_empty in Hz as [Hz1 Hz2].
        apply E. rewrite <- H, Hz2, append_nil_r. now rewrite append_assoc.
Qed.

Lemma plain_all_frame (chunks : list string) :
  concat_chunks chunks = whole_frame ->
  plain_all chunks = mkPlain "" "" [raw_event].
Proof.
  intros H. unfold plain_all. apply plain_all_from.
  - exact H.
  - unfold whole_frame, raw_event. discriminate.
Qed.

End OneFrame.

(** *** The byte order mark

    The reader is the plain reader run on the chunks with the byte
    order mark left out. *)

Definition plain_of (st : Reader) : Plain :=
  mkPlain (held (decoder st)) (buffer st) (frames st).

(** The chunks as they reach the decoder of characters. *)
Fixpoint debom (start : option string) (chunks : list string)
  : list string * option string :=
  match chunks with
  | [] => ([], start)
  | c :: r => (fst (skip_bom start c) :: fst (debom (snd (skip_bom start c)) r),
               snd (debom (snd (skip_bom start c)) r))
  end.

(** The text does not end inside a multi-byte character. *)
Definition ends_complete (t : string) : bool := Nat.eqb (pending_len (rev t)) 0.

Lemma read_chunk_plain (st : Reader) (c : string) :
  plain_of (read_chunk st c)
  = plain_chunk (plain_of st) (fst (skip_bom (at_start (decoder st)) c))
  /\ at_start (decoder (read_chunk st c)) = snd (skip_bom (at_start (decoder st)) c).
Proof.
  unfold read_chunk, decode_stream, plain_chunk, plain_of.
  cbn [p_held p_buffer p_frames].
  destruct (skip_bom (at_start (decoder st)) c) as [bytes start]. cbn [fst snd].
  destruct (decode_bytes (held (decoder st)) bytes) as [text h].
  destruct (take_frames _ _) as [found rest]. split; reflexivity.
Qed.

Lemma read_fold_plain (chunks : list string) : forall st,
  plain_of (fold_left read_chunk chunks st)
  = fold_left plain_chunk (fst (debom (at_start (decoder st)) chunks)) (plain_of st)
  /\ at_start (decoder (fold_left read_chunk chunks st))
     = snd (debom (at_start (decoder st)) chunks).
Proof.
  induction chunks as [|c tl IH]; intros st; [split; reflexivity|].
  cbn [fold_left debom fst snd].
  destruct (read_chunk_plain st c) as (Hp & Hs).
  destruct (IH (read_chunk st c)) as (IH1 & IH2).
  rewrite IH1, IH2, Hp, Hs. split; reflexivity.
Qed.

Lemma debom_past_start (chunks : list string) : debom None chunks = (chunks, None).
Proof.
  induction chunks as [|c tl IH]; [reflexivity|].
  cbn [debom skip_bom fst snd]. now rewrite IH.
Qed.

Lemma drop_mark_append (all x : string) :
  has_prefix BOM all = true ->
  has_prefix BOM (all ++ x) = true /\ drop 3 (all ++ x) = (drop 3 all ++ x)%string.
Proof.
  intros H. split; [now apply has_prefix_append|].
  destruct all as [|a [|b [|c r]]]; try discriminate H;
    try (cbn in H; rewrite ?andb_false_r in H; discriminate H).
  reflexivity.
Qed.

(** Two texts neither of which begins the other part ways before
    either ends. *)
Lemma has_prefix_diverged (p a x : string) :
  has_prefix p a = false -> has_prefix a p = false -> has_prefix p (a ++ x) = false.
Proof.
  revert a. induction p as [|c p IH]; intros a H1 H2; [discriminate|].
  destruct a as [|d a]; [discriminate|].
  cbn [has_prefix append] in *.
  destruct (Ascii.eqb c d) eqn:E; [|reflexivity].
  apply Ascii.eqb_eq in E. subst d. rewrite Ascii.eqb_refl in H2.
  cbn [andb] in *. now apply IH.
Qed.

(** What the chunks with the mark left out add up to.  While the
    start is not behind, nothing was passed on and the bytes read
    begin a byte order mark. *)
Lemma debom_concat (chunks : list string) : forall seen,
  has_prefix seen BOM = true -> has_prefix BOM seen = false ->
  match snd (debom (Some seen) chunks) with
  | None =>
      concat_chunks (fst (debom (Some seen) chunks))
      = strip_bom (seen ++ concat_chunks chunks)
  | Some kept =>
      concat_chunks (fst (debom (Some seen) chunks)) = ""
      /\ kept = (seen ++ concat_chunks chunks)%string
      /\ has_prefix kept BOM = true /\ has_prefix BOM kept = false
  end.
Proof.
  induction chunks as [|c tl IH]; intros seen Hs Hn.
  - cbn [debom fst snd concat_chunks fold_right]. rewrite append_nil_r. auto.
  - cbn [debom fst snd concat_chunks fold_right]. fold (concat_chunks tl).
    fold (concat_chunks (fst (debom (snd (skip_bom (Some seen) c)) tl))).
    unfold skip_bom.
    destruct (has_prefix BOM (seen ++ c)) eqn:E1.
    + cbn [fst snd]. rewrite debom_past_start. cbn [fst snd].
      destruct (drop_mark_append (seen ++ c) (concat_chunks tl) E1) as (Hp & Hd).
      unfold strip_bom. rewrite <- append_assoc, Hp. now rewrite Hd.
    + destruct (has_prefix (seen ++ c) BOM) eqn:E2.
      * cbn [fst snd]. specialize (IH (seen ++ c)%string E2 E1).
        destruct (snd (debom (Some (seen ++ c)%string) tl)) as [kept|].
        -- destruct IH as (H1 & -> & H3 & H4). rewrite H1.
           rewrite append_assoc in *. auto.
        -- cbn [append]. rewrite IH. now rewrite append_assoc.
      * cbn [fst snd]. rewrite debom_past_start. cbn [fst snd].
        unfold strip_bom. rewrite <- append_assoc.
        now rewrite (has_prefix_diverged BOM (seen ++ c) (concat_chunks tl) E1 E2).
Qed.

Lemma proper_mark_prefix_incomplete (t : string) :
  has_prefix t BOM = true -> has_prefix BOM t = false -> ends_complete t = true ->
  t = "".
Proof.
  destruct t as [|a [|b [|c [|d r]]]]; [reflexivity | | | |];
    cbn [has_prefix BOM str1]; intros H1 H2 H3.
  - rewrite andb_true_r in H1. apply Ascii.eqb_eq in H1. subst a. discriminate H3.
  - rewrite andb_true_r in H1. apply andb_true_iff in H1 as [Ha Hb].
    apply Ascii.eqb_eq in Ha, Hb. subst a b. discriminate H3.
  - rewrite andb_true_r in H1. apply andb_true_iff in H1 as [Ha H1].
    apply andb_true_iff in H1 as [Hb Hc].
    rewrite (Ascii.eqb_sym (ascii_of_N 239) a), Ha in H2.
    rewrite (Ascii.eqb_sym (ascii_of_N 187) b), Hb in H2.
    rewrite (Ascii.eqb_sym (ascii_of_N 191) c), Hc in H2. discriminate H2.
  - rewrite !andb_false_r in H1. discriminate H1.
Qed.

Lemma pending_len_append (s t : string) :
  pending_len s <> 0 -> pending_len (s ++ t) = pending_len s.
Proof.
  destruct s as [|a [|b [|c r]]]; cbn [append pending_len]; intros H;
    repeat match goal with
           | |- context [if ?x then _ else _] => destruct x
           | H : context [if ?x then _ else _] |- _ => destruct x
           end;
    try reflexivity; contradiction.
Qed.

Lemma ends_complete_suffix (w x : string) :
  ends_complete (w ++ x) = true -> ends_complete x = true.
Proof.
  unfold ends_complete. rewrite rev_append. intros H. apply Nat.eqb_eq in H.
  apply Nat.eqb_eq. destruct (Nat.eq_dec (pending_len (rev x)) 0) as [E|E]; [exact E|].
  rewrite (pending_len_append _ (rev w) E) in H. contradiction.
Qed.

Lemma ends_complete_strip (t : string) :
  ends_complete t = true -> ends_complete (strip_bom t) = true.
Proof.
  intros H. unfold strip_bom. destruct (has_prefix BOM t); [|exact H].
  apply (ends_complete_suffix (take 3 t)). now rewrite take_drop.
Qed.

(** The reader on a body that does not end inside a character: it is
    the plain reader on chunks that add up to the body less its byte
    order mark, and its decoder keeps what the plain reader holds
    back. *)
Lemma read_all_as_plain (chunks : list string) :
  ends_complete (concat_chunks chunks) = true ->
  exists plain,
    concat_chunks plain = strip_bom (concat_chunks chunks)
    /\ plain_of (read_all chunks) = plain_all plain
    /\ kept (decoder (read_all chunks)) = p_held (plain_all plain).
Proof.
  intros He. unfold read_all.
  destruct (read_fold_plain chunks
              (mkReader (mkDecoder (Some EmptyString) EmptyString) EmptyString []))
    as (Hp & Hs).
  cbn [decoder at_start] in Hp, Hs.
  pose proof (debom_concat chunks "" eq_refl eq_refl) as Hc.
  exists (fst (debom (Some EmptyString) chunks)).
  set (final := fold_left read_chunk chunks
                  (mkReader (mkDecoder (Some EmptyString) EmptyString) EmptyString [])) in *.
  assert (Hplain : plain_of final = plain_all (fst (debom (Some EmptyString) chunks)))
    by exact Hp.
  unfold kept. rewrite Hs. rewrite <- Hplain. cbn [plain_of p_held].
  destruct (snd (debom (Some EmptyString) chunks)) as [k|].
  - destruct Hc as (H1 & H2 & H3 & H4). cbn [append] in H2. subst k.
    rewrite (proper_mark_prefix_incomplete _ H3 H4 He) in *.
    rewrite H1. repeat split; trivial.
  - cbn [append] in Hc. rewrite Hc. repeat split; trivial.
Qed.

Definition replacement_character : string :=
  String (ascii_of_N 239) (String (ascii_of_N 191) (str1 (ascii_of_N 189))).

(** The same, field by field. *)
Lemma read_all_view (chunks : list string) :
  ends_complete (concat_chunks chunks) = true ->
  exists plain,
    concat_chunks plain = strip_bom (concat_chunks chunks)
    /\ frames (read_all chunks) = p_frames (plain_all plain)
    /\ buffer (read_all chunks) = p_buffer (plain_all plain)
    /\ decode_end (decoder (read_all chunks))
       = if truthy (p_held (plain_all plain)) then replacement_character else "".
Proof.
  intros He. destruct (read_all_as_plain chunks He) as (plain & Hc & Hp & Hk).
  exists plain. split; [exact Hc|].
  rewrite <- Hp. cbn [plain_of p_frames p_buffer]. split; [reflexivity|].
  split; [reflexivity|]. unfold decode_end. rewrite Hk, <- Hp. reflexivity.
Qed.

Lemma ends_complete_line (y : string) : ends_complete (y ++ str1 LF) = true.
Proof. unfold ends_complete. rewrite rev_append. reflexivity. Qed.

Lemma ends_complete_blank (y : string) : ends_complete (y ++ BLANK) = true.
Proof.
  unfold BLANK. change (String LF (str1 LF)) with (str1 LF ++ str1 LF)%string.
  rewrite <- append_assoc. apply ends_complete_line.
Qed.

End SseReader.

(** ** The SSE round trip *)

Module SseRoundTrip.
Import Extraction JsonFacts TrimFacts SseReader JsonRoundTrip SchemaFacts.

Lemma split_blank_acc_single (s : string) : forall cur,
  free_of LF s = true -> split_blank_acc cur s = [(rev cur ++ s)%string].
Proof.
  unfold free_of. induction s as [|c r IH]; intros cur H.
  - cbn [split_blank_acc]. now rewrite append_nil_r.
  - cbn [string_forall] in H. apply andb_true_iff in H as [Hc Hr].
    apply negb_true_iff in Hc. cbn [split_blank_acc].
    destruct r as [|d r'].
    + reflexivity.
    + rewrite Hc. cbn [andb]. rewrite IH by exact Hr.
      cbn [rev]. now rewrite append_assoc.
Qed.

Lemma split_lf_acc_single (s : string) : forall cur,
  free_of LF s = true -> split_lf_acc cur s = [(rev cur ++ s)%string].
Proof.
  unfold free_of. induction s as [|c r IH]; intros cur H.
  - cbn [split_lf_acc]. now rewrite append_nil_r.
  - cbn [string_forall] in H. apply andb_true_iff in H as [Hc Hr].
    apply negb_true_iff in Hc. cbn [split_lf_acc]. rewrite Hc.
    rewrite IH by exact Hr. cbn [rev]. now rewrite append_assoc.
Qed.

Lemma strip_space_brace (r : string) : strip_space (String "{" r) = None.
Proof. destruct r as [|b [|c r3]]; reflexivity. Qed.

Lemma strip_space_rev_brace (r : string) : strip_space_rev (String "}" r) = None.
Proof.
  destruct r as [|b [|a r3]]; try reflexivity.
  - cbn. now rewrite andb_false_r.
  - cbn. rewrite !andb_false_r. reflexivity.
Qed.

(** The payload of an event is its own trim, also behind the blank
    that follows [data:]. *)
Lemma trim_after_blank (body : string) :
  trim (String " " (String "{" (body ++ "}"))) = String "{" (body ++ "}").
Proof.
  assert (Hs : trimStart (String " " (String "{" (body ++ "}")))
               = String "{" (body ++ "}")).
  { unfold trimStart.
    change (String.length (String " " (String "{" (body ++ "}"))))
      with (S (String.length (String "{" (body ++ "}")))).
    change (trim_fuel strip_space (S ?k) (String " " ?x))
      with (trim_fuel strip_space k x).
    apply trim_fuel_fixed, strip_space_brace. }
  unfold trim. rewrite Hs. unfold trimEnd.
  rewrite trim_fuel_fixed; [apply rev_involutive|].
  cbn [rev]. rewrite rev_append. cbn [rev append]. apply strip_space_rev_brace.
Qed.

Section OneEvent.

Variable is_datetime : string -> bool.
Variable e : StreamEvent.
Hypothesis e_valid : StreamEvent_valid is_datetime e = true.

Let data : string := stringify_event e.

Lemma data_printable : string_forall printable data = true.
Proof. apply stringify_printable. Qed.

Lemma raw_event_lines :
  free_of LF (raw_event data) = true /\ free_of CR (raw_event data) = true.
Proof.
  split; [apply printable_free_of_LF | apply printable_free_of_CR];
    apply raw_event_printable, data_printable.
Qed.

Lemma raw_event_payload :
  startsWith (raw_event data) "data:" = true
  /\ trim (drop 5 (raw_event data)) = data
  /\ truthy data = true
  /\ String.eqb data "[DONE]" = false.
Proof.
  unfold data. destruct (stringify_event_braces e) as (body & Hb).
  unfold raw_event. rewrite Hb.
  split; [reflexivity|]. split; [|split; reflexivity].
  cbn [append drop]. apply trim_after_blank.
Qed.

(** The client cuts the payload out of the frame. *)
Lemma parseSsePayloadFromText_frame :
  Client.parseSsePayloadFromText (raw_event data) = [data].
Proof.
  destruct raw_event_lines as (Hlf & Hcr).
  destruct raw_event_payload as (Hstart & Htrim & Htruthy & _).
  unfold Client.parseSsePayloadFromText.
  rewrite (replace_crlf_plain _ Hcr).
  unfold split_blank. rewrite (split_blank_acc_single _ "" Hlf).
  cbn [rev append flat_map]. rewrite app_nil_r.
  unfold split_lf. rewrite (split_lf_acc_single _ "" Hlf).
  cbn [rev append flat_map]. rewrite app_nil_r.
  rewrite Hstart, Htrim. rewrite <- truthy_nonempty, Htruthy. reflexivity.
Qed.

(** So does the remote adapter's reader. *)
Lemma dataLines_frame : RemoteProvider.dataLines (raw_event data) = [data].
Proof.
  destruct raw_event_lines as (Hlf & _).
  destruct raw_event_payload as (Hstart & Htrim & Htruthy & _).
  unfold RemoteProvider.dataLines.
  unfold split_lf. rewrite (split_lf_acc_single _ "" Hlf).
  cbn [rev append filter]. rewrite Hstart. cbn [map filter].
  now rewrite Htrim, Htruthy.
Qed.

(** The payload is read back as the event. *)
Lemma data_is_event :
  Json.parse data = Some (json_of_event e)
  /\ StreamEventSchema_parse is_datetime (json_of_event e) = Some e.
Proof.
  split; [apply parse_stringify_event | now apply StreamEventSchema_parse_json].
Qed.

Lemma data_events_frame : Client.data_events is_datetime data = [e].
Proof.
  destruct raw_event_payload as (_ & _ & Htruthy & Hdone).
  destruct data_is_event as (Hp & Hs).
  unfold Client.data_events. rewrite Hdone, Hp, Hs.
  unfold truthy in Htruthy. apply negb_true_iff in Htruthy. now rewrite Htruthy.
Qed.

Lemma payload_events_frame : RemoteProvider.payload_events is_datetime data = [e].
Proof.
  destruct raw_event_payload as (_ & _ & _ & Hdone).
  destruct data_is_event as (Hp & Hs).
  unfold RemoteProvider.payload_events. now rewrite Hdone, Hp, Hs.
Qed.

(** What the encoder writes for the event. *)
Lemma encoded_frame : AgentServer.writeSSE data = whole_frame data.
Proof. unfold data. rewrite writeSSE_event. reflexivity. Qed.

End OneEvent.

(** C2, as the claim states it, fails for an event the schema
    refuses.  The handler of [/v1/chat.stream] builds the error event
    from the message of the [Error] it caught; for an empty message
    the frame it writes is read back by the client as a token that
    holds the JSON text, and by the remote adapters' reader as
    nothing: neither yields the event. *)
Lemma empty_error_is_not_read_back :
  emitted (Client.chatStream (fun _ => true) "thread-1"
             (inr (mkResponse true 200 (Some "text/event-stream")
                     (Some [AgentServer.writeSSE
                              (stringify_event (error "provider_error" "" false))])))
             (mkWorld (fun _ => "id") (fun _ => "2026-01-01T00:00:00Z") 0 0))
  = [token (dq "{'type':'error','code':'provider_error','message':'','retryable':false}")]
  /\ RemoteProvider.parseSseEvents (fun _ => true)
       (mkResponse true 200 (Some "text/event-stream")
          (Some [AgentServer.writeSSE (stringify_event (error "provider_error" "" false))]))
     = []
  /\ StreamEvent_valid (fun _ => true) (error "provider_error" "" false) = false.
Proof. vm_compute. repeat split. Qed.

(** C2, amended.  Take an event that meets the schema.  The server writes it as
    one frame: [data: ], the event as JSON, a blank line.  Cut the
    bytes of that frame into chunks in any way (in the middle of the
    frame, of a line, of a multi-byte character; empty chunks
    included) and let the client read them: the client's reader finds
    one payload, and [chatStream] yields exactly one event, the event
    that was written.  The reader of the remote adapters
    ([parseSseEvents]) does the same.  Strings are read as UTF-8 text
    and sizes as integers written in decimal. *)
Theorem sse_round_trip (is_datetime : string -> bool) (e : StreamEvent)
        (chunks : list string) (status : nat) (tid : string) (w : World) :
  StreamEvent_valid is_datetime e = true ->
  concat_chunks chunks = AgentServer.writeSSE (stringify_event e) ->
  let response := mkResponse true status (Some "text/event-stream") (Some chunks) in
  Client.parseSseData response = [stringify_event e]
  /\ emitted (Client.chatStream is_datetime tid (inr response) w) = [e]
  /\ RemoteProvider.parseSseEvents is_datetime response = [e].
Proof.
  intros Hv Hc response.
  rewrite encoded_frame in Hc.
  destruct (read_all_view chunks) as (plain & Hplain & Hf & Hb & Hd).
  { rewrite Hc. apply ends_complete_blank. }
  rewrite Hc in Hplain.
  change (strip_bom (whole_frame (stringify_event e)))
    with (whole_frame (stringify_event e)) in Hplain.
  pose proof (plain_all_frame _ (data_printable e) plain Hplain) as Hread.
  rewrite Hread in Hf, Hb, Hd.
  cbn [p_frames p_buffer p_held truthy is_empty negb] in Hf, Hb, Hd.
  assert (Hdata : Client.parseSseData response = [stringify_event e]).
  { unfold Client.parseSseData, response. cbn [body]. rewrite Hf, Hb, Hd.
    cbn [flat_map append].
    rewrite (parseSsePayloadFromText_frame e).
    reflexivity. }
  split; [exact Hdata|]. split.
  - unfold Client.chatStream. cbn [ok negb contentType content_type response].
    change (includes "text/event-stream" "text/event-stream") with true. cbn [negb].
    fold response. rewrite Hdata. cbn [flat_map]. rewrite app_nil_r.
    rewrite (data_events_frame is_datetime e Hv).
    reflexivity.
  - unfold RemoteProvider.parseSseEvents, response. cbn [body]. rewrite Hf.
    cbn [flat_map]. rewrite app_nil_r.
    rewrite (dataLines_frame e). cbn [flat_map]. rewrite app_nil_r.
    apply (payload_events_frame is_datetime e Hv).
Qed.

(** The token "é" (two bytes in UTF-8), its frame cut inside the
    property name, between the two bytes of the character, and between
    the two line feeds that end the frame. *)
Definition e_acute : string := String (ascii_of_N 195) (str1 (ascii_of_N 169)).

Lemma sse_round_trip_witness :
  emitted (Client.chatStream (fun _ => true) "thread-1"
             (inr (mkResponse true 200 (Some "text/event-stream")
                     (Some [dq "data: {'ty";
                            (dq "pe':'token','text':'" ++ str1 (ascii_of_N 195))%string;
                            (String (ascii_of_N 169) (dq "'}") ++ str1 LF)%string;
                            "";
                            str1 LF])))
             FailureMessage.sample_world)
  = [token e_acute].
Proof.
  exact (proj1 (proj2 (sse_round_trip (fun _ => true) (token e_acute)
                         [dq "data: {'ty";
                          (dq "pe':'token','text':'" ++ str1 (ascii_of_N 195))%string;
                          (String (ascii_of_N 169) (dq "'}") ++ str1 LF)%string;
                          "";
                          str1 LF]
                         200 "thread-1" FailureMessage.sample_world eq_refl eq_refl))).
Defined.

End SseRoundTrip.

(** ** Reading a whole stream *)

Module SseStream.
Import GenFacts JsonFacts TrimFacts SseReader SseRoundTrip SchemaFacts JsonRoundTrip.

(** The text does not end inside a multi-byte character: it is empty
    or its last byte is an ASCII one. *)
Definition ends_ascii (t : string) : bool :=
  match rev t with
  | EmptyString => true
  | String a _ => N.ltb (N_of_ascii a) 128
  end.

(** The [data:] payloads of the lines of one block. *)
Definition block_payloads (block : string) : list string :=
  flat_map (fun line =>
              if startsWith line "data:" then
                let item := trim (drop 5 line) in
                if ProviderSdk.nonempty item then [item] else []
              else [])
           (split_lf block).

Lemma parseSsePayloadFromText_blocks (payload : string) :
  Client.parseSsePayloadFromText payload
  = flat_map block_payloads (split_blank (replace_crlf payload)).
Proof. reflexivity. Qed.

Lemma free_of_append (c : ascii) (a b : string) :
  free_of c (a ++ b) = free_of c a && free_of c b.
Proof. apply string_forall_append. Qed.

Lemma free_of_take (c : ascii) (n : nat) (s : string) :
  free_of c s = true -> free_of c (take n s) = true.
Proof.
  intros H. rewrite <- (take_drop n s), free_of_append in H.
  now apply andb_true_iff in H as [H _].
Qed.

Lemma free_of_drop (c : ascii) (n : nat) (s : string) :
  free_of c s = true -> free_of c (drop n s) = true.
Proof.
  intros H. rewrite <- (take_drop n s), free_of_append in H.
  now apply andb_true_iff in H as [_ H].
Qed.

Lemma length_drop (n : nat) : forall s,
  String.length (drop n s) = String.length s - n.
Proof. induction n as [|n IH]; intros [|c s]; simpl; auto. Qed.

Lemma length_take (n : nat) : forall s, String.length (take n s) <= n.
Proof.
  induction n as [|n IH]; intros [|c s]; simpl; try lia.
  specialize (IH s). lia.
Qed.

Lemma take_append_le (k : nat) : forall b x,
  k <= String.length b -> take k (b ++ x) = take k b.
Proof.
  induction k as [|k IH]; intros [|c b] x H; simpl in *; try lia.
  - now destruct x.
  - reflexivity.
  - rewrite IH by lia. reflexivity.
Qed.

Lemma drop_append_le (k : nat) : forall b x,
  k <= String.length b -> drop k (b ++ x) = (drop k b ++ x)%string.
Proof.
  induction k as [|k IH]; intros [|c b] x H; simpl in *; try lia; try reflexivity.
  apply IH. lia.
Qed.

Lemma has_prefix_length (p : string) : forall s,
  has_prefix p s = true -> String.length p <= String.length s.
Proof.
  induction p as [|a p IH]; intros [|c s] H; simpl in *; try lia; try discriminate.
  apply andb_true_iff in H as [_ H]. specialize (IH _ H). lia.
Qed.

Lemma has_prefix_append_eq (p : string) : forall b x,
  String.length p <= String.length b -> has_prefix p (b ++ x) = has_prefix p b.
Proof.
  induction p as [|a p IH]; intros [|c b] x H; simpl in *; try lia; try reflexivity.
  rewrite IH by lia. reflexivity.
Qed.

Lemma indexOf_bound (p : string) (s : string) : forall k,
  indexOf s p = Some k -> k + String.length p <= String.length s.
Proof.
  induction s as [|c s IH]; intros k H.
  - cbn [indexOf] in H. destruct (has_prefix p "") eqn:E; [|discriminate].
    injection H as <-. apply has_prefix_length in E. simpl in *. lia.
  - cbn [indexOf] in H. destruct (has_prefix p (String c s)) eqn:E.
    + injection H as <-. apply has_prefix_length in E. simpl in *. lia.
    + destruct (indexOf s p) as [j|]; [|discriminate].
      injection H as <-. specialize (IH j eq_refl). simpl. lia.
Qed.

(** The first occurrence in a text is the first in any text that
    continues it. *)
Lemma indexOf_append_some (p : string) (b x : string) : forall k,
  indexOf b p = Some k -> indexOf (b ++ x) p = Some k.
Proof.
  induction b as [|c b IH]; intros k H.
  - cbn [indexOf] in H. destruct (has_prefix p "") eqn:E; [|discriminate].
    destruct p; [|discriminate]. injection H as <-. cbn [append].
    destruct x; reflexivity.
  - pose proof (indexOf_bound _ _ _ H) as Hb.
    cbn [indexOf] in H. cbn [append indexOf].
    change (String c (b ++ x)) with (String c b ++ x)%string.
    rewrite has_prefix_append_eq by lia.
    destruct (has_prefix p (String c b)); [exact H|].
    destruct (indexOf b p) as [j|]; [|discriminate].
    now rewrite (IH j eq_refl).
Qed.

Lemma indexOf_take_first (p : string) (b : string) (k : nat) :
  p <> "" -> indexOf b p = Some k -> indexOf (take k b) p = None.
Proof.
  intros Hp H. destruct (indexOf (take k b) p) as [j|] eqn:E; [|reflexivity].
  pose proof (indexOf_bound _ _ _ E) as Hb.
  apply (indexOf_append_some _ _ (drop k b)) in E. rewrite take_drop in E.
  rewrite H in E. injection E as <-.
  pose proof (length_take k b). destruct p; [contradiction|]. simpl in Hb. lia.
Qed.

Lemma indexOf_blank_nil : indexOf "" BLANK = None.
Proof. reflexivity. Qed.

Lemma indexOf_blank_cons (c : ascii) (r : string) :
  indexOf (String c r) BLANK
  = if Ascii.eqb c LF && has_prefix (str1 LF) r then Some 0
    else option_map S (indexOf r BLANK).
Proof.
  cbn [indexOf BLANK has_prefix]. rewrite (Ascii.eqb_sym LF c). reflexivity.
Qed.

(** [split("\n\n")] and the search for the first blank line cut a
    text at the same places. *)
Lemma split_blank_acc_none (b : string) : forall cur,
  indexOf b BLANK = None -> split_blank_acc cur b = [(rev cur ++ b)%string].
Proof.
  induction b as [|c r IH]; intros cur H.
  - cbn [split_blank_acc]. now rewrite append_nil_r.
  - rewrite indexOf_blank_cons in H. cbn [split_blank_acc].
    destruct r as [|d r'].
    + reflexivity.
    + cbn [has_prefix str1] in H. rewrite (Ascii.eqb_sym LF d), andb_true_r in H.
      destruct (Ascii.eqb c LF && Ascii.eqb d LF); [discriminate|].
      destruct (indexOf (String d r') BLANK) eqn:E; simpl in H; [discriminate|].
      rewrite (IH _ eq_refl). cbn [rev]. now rewrite append_assoc.
Qed.

Lemma split_blank_acc_some (b : string) : forall cur k,
  indexOf b BLANK = Some k ->
  split_blank_acc cur b = (rev cur ++ take k b)%string :: split_blank (drop (k + 2) b).
Proof.
  induction b as [|c r IH]; intros cur k H.
  - discriminate.
  - rewrite indexOf_blank_cons in H. cbn [split_blank_acc].
    destruct r as [|d r'].
    + cbn [has_prefix str1] in H. rewrite andb_false_r in H. simpl in H. discriminate.
    + cbn [has_prefix str1] in H. rewrite (Ascii.eqb_sym LF d), andb_true_r in H.
      destruct (Ascii.eqb c LF && Ascii.eqb d LF).
      * injection H as <-. cbn [take drop Nat.add]. now rewrite append_nil_r.
      * destruct (indexOf (String d r') BLANK) as [j|] eqn:E; simpl in H; [|discriminate].
        injection H as <-. rewrite (IH (String c cur) j eq_refl).
        cbn [rev take drop Nat.add]. now rewrite append_assoc.
Qed.

(** *** Taking frames off a text without carriage returns *)

Lemma take_frames_plain (f : nat) (b : string) :
  free_of CR b = true ->
  take_frames (S f) b
  = match indexOf b BLANK with
    | None => ([], b)
    | Some k => let '(more, rest) := take_frames f (drop (k + 2) b) in
                (take k b :: more, rest)
    end.
Proof. intros H. cbn [take_frames]. now rewrite (replace_crlf_plain _ H). Qed.

(** The loop stops by itself: any fuel above half the length gives the
    same frames. *)
Lemma take_frames_fuel (f1 : nat) : forall f2 b,
  free_of CR b = true ->
  String.length b < 2 * f1 -> String.length b < 2 * f2 ->
  take_frames f1 b = take_frames f2 b.
Proof.
  induction f1 as [|f1 IH]; intros f2 b Hcr H1 H2; [lia|].
  destruct f2 as [|f2]; [lia|].
  rewrite !take_frames_plain by exact Hcr.
  destruct (indexOf b BLANK) as [k|] eqn:E; [|reflexivity].
  pose proof (indexOf_bound _ _ _ E) as Hk. cbn [String.length BLANK str1] in Hk.
  rewrite (IH f2); [reflexivity | now apply free_of_drop | |];
    rewrite length_drop; lia.
Qed.

Lemma take_frames_append (f1 : nat) : forall D text f2 f3,
  free_of CR (D ++ text) = true ->
  String.length D < 2 * f1 ->
  String.length (snd (take_frames f1 D) ++ text) < 2 * f2 ->
  String.length (D ++ text) < 2 * f3 ->
  take_frames f3 (D ++ text)
  = (fst (take_frames f1 D) ++ fst (take_frames f2 (snd (take_frames f1 D) ++ text)),
     snd (take_frames f2 (snd (take_frames f1 D) ++ text))).
Proof.
  induction f1 as [|f1 IH]; intros D text f2 f3 Hcr H1 H2 H3; [lia|].
  assert (HcrD : free_of CR D = true).
  { rewrite free_of_append in Hcr. now apply andb_true_iff in Hcr as [Hcr _]. }
  rewrite (take_frames_plain f1 D HcrD) in *.
  destruct (indexOf D BLANK) as [k|] eqn:E.
  - pose proof (indexOf_bound _ _ _ E) as Hk. cbn [String.length BLANK str1] in Hk.
    destruct f3 as [|f3]; [rewrite length_append in H3; lia|].
    rewrite (take_frames_plain f3 _ Hcr).
    rewrite (indexOf_append_some _ _ text _ E).
    rewrite take_append_le by lia. rewrite drop_append_le by lia.
    destruct (take_frames f1 (drop (k + 2) D)) as [more rest] eqn:Et.
    cbn [fst snd] in *.
    rewrite (IH (drop (k + 2) D) text f2 f3).
    + rewrite Et. cbn [fst snd app]. reflexivity.
    + rewrite <- drop_append_le by lia. now apply free_of_drop.
    + rewrite length_drop. lia.
    + rewrite Et. exact H2.
    + rewrite length_append, length_drop. rewrite length_append in H3. lia.
  - cbn [fst snd app] in *. rewrite <- surjective_pairing.
    now apply take_frames_fuel.
Qed.

(** What the loop finds in a whole text. *)
Definition batch (D : string) : list string * string :=
  take_frames (S (String.length D)) D.

Lemma batch_split_fuel (f : nat) : forall T,
  free_of CR T = true -> String.length T < 2 * f ->
  split_blank T = fst (take_frames f T) ++ [snd (take_frames f T)]
  /\ Forall (fun x => free_of CR x = true /\ indexOf x BLANK = None)
            (fst (take_frames f T) ++ [snd (take_frames f T)]).
Proof.
  induction f as [|f IH]; intros T Hcr Hf; [lia|].
  rewrite (take_frames_plain f T Hcr).
  destruct (indexOf T BLANK) as [k|] eqn:E.
  - pose proof (indexOf_bound _ _ _ E) as Hk. cbn [String.length BLANK str1] in Hk.
    destruct (IH (drop (k + 2) T)) as (Hs & Hall).
    { now apply free_of_drop. }
    { rewrite length_drop. lia. }
    destruct (take_frames f (drop (k + 2) T)) as [more rest]. cbn [fst snd app] in *.
    split.
    + unfold split_blank at 1. rewrite (split_blank_acc_some _ _ _ E).
      cbn [rev append]. now rewrite Hs.
    + constructor; [|exact Hall]. split.
      * now apply free_of_take.
      * apply indexOf_take_first; [discriminate | exact E].
  - cbn [fst snd app]. split.
    + unfold split_blank. now rewrite (split_blank_acc_none _ _ E).
    + constructor; [auto | constructor].
Qed.

Lemma batch_split (T : string) :
  free_of CR T = true ->
  split_blank T = fst (batch T) ++ [snd (batch T)]
  /\ Forall (fun x => free_of CR x = true /\ indexOf x BLANK = None)
            (fst (batch T) ++ [snd (batch T)]).
Proof. intros H. apply batch_split_fuel; [exact H | lia]. Qed.

(** A block with no blank line in it is read as one block. *)
Lemma parseSsePayloadFromText_block (x : string) :
  free_of CR x = true -> indexOf x BLANK = None ->
  Client.parseSsePayloadFromText x = block_payloads x.
Proof.
  intros Hcr Hn. rewrite parseSsePayloadFromText_blocks, (replace_crlf_plain _ Hcr).
  unfold split_blank. rewrite (split_blank_acc_none _ _ Hn).
  cbn [rev append flat_map]. apply app_nil_r.
Qed.

Lemma flat_map_blocks (l : list string) :
  Forall (fun x => free_of CR x = true /\ indexOf x BLANK = None) l ->
  flat_map Client.parseSsePayloadFromText l = flat_map block_payloads l.
Proof.
  induction 1 as [|x l [Hcr Hn] _ IH]; [reflexivity|].
  cbn [flat_map]. now rewrite IH, parseSsePayloadFromText_block.
Qed.

(** The remote adapters' reader finds the same payloads in a block. *)
Lemma dataLines_block (x : string) : RemoteProvider.dataLines x = block_payloads x.
Proof.
  unfold RemoteProvider.dataLines, block_payloads.
  induction (split_lf x) as [|line l IH]; [reflexivity|].
  cbn [filter flat_map map]. destruct (startsWith line "data:").
  - cbn [map filter]. rewrite IH, truthy_nonempty.
    now destruct (ProviderSdk.nonempty (trim (drop 5 line))).
  - exact IH.
Qed.

(** *** The streaming decoder *)

Lemma ends_ascii_append (x chunk : string) :
  chunk <> "" -> ends_ascii (x ++ chunk) = ends_ascii chunk.
Proof.
  intros H. unfold ends_ascii. rewrite rev_append.
  destruct (rev chunk) as [|a r] eqn:E; [|reflexivity].
  apply (f_equal rev) in E. rewrite rev_involutive in E. contradiction.
Qed.

Lemma ends_ascii_complete (t : string) : ends_ascii t = true -> ends_complete t = true.
Proof.
  unfold ends_ascii, ends_complete. intros H.
  destruct (rev t) as [|a r]; [reflexivity|].
  apply N.ltb_lt in H. unfold pending_len, sequence_length, continuation, in_range.
  assert (E1 : N.leb 192 (N_of_ascii a) = false) by (apply N.leb_gt; lia).
  assert (E2 : N.leb 224 (N_of_ascii a) = false) by (apply N.leb_gt; lia).
  assert (E3 : N.leb 240 (N_of_ascii a) = false) by (apply N.leb_gt; lia).
  assert (E4 : N.leb 128 (N_of_ascii a) = false) by (apply N.leb_gt; lia).
  rewrite E1, E2, E3, E4. reflexivity.
Qed.

(** Nothing is held back at the end of a text that does not end
    inside a character. *)
Lemma decode_bytes_complete_end (held chunk : string) :
  ends_complete (held ++ chunk) = true ->
  decode_bytes held chunk = ((held ++ chunk)%string, "").
Proof.
  unfold ends_complete, decode_bytes. intros H. apply Nat.eqb_eq in H.
  rewrite H, Nat.sub_0_r, take_all, drop_all. reflexivity.
Qed.

Lemma free_of_prefix_of (c : ascii) (a b x y : string) :
  (a ++ b)%string = (x ++ y)%string -> free_of c (x ++ y) = true -> free_of c a = true.
Proof.
  intros E H. rewrite <- E, free_of_append in H. now apply andb_true_iff in H as [H _].
Qed.

(** One turn of the reader keeps it in step with the text decoded so
    far: the frames found and the buffer are those of that text. *)
Lemma plain_chunk_sync (st : Plain) (D chunk : string) :
  free_of CR ((D ++ p_held st) ++ chunk) = true ->
  batch D = (p_frames st, p_buffer st) ->
  exists D',
    batch D' = (p_frames (plain_chunk st chunk), p_buffer (plain_chunk st chunk))
    /\ (D' ++ p_held (plain_chunk st chunk))%string = ((D ++ p_held st) ++ chunk)%string
    /\ (ends_complete ((D ++ p_held st) ++ chunk) = true ->
        p_held (plain_chunk st chunk) = "").
Proof.
  intros Hcr Hb. unfold plain_chunk.
  pose proof (decode_bytes_joins (p_held st) chunk) as Hj.
  destruct (decode_bytes (p_held st) chunk) as [text held'] eqn:Ed. cbn [fst snd] in Hj.
  assert (Hjoin : ((D ++ text) ++ held')%string = ((D ++ p_held st) ++ chunk)%string)
    by (now rewrite !append_assoc, Hj).
  assert (HcrD : free_of CR (D ++ text) = true)
    by (exact (free_of_prefix_of _ _ _ _ _ Hjoin Hcr)).
  pose proof (take_frames_append (S (String.length D)) D text
                (S (String.length (p_buffer st ++ text)))
                (S (String.length (D ++ text))) HcrD) as Ha.
  fold (batch D) in Ha. fold (batch (D ++ text)) in Ha. rewrite Hb in Ha. cbn [fst snd] in Ha.
  specialize (Ha ltac:(lia) ltac:(lia) ltac:(lia)).
  destruct (take_frames (S (String.length (p_buffer st ++ text))) (p_buffer st ++ text))
    as [found rest] eqn:Et.
  cbn [fst snd] in Ha. cbn [p_frames p_buffer p_held].
  exists (D ++ text)%string. split; [exact Ha|]. split; [exact Hjoin|].
  intros He. rewrite append_assoc in He. apply ends_complete_suffix in He.
  rewrite (decode_bytes_complete_end _ _ He) in Ed. now injection Ed as _ <-.
Qed.

Lemma plain_all_sync (chunks : list string) : forall st D,
  free_of CR ((D ++ p_held st) ++ concat_chunks chunks) = true ->
  batch D = (p_frames st, p_buffer st) ->
  (ends_complete (D ++ p_held st) = true -> p_held st = "") ->
  exists D',
    batch D' = (p_frames (fold_left plain_chunk chunks st),
                p_buffer (fold_left plain_chunk chunks st))
    /\ (D' ++ p_held (fold_left plain_chunk chunks st))%string
       = ((D ++ p_held st) ++ concat_chunks chunks)%string
    /\ (ends_complete ((D ++ p_held st) ++ concat_chunks chunks) = true ->
        p_held (fold_left plain_chunk chunks st) = "").
Proof.
  induction chunks as [|c tl IH]; intros st D Hcr Hb Hh.
  - cbn [concat_chunks fold_right fold_left]. rewrite append_nil_r.
    exists D. auto.
  - cbn [concat_chunks fold_right fold_left] in *. fold (concat_chunks tl) in *.
    rewrite <- append_assoc in Hcr.
    destruct (plain_chunk_sync st D c) as (D1 & Hb1 & Hj1 & Hh1); trivial.
    { exact (free_of_prefix_of _ _ _ _ _ eq_refl Hcr). }
    destruct (IH (plain_chunk st c) D1) as (D2 & Hb2 & Hj2 & Hh2); trivial.
    { now rewrite Hj1. }
    { now rewrite Hj1. }
    exists D2. rewrite Hj1 in Hj2, Hh2. rewrite <- append_assoc.
    auto.
Qed.

(** The plain reader's state at the end of a text that has no
    carriage return and does not end inside a character. *)
Lemma plain_all_batch (chunks : list string) :
  free_of CR (concat_chunks chunks) = true ->
  ends_complete (concat_chunks chunks) = true ->
  plain_all chunks
  = mkPlain "" (snd (batch (concat_chunks chunks))) (fst (batch (concat_chunks chunks))).
Proof.
  intros Hcr He. unfold plain_all.
  destruct (plain_all_sync chunks (mkPlain "" "" []) "") as (D & Hb & Hj & Hh);
    try (cbn [p_held append]; trivial; fail).
  cbn [p_held append] in Hj, Hh. specialize (Hh He).
  rewrite Hh, append_nil_r in Hj. subst D.
  destruct (fold_left plain_chunk chunks (mkPlain "" "" [])) as [h b f].
  cbn [p_held p_buffer p_frames] in *. subst h. rewrite Hb. reflexivity.
Qed.

(** The reader's frames and buffer at the end of such a text: those
    of the text less its byte order mark, and nothing left in the
    decoder. *)
Lemma read_all_batch (chunks : list string) :
  free_of CR (concat_chunks chunks) = true ->
  ends_complete (concat_chunks chunks) = true ->
  let text := strip_bom (concat_chunks chunks) in
  frames (read_all chunks) = fst (batch text)
  /\ buffer (read_all chunks) = snd (batch text)
  /\ decode_end (decoder (read_all chunks)) = "".
Proof.
  intros Hcr He text.
  destruct (read_all_view chunks He) as (plain & Hc & Hf & Hb & Hd).
  assert (Hcr' : free_of CR (concat_chunks plain) = true).
  { rewrite Hc. unfold strip_bom. destruct (has_prefix BOM _); [|exact Hcr].
    now apply free_of_drop. }
  assert (He' : ends_complete (concat_chunks plain) = true)
    by (rewrite Hc; now apply ends_complete_strip).
  rewrite (plain_all_batch plain Hcr' He') in Hf, Hb, Hd.
  cbn [p_frames p_buffer p_held truthy is_empty negb] in Hf, Hb, Hd.
  rewrite Hc in Hf, Hb. auto.
Qed.

Lemma free_of_strip_bom (c : ascii) (t : string) :
  free_of c t = true -> free_of c (strip_bom t) = true.
Proof.
  intros H. unfold strip_bom. destruct (has_prefix BOM t); [|exact H].
  now apply free_of_drop.
Qed.

Lemma reader_payloads_by_block (chunks : list string) :
  free_of CR (concat_chunks chunks) = true ->
  ends_complete (concat_chunks chunks) = true ->
  forall ok status ct,
  Client.parseSseData (mkResponse ok status ct (Some chunks))
  = flat_map block_payloads (split_blank (strip_bom (concat_chunks chunks))).
Proof.
  intros Hcr He ok status ct. unfold Client.parseSseData. cbn [body].
  destruct (read_all_batch chunks Hcr He) as (Hf & Hb & Hd).
  rewrite Hf, Hb, Hd, append_nil_r.
  destruct (batch_split _ (free_of_strip_bom CR _ Hcr)) as (Hs & Hall).
  rewrite Hs, flat_map_app. cbn [flat_map]. rewrite app_nil_r.
  apply Forall_app in Hall as [Hfr Hr]. inversion Hr as [|x l [Hx1 Hx2] _]; subst.
  now rewrite (flat_map_blocks _ Hfr), (parseSsePayloadFromText_block _ Hx1 Hx2).
Qed.

(** Reading a body chunk by chunk finds the payloads that reading the
    whole text at once finds: wherever the chunks are cut, the client's
    streaming reader yields what [parseSsePayloadFromText] yields for
    [response.text()], the text the chunks make up less the byte order
    mark it may start with.  The body has no carriage return and does
    not end inside a multi-byte character. *)
Theorem chunked_reading_agrees_with_text (chunks : list string)
        (ok : bool) (status : nat) (ct : option string) :
  free_of CR (concat_chunks chunks) = true ->
  ends_complete (concat_chunks chunks) = true ->
  Client.parseSseData (mkResponse ok status ct (Some chunks))
  = Client.parseSsePayloadFromText (response_text (mkResponse ok status ct (Some chunks))).
Proof.
  intros Hcr He.
  rewrite (reader_payloads_by_block chunks Hcr He).
  unfold response_text. cbn [body].
  now rewrite parseSsePayloadFromText_blocks,
              (replace_crlf_plain _ (free_of_strip_bom CR _ Hcr)).
Qed.

(** Three payloads behind a byte order mark, the body cut inside the
    mark, inside a blank line, inside [data:], inside a line and
    inside the two bytes of "é". *)
Lemma chunked_reading_agrees_with_text_witness :
  Client.parseSseData
    (mkResponse true 200 None
       (Some [String (ascii_of_N 239) (str1 (ascii_of_N 187));
              (String (ascii_of_N 191) "data: a" ++ str1 LF)%string;
              (String LF "da");
              ("ta: b" ++ String LF (String LF "data: c") ++ str1 (ascii_of_N 195))%string;
              ""; String (ascii_of_N 169) "c"]))
  = ["a"; "b"; String "c" (String (ascii_of_N 195) (String (ascii_of_N 169) "c"))].
Proof.
  exact (eq_trans
           (chunked_reading_agrees_with_text
              [String (ascii_of_N 239) (str1 (ascii_of_N 187));
               (String (ascii_of_N 191) "data: a" ++ str1 LF)%string;
               (String LF "da");
               ("ta: b" ++ String LF (String LF "data: c") ++ str1 (ascii_of_N 195))%string;
               ""; String (ascii_of_N 169) "c"]
              true 200 None eq_refl eq_refl)
           eq_refl).
Defined.

Lemma flat_map_flat_map {A B C} (f : A -> list B) (g : B -> list C) (l : list A) :
  flat_map (fun x => flat_map g (f x)) l = flat_map g (flat_map f l).
Proof.
  induction l as [|x l IH]; [reflexivity|].
  cbn [flat_map]. now rewrite flat_map_app, IH.
Qed.

(** The two readers on the same body, one without carriage return
    that does not end inside a multi-byte character.  Both find the
    payloads of every block of the text ([response.text()], the body
    less the byte order mark it may start with) that a blank line
    closes.  What follows the last blank line is read by the client as
    one more block; the remote adapters' [parseSseEvents] drops it. *)
Theorem remote_reader_drops_the_tail (is_datetime : string -> bool)
        (chunks : list string) (ok : bool) (status : nat) (ct : option string) :
  free_of CR (concat_chunks chunks) = true ->
  ends_complete (concat_chunks chunks) = true ->
  let response := mkResponse ok status ct (Some chunks) in
  let blocks := split_blank (response_text response) in
  RemoteProvider.parseSseEvents is_datetime response
  = flat_map (RemoteProvider.payload_events is_datetime)
             (flat_map block_payloads (removelast blocks))
  /\ Client.parseSseData response
     = flat_map block_payloads (removelast blocks) ++ block_payloads (last blocks "").
Proof.
  intros Hcr He response blocks.
  destruct (batch_split _ (free_of_strip_bom CR _ Hcr)) as (Hs & Hall).
  unfold blocks, response, response_text. cbn [body].
  rewrite Hs, removelast_last, last_last. split.
  - unfold RemoteProvider.parseSseEvents. cbn [body].
    destruct (read_all_batch chunks Hcr He) as (Hf & _). rewrite Hf.
    rewrite flat_map_flat_map. f_equal.
    apply flat_map_ext. intros x. apply dataLines_block.
  - rewrite (reader_payloads_by_block chunks Hcr He).
    rewrite Hs, flat_map_app. cbn [flat_map]. now rewrite app_nil_r.
Qed.

Lemma remote_reader_drops_the_tail_witness :
  RemoteProvider.parseSseEvents (fun _ => true)
    (mkResponse true 200 None
       (Some [("data: a" ++ String LF (String LF "da"))%string; "ta: b"]))
  = [token "a"]
  /\ Client.parseSseData
       (mkResponse true 200 None
          (Some [("data: a" ++ String LF (String LF "da"))%string; "ta: b"]))
     = ["a"; "b"].
Proof.
  exact (match remote_reader_drops_the_tail (fun _ => true)
                 [("data: a" ++ String LF (String LF "da"))%string; "ta: b"]
                 true 200 None eq_refl eq_refl with
         | conj H1 H2 => conj (eq_trans H1 eq_refl) (eq_trans H2 eq_refl)
         end).
Defined.

(** *** From the endpoint to the client *)

(** A payload as the endpoint writes it: one line of printable
    characters that [trim] leaves alone. *)
Definition payload_ok (d : string) : Prop :=
  string_forall printable d = true /\ trim (String " " d) = d /\ truthy d = true.

Definition frame_text (d : string) : string := ("data: " ++ d ++ BLANK)%string.

Lemma payload_ok_event (e : StreamEvent) : payload_ok (stringify_event e).
Proof.
  split; [apply stringify_printable|].
  destruct (stringify_event_braces e) as (body & ->).
  split; [apply trim_after_blank | reflexivity].
Qed.

Lemma payload_ok_done : payload_ok "[DONE]".
Proof. repeat split; reflexivity. Qed.

Lemma block_payloads_frame (d : string) :
  payload_ok d -> block_payloads ("data: " ++ d) = [d].
Proof.
  intros (Hp & Ht & Hn). unfold block_payloads, split_lf.
  rewrite split_lf_acc_single.
  - cbn [rev append flat_map]. rewrite app_nil_r.
    change (startsWith (String "d" (String "a" (String "t" (String "a" (String ":"
              (String " " d)))))) "data:") with true.
    cbn [drop]. rewrite Ht, <- truthy_nonempty, Hn. reflexivity.
  - apply printable_free_of_LF. change (string_forall printable ("data: " ++ d) = true).
    rewrite string_forall_append, Hp. reflexivity.
Qed.

Lemma split_blank_acc_frame (q rest : string) : forall cur,
  free_of LF q = true ->
  split_blank_acc cur (q ++ String LF (String LF rest))
  = (rev cur ++ q)%string :: split_blank rest.
Proof.
  unfold free_of. induction q as [|c q IH]; intros cur H.
  - cbn [append split_blank_acc]. rewrite Ascii.eqb_refl. cbn [andb].
    now rewrite append_nil_r.
  - cbn [string_forall] in H. apply andb_true_iff in H as [Hc Hq].
    apply negb_true_iff in Hc. cbn [append split_blank_acc].
    specialize (IH (String c cur) Hq).
    destruct (q ++ String LF (String LF rest))%string as [|d r] eqn:E.
    + apply append_empty in E as [_ E]. discriminate.
    + rewrite Hc. cbn [andb]. rewrite IH.
      cbn [rev]. now rewrite append_assoc.
Qed.

Lemma split_blank_frames (ds : list string) :
  Forall payload_ok ds ->
  split_blank (concat_chunks (map frame_text ds))
  = map (fun d => ("data: " ++ d)%string) ds ++ [""].
Proof.
  induction 1 as [|d ds Hd _ IH]; [reflexivity|].
  cbn [map concat_chunks fold_right]. fold (concat_chunks (map frame_text ds)).
  unfold frame_text at 1. rewrite <- !append_assoc.
  change (("data: " ++ d) ++ BLANK)%string with (("data: " ++ d) ++ String LF (str1 LF))%string.
  rewrite append_assoc. cbn [append str1].
  change (String "d" (String "a" (String "t" (String "a" (String ":" (String " "
            (d ++ String LF (String LF (concat_chunks (map frame_text ds))))))))))
    with (("data: " ++ d) ++ String LF (String LF (concat_chunks (map frame_text ds))))%string.
  unfold split_blank at 1. rewrite split_blank_acc_frame.
  - cbn [rev app]. change ("" ++ ("data: " ++ d))%string with ("data: " ++ d)%string.
    now rewrite IH.
  - destruct Hd as (Hp & _). apply printable_free_of_LF.
    change (string_forall printable ("data: " ++ d) = true).
    rewrite string_forall_append, Hp. reflexivity.
Qed.

Lemma frames_payloads (ds : list string) :
  Forall payload_ok ds ->
  flat_map block_payloads (map (fun d => ("data: " ++ d)%string) ds) = ds.
Proof.
  induction 1 as [|d ds Hd _ IH]; [reflexivity|].
  cbn [map flat_map]. now rewrite (block_payloads_frame _ Hd), IH.
Qed.

Lemma frames_blocks (ds : list string) :
  Forall payload_ok ds ->
  flat_map block_payloads (split_blank (concat_chunks (map frame_text ds))) = ds.
Proof.
  intros H. rewrite (split_blank_frames ds H), flat_map_app, (frames_payloads ds H).
  cbn. apply app_nil_r.
Qed.

Lemma frames_plain (ds : list string) :
  Forall payload_ok ds ->
  free_of CR (concat_chunks (map frame_text ds)) = true
  /\ ends_ascii (concat_chunks (map frame_text ds)) = true.
Proof.
  induction 1 as [|d ds Hd _ [IH1 IH2]]; [split; reflexivity|].
  cbn [map concat_chunks fold_right]. fold (concat_chunks (map frame_text ds)).
  destruct Hd as (Hp & _). split.
  - rewrite free_of_append, IH1, andb_true_r. unfold frame_text.
    rewrite !free_of_append, (printable_free_of_CR _ Hp). reflexivity.
  - destruct (concat_chunks (map frame_text ds)) as [|c r] eqn:E.
    + rewrite append_nil_r. unfold frame_text. rewrite <- append_assoc.
      rewrite ends_ascii_append by discriminate. reflexivity.
    + rewrite ends_ascii_append by discriminate. exact IH2.
Qed.

Lemma frames_no_mark (ds : list string) :
  strip_bom (concat_chunks (map frame_text ds)) = concat_chunks (map frame_text ds).
Proof. destruct ds; reflexivity. Qed.

(** What the client makes of a body that is a run of such frames,
    however the body is cut into chunks. *)
Lemma client_reads_frames (is_datetime : string -> bool) (ds chunks : list string)
      (status : nat) (tid : string) (w : World) :
  Forall payload_ok ds ->
  concat_chunks chunks = concat_chunks (map frame_text ds) ->
  Client.chatStream is_datetime tid
    (inr (mkResponse true status (Some "text/event-stream") (Some chunks))) w
  = mkRun (flat_map (Client.data_events is_datetime) ds) (Returned tt) w.
Proof.
  intros Hds Hc. destruct (frames_plain ds Hds) as (Hcr & He).
  rewrite <- Hc in Hcr, He. apply ends_ascii_complete in He.
  unfold Client.chatStream. cbn [ok negb contentType content_type].
  change (includes "text/event-stream" "text/event-stream") with true. cbn [negb].
  rewrite (reader_payloads_by_block chunks Hcr He), Hc, frames_no_mark,
          (frames_blocks ds Hds).
  apply for_each_yield_id.
Qed.

Lemma writes_are_frame_texts (run : Run unit) :
  AgentServer.chat_stream_writes run
  = map frame_text
        (map stringify_event (emitted run)
         ++ match result run with
            | Returned _ => ["[DONE]"]
            | Threw t => [stringify_event (AgentServer.provider_error t)]
            | Pending => []
            end).
Proof.
  unfold AgentServer.chat_stream_writes. rewrite map_app, map_map. f_equal.
  - apply map_ext. intros e. rewrite writeSSE_event. unfold frame_text, BLANK, str1.
    reflexivity.
  - destruct (result run) as [u|t|]; [reflexivity | | reflexivity].
    cbn [map]. rewrite writeSSE_event. reflexivity.
Qed.

Lemma data_events_valid (is_datetime : string -> bool) (events : list StreamEvent) :
  Forall (fun e => StreamEvent_valid is_datetime e = true) events ->
  flat_map (Client.data_events is_datetime) (map stringify_event events) = events.
Proof.
  induction 1 as [|e events He _ IH]; [reflexivity|].
  cbn [map flat_map]. now rewrite (data_events_frame is_datetime e He), IH.
Qed.

Lemma payloads_ok (events : list StreamEvent) (tail : list string) :
  Forall payload_ok tail -> Forall payload_ok (map stringify_event events ++ tail).
Proof.
  intros H. apply Forall_app. split; [|exact H].
  induction events as [|e events IH]; constructor; [apply payload_ok_event | exact IH].
Qed.

(** The whole path of one turn.  The producer yields events that meet
    the schema and then returns, or fails with a message that is not
    empty; the endpoint writes its frames; the bytes reach the client
    cut into chunks in any way.  [chatStream] then yields exactly the
    producer's events, in order, followed by the [provider_error]
    event when the producer failed, and returns: the [DONE] marker
    yields nothing. *)
Theorem endpoint_to_client (is_datetime : string -> bool) (run : Run unit)
        (chunks : list string) (status : nat) (tid : string) (w : World) :
  Forall (fun e => StreamEvent_valid is_datetime e = true) (emitted run) ->
  result run <> Pending ->
  (forall t, result run = Threw t -> message_or t "Unknown provider error" <> "") ->
  concat_chunks chunks = concat_chunks (AgentServer.chat_stream_writes run) ->
  Client.chatStream is_datetime tid
    (inr (mkResponse true status (Some "text/event-stream") (Some chunks))) w
  = mkRun (AgentServer.chat_stream_events run) (Returned tt) w.
Proof.
  intros Hv Hp Hm Hc. rewrite writes_are_frame_texts in Hc.
  rewrite (client_reads_frames is_datetime _ chunks status tid w) with (2 := Hc).
  - f_equal. rewrite flat_map_app, (data_events_valid _ _ Hv).
    unfold AgentServer.chat_stream_events. f_equal.
    destruct (result run) as [u|t|] eqn:E; [reflexivity | | contradiction].
    cbn [flat_map]. rewrite app_nil_r.
    apply (data_events_frame is_datetime).
    unfold AgentServer.provider_error. cbn [StreamEvent_valid truthy is_empty negb andb].
    specialize (Hm t eq_refl). now destruct (message_or t "Unknown provider error").
  - apply payloads_ok.
    destruct (result run);
      [apply Forall_cons; [apply payload_ok_done | apply Forall_nil]
      |apply Forall_cons; [apply payload_ok_event | apply Forall_nil]
      |apply Forall_nil].
Qed.

Definition failing_run : Run unit :=
  mkRun [message_start "m-1" "thread-1" "2026-01-01T00:00:00Z"; typing true; token "hi"]
        (Threw (ErrorObject "boom")) FailureMessage.sample_world.

(** A producer that fails after three events; the client gets each
    write of the endpoint as one chunk. *)
Lemma endpoint_to_client_witness :
  Client.chatStream (fun _ => true) "thread-1"
    (inr (mkResponse true 200 (Some "text/event-stream")
            (Some (AgentServer.chat_stream_writes failing_run))))
    FailureMessage.sample_world
  = mkRun [message_start "m-1" "thread-1" "2026-01-01T00:00:00Z"; typing true; token "hi";
           error "provider_error" "boom" false]
          (Returned tt) FailureMessage.sample_world.
Proof.
  exact (endpoint_to_client (fun _ => true) failing_run
           (AgentServer.chat_stream_writes failing_run) 200 "thread-1"
           FailureMessage.sample_world
           ltac:(repeat (apply Forall_cons; [reflexivity|]); apply Forall_nil)
           ltac:(discriminate)
           ltac:(intros t H; injection H as <-; discriminate)
           eq_refl).
Defined.

(** What the remote adapters' [streamRemoteProvider] makes of such a
    body. *)
Lemma remote_reads_frames (is_datetime : string -> bool) (ds chunks : list string)
      (status : nat) (tid : string) (w : World) :
  Forall payload_ok ds ->
  concat_chunks chunks = concat_chunks (map frame_text ds) ->
  RemoteProvider.streamRemoteProvider is_datetime
    (inr (mkResponse true status (Some "text/event-stream") (Some chunks))) tid w
  = mkRun (flat_map (RemoteProvider.payload_events is_datetime) ds) (Returned tt) w.
Proof.
  intros Hds Hc. destruct (frames_plain ds Hds) as (Hcr & He).
  rewrite <- Hc in Hcr, He. apply ends_ascii_complete in He.
  unfold RemoteProvider.streamRemoteProvider. cbn [ok negb contentType content_type].
  change (includes "text/event-stream" "text/event-stream") with true.
  unfold RemoteProvider.parseSseEvents. cbn [body].
  destruct (read_all_batch chunks Hcr He) as (Hf & _). rewrite Hf.
  destruct (batch_split _ Hcr) as (Hs & _).
  rewrite Hc, (split_blank_frames ds Hds) in Hs.
  apply app_inj_tail in Hs as [Hs _]. rewrite Hc, frames_no_mark, <- Hs.
  rewrite flat_map_flat_map.
  rewrite (flat_map_ext _ _ dataLines_block), (frames_payloads ds Hds).
  apply for_each_yield_id.
Qed.

Lemma payload_events_valid (is_datetime : string -> bool) (events : list StreamEvent) :
  Forall (fun e => StreamEvent_valid is_datetime e = true) events ->
  flat_map (RemoteProvider.payload_events is_datetime) (map stringify_event events) = events.
Proof.
  induction 1 as [|e events He _ IH]; [reflexivity|].
  cbn [map flat_map]. now rewrite (payload_events_frame is_datetime e He), IH.
Qed.

(** The remote adapters' reader on the frames the endpoint writes.
    Take an event-stream answer whose body is made of the frames the
    handler of [/v1/chat.stream] writes for a run (events that meet
    the schema, then a return or a failure with a message that is not
    empty), cut into chunks in any way, whichever server sends it.
    [streamRemoteProvider] yields the events of the run, in order,
    then the [provider_error] event when the run failed, and
    returns. *)
Theorem remote_adapter_reads_endpoint_frames (is_datetime : string -> bool) (run : Run unit)
        (chunks : list string) (status : nat) (tid : string) (w : World) :
  Forall (fun e => StreamEvent_valid is_datetime e = true) (emitted run) ->
  result run <> Pending ->
  (forall t, result run = Threw t -> message_or t "Unknown provider error" <> "") ->
  concat_chunks chunks = concat_chunks (AgentServer.chat_stream_writes run) ->
  RemoteProvider.streamRemoteProvider is_datetime
    (inr (mkResponse true status (Some "text/event-stream") (Some chunks))) tid w
  = mkRun (AgentServer.chat_stream_events run) (Returned tt) w.
Proof.
  intros Hv Hp Hm Hc. rewrite writes_are_frame_texts in Hc.
  rewrite (remote_reads_frames is_datetime _ chunks status tid w) with (2 := Hc).
  - f_equal. rewrite flat_map_app, (payload_events_valid _ _ Hv).
    unfold AgentServer.chat_stream_events. apply (f_equal (app (emitted run))).
    destruct (result run) as [u|t|] eqn:E; [reflexivity | | contradiction].
    cbn [flat_map]. rewrite app_nil_r.
    apply (payload_events_frame is_datetime).
    unfold AgentServer.provider_error. cbn [StreamEvent_valid truthy is_empty negb andb].
    specialize (Hm t eq_refl). now destruct (message_or t "Unknown provider error").
  - apply payloads_ok.
    destruct (result run);
      [apply Forall_cons; [apply payload_ok_done | apply Forall_nil]
      |apply Forall_cons; [apply payload_ok_event | apply Forall_nil]
      |apply Forall_nil].
Qed.

Lemma remote_adapter_reads_endpoint_frames_witness :
  RemoteProvider.streamRemoteProvider (fun _ => true)
    (inr (mkResponse true 200 (Some "text/event-stream")
            (Some (AgentServer.chat_stream_writes failing_run))))
    "thread-1" FailureMessage.sample_world
  = mkRun [message_start "m-1" "thread-1" "2026-01-01T00:00:00Z"; typing true; token "hi";
           error "provider_error" "boom" false]
          (Returned tt) FailureMessage.sample_world.
Proof.
  exact (remote_adapter_reads_endpoint_frames (fun _ => true) failing_run
           (AgentServer.chat_stream_writes failing_run) 200 "thread-1"
           FailureMessage.sample_world
           ltac:(repeat (apply Forall_cons; [reflexivity|]); apply Forall_nil)
           ltac:(discriminate)
           ltac:(intros t H; injection H as <-; discriminate)
           eq_refl).
Defined.

(** An [Error] with an empty message does not come through as an
    error event.  The endpoint writes the event with [message: ""],
    which the schema refuses (the message must not be empty).  The
    client passes the frame on as a token that holds the raw JSON; a
    remote adapter, finding neither [text] nor [token] in it, drops
    it, and the turn ends with no final event. *)
Theorem empty_failure_message_is_lost (is_datetime : string -> bool)
        (run : Run unit) (chunks : list string) (status : nat) (tid : string) (w : World) :
  Forall (fun e => StreamEvent_valid is_datetime e = true) (emitted run) ->
  result run = Threw (ErrorObject "") ->
  concat_chunks chunks = concat_chunks (AgentServer.chat_stream_writes run) ->
  let response := mkResponse true status (Some "text/event-stream") (Some chunks) in
  Client.chatStream is_datetime tid (inr response) w
  = mkRun (emitted run
           ++ [token (dq "{'type':'error','code':'provider_error','message':'','retryable':false}")])
          (Returned tt) w
  /\ RemoteProvider.streamRemoteProvider is_datetime (inr response) tid w
     = mkRun (emitted run) (Returned tt) w.
Proof.
  intros Hv Hr Hc response. rewrite writes_are_frame_texts, Hr in Hc.
  assert (Hok : Forall payload_ok
                  (map stringify_event (emitted run)
                   ++ [stringify_event (AgentServer.provider_error (ErrorObject ""))]))
    by (apply payloads_ok; apply Forall_cons; [apply payload_ok_event | apply Forall_nil]).
  split.
  - unfold response.
    rewrite (client_reads_frames is_datetime _ chunks status tid w Hok Hc).
    f_equal. rewrite flat_map_app, (data_events_valid _ _ Hv).
    apply (f_equal (app (emitted run))).
    cbn [flat_map]. rewrite app_nil_r. unfold Client.data_events.
    rewrite parse_stringify_event. reflexivity.
  - unfold response.
    rewrite (remote_reads_frames is_datetime _ chunks status tid w Hok Hc).
    f_equal. rewrite flat_map_app, (payload_events_valid _ _ Hv).
    rewrite <- (app_nil_r (emitted run)) at 2. apply (f_equal (app (emitted run))).
    cbn [flat_map]. rewrite app_nil_r. unfold RemoteProvider.payload_events.
    rewrite parse_stringify_event. reflexivity.
Qed.

Definition silent_failure : Run unit :=
  mkRun [message_start "m-1" "thread-1" "2026-01-01T00:00:00Z"]
        (Threw (ErrorObject "")) FailureMessage.sample_world.

Lemma empty_failure_message_is_lost_witness :
  emitted (Client.chatStream (fun _ => true) "thread-1"
             (inr (mkResponse true 200 (Some "text/event-stream")
                     (Some (AgentServer.chat_stream_writes silent_failure))))
             FailureMessage.sample_world)
  = [message_start "m-1" "thread-1" "2026-01-01T00:00:00Z";
     token (dq "{'type':'error','code':'provider_error','message':'','retryable':false}")]
  /\ emitted (RemoteProvider.streamRemoteProvider (fun _ => true)
                (inr (mkResponse true 200 (Some "text/event-stream")
                        (Some (AgentServer.chat_stream_writes silent_failure))))
                "thread-1" FailureMessage.sample_world)
     = [message_start "m-1" "thread-1" "2026-01-01T00:00:00Z"].
Proof.
  exact (match empty_failure_message_is_lost (fun _ => true) silent_failure
                 (AgentServer.chat_stream_writes silent_failure) 200 "thread-1"
                 FailureMessage.sample_world
                 ltac:(repeat (apply Forall_cons; [reflexivity|]); apply Forall_nil)
                 eq_refl eq_refl with
         | conj H1 H2 => conj (f_equal emitted H1) (f_equal emitted H2)
         end).
Defined.

End SseStream.

(** ** The client's request helpers *)

Module TransportFacts.
Import Transport TrimFacts.

Lemma drop_slashes_head (s : string) : has_prefix "/" (drop_slashes s) = false.
Proof.
  induction s as [|c r IH]; [reflexivity|].
  cbn [drop_slashes]. destruct (Ascii.eqb c "/") eqn:E; [exact IH|].
  cbn [has_prefix]. rewrite (Ascii.eqb_sym "/"%char c), E. reflexivity.
Qed.

Lemma drop_slashes_suffix (s : string) :
  exists slashes, s = (slashes ++ drop_slashes s)%string
                  /\ string_forall (Ascii.eqb "/"%char) slashes = true.
Proof.
  induction s as [|c r (sl & Hs & Hall)]; [now exists ""|].
  cbn [drop_slashes]. destruct (Ascii.eqb c "/") eqn:E.
  - exists (String c sl). cbn [append string_forall].
    rewrite (Ascii.eqb_sym "/"%char c), E, Hall. now rewrite <- Hs.
  - now exists "".
Qed.

Lemma string_forall_rev (P : ascii -> bool) (s : string) :
  string_forall P (rev s) = string_forall P s.
Proof.
  induction s as [|c r IH]; [reflexivity|].
  cbn [rev string_forall]. rewrite JsonFacts.string_forall_append, IH.
  cbn [str1 string_forall]. rewrite andb_true_r. apply andb_comm.
Qed.

(** [joinUrl] puts the base, less its trailing slashes and nothing
    else, before the path, which gets a leading slash when it has
    none.  Slashes at the end of the base and one slash at the start of
    the path therefore make no difference, and the base part of the
    result never ends with a slash. *)
Theorem joinUrl_slashes (baseUrl path : string) :
  joinUrl (baseUrl ++ "/") path = joinUrl baseUrl path
  /\ (startsWith path "/" = false ->
      joinUrl baseUrl (String "/" path) = joinUrl baseUrl path
      /\ joinUrl baseUrl path = (trimmedBase baseUrl ++ String "/" path)%string)
  /\ (exists slashes,
         baseUrl = (trimmedBase baseUrl ++ slashes)%string
         /\ string_forall (Ascii.eqb "/"%char) slashes = true)
  /\ has_prefix "/" (rev (trimmedBase baseUrl)) = false
  /\ startsWith (normalizedPath path) "/" = true.
Proof.
  split; [|split; [|split; [|split]]].
  - unfold joinUrl, trimmedBase. rewrite rev_append. reflexivity.
  - intros H. unfold joinUrl, normalizedPath. rewrite H. split; reflexivity.
  - unfold trimmedBase. destruct (drop_slashes_suffix (rev baseUrl)) as (sl & Hs & Hall).
    exists (rev sl). split.
    + rewrite <- rev_append, <- Hs. now rewrite rev_involutive.
    + now rewrite string_forall_rev.
  - unfold trimmedBase. rewrite rev_involutive. apply drop_slashes_head.
  - unfold normalizedPath. destruct (startsWith path "/") eqn:E; [exact E | reflexivity].
Qed.

(** *** The Authorization header *)

Definition b64_value (c : ascii) : option N :=
  let n := N_of_ascii c in
  if in_range 65 90 c then Some (n - 65)%N
  else if in_range 97 122 c then Some (n - 71)%N
  else if in_range 48 57 c then Some (n + 4)%N
  else if Ascii.eqb c "+" then Some 62%N
  else if Ascii.eqb c "/" then Some 63%N
  else None.

(** Reading base64 back, as RFC 4648 has it. *)
Fixpoint base64_decode (s : string) : option string :=
  match s with
  | EmptyString => Some EmptyString
  | String a (String b (String c (String d r))) =>
      match b64_value a, b64_value b with
      | Some p, Some q =>
          let x := ascii_of_N (p * 4 + q / 16) in
          if Ascii.eqb c "=" then
            if Ascii.eqb d "=" && is_empty r then Some (str1 x) else None
          else
            match b64_value c with
            | Some u =>
                let y := ascii_of_N ((q mod 16) * 16 + u / 4) in
                if Ascii.eqb d "=" then
                  if is_empty r then Some (String x (str1 y)) else None
                else
                  match b64_value d with
                  | Some v =>
                      option_map
                        (fun t => String x (String y (String (ascii_of_N ((u mod 4) * 64 + v)) t)))
                        (base64_decode r)
                  | None => None
                  end
            | None => None
            end
      | _, _ => None
      end
  | _ => None
  end.

Definition ascii7 (c : ascii) : bool := N.ltb (N_of_ascii c) 128.

Ltac div_lia := zify; Z.to_euclidean_division_equations; lia.

Lemma b64_value_char (n : N) :
  (n < 64)%N ->
  b64_value (b64_char n) = Some n /\ Ascii.eqb (b64_char n) "=" = false.
Proof.
  intros H.
  assert (Hn : exists k, k < 64 /\ n = N.of_nat k).
  { exists (N.to_nat n). split; lia. }
  destruct Hn as (k & Hk & ->).
  do 64 (destruct k as [|k]; [split; reflexivity|]). lia.
Qed.

Lemma N_of_ascii_bound (a : ascii) : (N_of_ascii a < 256)%N.
Proof. destruct a as [[] [] [] [] [] [] [] []]; reflexivity. Qed.

Lemma base64_decode_encode_bounded (n : nat) : forall bytes,
  String.length bytes <= n -> base64_decode (base64 bytes) = Some bytes.
Proof.
  induction n as [|n IH]; intros bytes L.
  - destruct bytes; [reflexivity | simpl in L; lia].
  - destruct bytes as [|a [|b [|c r]]]; [reflexivity | | |].
    + pose proof (N_of_ascii_bound a) as Ha.
      cbn [base64 base64_decode].
      destruct (b64_value_char (N_of_ascii a / 4)) as (-> & _); [div_lia|].
      destruct (b64_value_char (N_of_ascii a mod 4 * 16)) as (-> & _); [div_lia|].
      cbn [Ascii.eqb Bool.eqb andb is_empty str1].
      replace (N_of_ascii a / 4 * 4 + N_of_ascii a mod 4 * 16 / 16)%N
        with (N_of_ascii a) by div_lia.
      now rewrite ascii_N_embedding.
    + pose proof (N_of_ascii_bound a) as Ha. pose proof (N_of_ascii_bound b) as Hb.
      cbn [base64 base64_decode].
      destruct (b64_value_char (N_of_ascii a / 4)) as (-> & _); [div_lia|].
      destruct (b64_value_char (N_of_ascii a mod 4 * 16 + N_of_ascii b / 16))
        as (-> & _); [div_lia|].
      destruct (b64_value_char (N_of_ascii b mod 16 * 4)) as (-> & ->); [div_lia|].
      cbn [Ascii.eqb Bool.eqb andb is_empty str1].
      replace (N_of_ascii a / 4 * 4 + (N_of_ascii a mod 4 * 16 + N_of_ascii b / 16) / 16)%N
        with (N_of_ascii a) by div_lia.
      replace ((N_of_ascii a mod 4 * 16 + N_of_ascii b / 16) mod 16 * 16
               + N_of_ascii b mod 16 * 4 / 4)%N
        with (N_of_ascii b) by div_lia.
      now rewrite !ascii_N_embedding.
    + pose proof (N_of_ascii_bound a) as Ha. pose proof (N_of_ascii_bound b) as Hb.
      pose proof (N_of_ascii_bound c) as Hc.
      cbn [base64 base64_decode].
      destruct (b64_value_char (N_of_ascii a / 4)) as (-> & _); [div_lia|].
      destruct (b64_value_char (N_of_ascii a mod 4 * 16 + N_of_ascii b / 16))
        as (-> & _); [div_lia|].
      destruct (b64_value_char (N_of_ascii b mod 16 * 4 + N_of_ascii c / 64))
        as (-> & ->); [div_lia|].
      destruct (b64_value_char (N_of_ascii c mod 64)) as (-> & ->); [div_lia|].
      rewrite (IH r) by (simpl in L; lia). cbn [option_map].
      replace (N_of_ascii a / 4 * 4 + (N_of_ascii a mod 4 * 16 + N_of_ascii b / 16) / 16)%N
        with (N_of_ascii a) by div_lia.
      replace ((N_of_ascii a mod 4 * 16 + N_of_ascii b / 16) mod 16 * 16
               + (N_of_ascii b mod 16 * 4 + N_of_ascii c / 64) / 4)%N
        with (N_of_ascii b) by div_lia.
      replace ((N_of_ascii b mod 16 * 4 + N_of_ascii c / 64) mod 4 * 64
               + N_of_ascii c mod 64)%N
        with (N_of_ascii c) by div_lia.
      now rewrite !ascii_N_embedding.
Qed.

Lemma base64_decode_encode (bytes : string) : base64_decode (base64 bytes) = Some bytes.
Proof. now apply (base64_decode_encode_bounded (String.length bytes)). Qed.

Lemma latin1_of_ascii (s : string) :
  string_forall ascii7 s = true -> latin1_of_utf8 s = Some s.
Proof.
  induction s as [|a r IH]; [reflexivity|].
  cbn [string_forall latin1_of_utf8]. intros H. apply andb_true_iff in H as [Ha Hr].
  unfold ascii7 in Ha. now rewrite Ha, (IH Hr).
Qed.

(** The Authorization header for each kind of credentials.  No
    credentials, or [none], give no header; a bearer token is sent as
    it is; for basic credentials of ASCII characters every runtime
    that has [btoa] or [Buffer] sends the same header, whose value
    decodes back to [username:password]. *)
Theorem auth_headers (rt : Runtime) :
  buildAuthHeaders rt None = inr []
  /\ buildAuthHeaders rt (Some auth_none) = inr []
  /\ (forall t,
        buildAuthHeaders rt (Some (auth_bearer t))
        = inr [("Authorization", ("Bearer " ++ t)%string)])
  /\ (forall username password,
        has_btoa rt || has_Buffer rt = true ->
        string_forall ascii7 (username ++ ":" ++ password) = true ->
        buildAuthHeaders rt (Some (auth_basic username password))
        = inr [("Authorization",
                ("Basic " ++ base64 (username ++ ":" ++ password))%string)]
        /\ base64_decode (base64 (username ++ ":" ++ password))
           = Some (username ++ ":" ++ password)%string)
  /\ (forall username password,
        has_btoa rt || has_Buffer rt = false ->
        buildAuthHeaders rt (Some (auth_basic username password))
        = inl (ErrorObject "Unable to encode basic auth credentials in this runtime.")).
Proof.
  split; [reflexivity|]. split; [reflexivity|]. split; [reflexivity|]. split.
  - intros u p Hrt Ha. split; [|apply base64_decode_encode].
    unfold buildAuthHeaders, encodeBase64, btoa, Buffer_base64.
    rewrite (latin1_of_ascii _ Ha). cbn [option_map].
    destruct (has_btoa rt); [reflexivity|].
    cbn [orb] in Hrt. now rewrite Hrt.
  - intros u p Hrt. apply orb_false_elim in Hrt as [H1 H2].
    unfold buildAuthHeaders, encodeBase64. now rewrite H1, H2.
Qed.

(** Outside ASCII the two runtimes part: [btoa] encodes a character
    below U+0100 as one Latin-1 byte and refuses any other, [Buffer]
    encodes the UTF-8 bytes. *)
Theorem basic_header_depends_on_runtime (message : string) :
  let e_acute := String (ascii_of_N 195) (str1 (ascii_of_N 169)) in
  let euro := String (ascii_of_N 226) (String (ascii_of_N 130) (str1 (ascii_of_N 172))) in
  buildAuthHeaders (mkRuntime true true message) (Some (auth_basic e_acute "p"))
  = inr [("Authorization", "Basic 6Tpw")]
  /\ buildAuthHeaders (mkRuntime false true message) (Some (auth_basic e_acute "p"))
     = inr [("Authorization", "Basic w6k6cA==")]
  /\ buildAuthHeaders (mkRuntime true true message) (Some (auth_basic euro "p"))
     = inl (ErrorObject message)
  /\ buildAuthHeaders (mkRuntime false true message) (Some (auth_basic "user" "pass"))
     = inr [("Authorization", "Basic dXNlcjpwYXNz")].
Proof. repeat split; reflexivity. Qed.

End TransportFacts.

(** ** The server's command line *)

Module ServerCliFacts.
Import ProviderSdk AgentServer ServerCli.

Section WithNumber.

Variable Number_ : string -> JsNumber.

Lemma parsePortValue_range (value flagName : string) (p : Z) :
  parsePortValue Number_ value flagName = inr p -> (1 <= p <= 65535)%Z.
Proof.
  unfold parsePortValue. destruct (integer_value (Number_ value)) as [n|]; [|discriminate].
  destruct (Z.ltb n 1 || Z.ltb 65535 n) eqn:E; [discriminate|].
  intros H. injection H as <-. apply orb_false_elim in E as [E1 E2].
  apply Z.ltb_ge in E1, E2. lia.
Qed.

(** One turn of the loop, for a token that is not the separator. *)
Lemma from_cons (tok : string) (rest a : list string) (p : option Z) :
  String.eqb tok "--" = false ->
  parseServerCliArgs_from Number_ (tok :: rest) a p
  = if String.eqb tok "--port" || String.eqb tok "-p" then
      match rest with
      | next :: rest' =>
          if truthy next then
            match parsePortValue Number_ next tok with
            | inr parsed => parseServerCliArgs_from Number_ rest' a (Some parsed)
            | inl err => inl err
            end
          else inl (ErrorObject (tok ++ " requires a value."))
      | [] => inl (ErrorObject (tok ++ " requires a value."))
      end
    else if startsWith tok "--port=" then
      match parsePortValue Number_ (drop 7 tok) "--port" with
      | inr parsed => parseServerCliArgs_from Number_ rest a (Some parsed)
      | inl err => inl err
      end
    else parseServerCliArgs_from Number_ rest (a ++ [tok]) p.
Proof. intros H. cbn [parseServerCliArgs_from]. now rewrite H. Qed.

Lemma from_separator (post : list string) (n : nat) : forall raw a p r,
  List.length raw <= n ->
  parseServerCliArgs_from Number_ raw a p = inr r ->
  parseServerCliArgs_from Number_ (raw ++ "--" :: post) a p
  = inr (mkParsed (argv r ++ "--" :: post) (portOverride r)).
Proof.
  induction n as [|n IH]; intros raw a p r L H.
  - destruct raw; [|simpl in L; lia]. cbn in H. injection H as <-. reflexivity.
  - destruct raw as [|tok rest].
    + cbn in H. injection H as <-. reflexivity.
    + cbn [app]. destruct (String.eqb tok "--") eqn:Esep.
      * cbn [parseServerCliArgs_from] in *. rewrite Esep in *.
        injection H as <-. cbn [argv portOverride]. now rewrite <- app_assoc.
      * rewrite from_cons in * by exact Esep.
        destruct (String.eqb tok "--port" || String.eqb tok "-p").
        -- destruct rest as [|next rest']; [discriminate|]. cbn [app].
           destruct (truthy next); [|discriminate].
           destruct (parsePortValue Number_ next tok); [discriminate|].
           apply IH; [simpl in L; lia | exact H].
        -- destruct (startsWith tok "--port=").
           ++ destruct (parsePortValue Number_ (drop 7 tok) "--port"); [discriminate|].
              apply IH; [simpl in L; lia | exact H].
           ++ apply IH; [simpl in L; lia | exact H].
Qed.

(** Whatever follows the first [--] is kept as it is, the [--]
    included: no token after it is read as a flag of the server, and
    the port chosen before it stands. *)
Theorem separator_protects_arguments (pre post : list string) (r : ParsedServerCliArgs) :
  parseServerCliArgs Number_ pre = inr r ->
  parseServerCliArgs Number_ (pre ++ "--" :: post)
  = inr (mkParsed (argv r ++ "--" :: post) (portOverride r)).
Proof. intros H. now apply (from_separator post (List.length pre)). Qed.

Definition is_server_flag (tok : string) : bool :=
  String.eqb tok "--" || String.eqb tok "--port" || String.eqb tok "-p"
  || startsWith tok "--port=".

Lemma from_plain (raw : list string) : forall a p,
  forallb (fun tok => negb (is_server_flag tok)) raw = true ->
  parseServerCliArgs_from Number_ raw a p = inr (mkParsed (a ++ raw) p).
Proof.
  induction raw as [|tok rest IH]; intros a p H.
  - cbn. now rewrite app_nil_r.
  - cbn [forallb] in H. apply andb_true_iff in H as [Ht Hr].
    apply negb_true_iff in Ht. unfold is_server_flag in Ht.
    apply orb_false_elim in Ht as [Ht E4]. apply orb_false_elim in Ht as [Ht E3].
    apply orb_false_elim in Ht as [E1 E2].
    rewrite from_cons by exact E1. rewrite E2, E3, E4. cbn [orb].
    rewrite (IH _ _ Hr). now rewrite <- app_assoc.
Qed.

Lemma from_port (n : nat) : forall raw a p r q,
  List.length raw <= n ->
  (forall x, p = Some x -> (1 <= x <= 65535)%Z) ->
  parseServerCliArgs_from Number_ raw a p = inr r ->
  portOverride r = Some q -> (1 <= q <= 65535)%Z.
Proof.
  induction n as [|n IH]; intros raw a p r q L Hp H Hq.
  - destruct raw; [|simpl in L; lia]. cbn in H. injection H as <-. now apply Hp.
  - destruct raw as [|tok rest].
    + cbn in H. injection H as <-. now apply Hp.
    + destruct (String.eqb tok "--") eqn:Esep.
      * cbn [parseServerCliArgs_from] in H. rewrite Esep in H.
        injection H as <-. now apply Hp.
      * rewrite from_cons in H by exact Esep.
        destruct (String.eqb tok "--port" || String.eqb tok "-p").
        -- destruct rest as [|next rest']; [discriminate|].
           destruct (truthy next); [|discriminate].
           destruct (parsePortValue Number_ next tok) as [|x] eqn:E; [discriminate|].
           apply (IH rest' a (Some x) r q); trivial; [simpl in L; lia|].
           intros y Hy. injection Hy as <-. exact (parsePortValue_range _ _ _ E).
        -- destruct (startsWith tok "--port=").
           ++ destruct (parsePortValue Number_ (drop 7 tok) "--port") as [|x] eqn:E;
                [discriminate|].
              apply (IH rest a (Some x) r q); trivial; [simpl in L; lia|].
              intros y Hy. injection Hy as <-. exact (parsePortValue_range _ _ _ E).
           ++ apply (IH rest (a ++ [tok]) p r q); trivial. simpl in L. lia.
Qed.

Lemma from_dangling (raw tail : list string) (message : string) : forall a p,
  (forall a' p', parseServerCliArgs_from Number_ tail a' p' = inl (ErrorObject message)) ->
  forallb (fun tok => negb (is_server_flag tok)) raw = true ->
  parseServerCliArgs_from Number_ (raw ++ tail) a p = inl (ErrorObject message).
Proof.
  induction raw as [|tok rest IH]; intros a p Htail H.
  - apply Htail.
  - cbn [forallb] in H. apply andb_true_iff in H as [Ht Hr].
    apply negb_true_iff in Ht. unfold is_server_flag in Ht.
    apply orb_false_elim in Ht as [Ht E4]. apply orb_false_elim in Ht as [Ht E3].
    apply orb_false_elim in Ht as [E1 E2].
    cbn [app]. rewrite from_cons by exact E1. rewrite E2, E3, E4. cbn [orb].
    now apply IH.
Qed.

(** What [parseServerCliArgs] returns.  A port it reports lies between
    1 and 65535.  A command line with no [--], [--port], [-p] or
    [--port=...] in it is returned as it is, with no port.  A
    [--port] or [-p] that ends the command line, or is followed by an
    empty argument, is an error. *)
Theorem parseServerCliArgs_result (rawArgv : list string) :
  (forall r q, parseServerCliArgs Number_ rawArgv = inr r ->
               portOverride r = Some q -> (1 <= q <= 65535)%Z)
  /\ (forallb (fun tok => negb (is_server_flag tok)) rawArgv = true ->
      parseServerCliArgs Number_ rawArgv = inr (mkParsed rawArgv None))
  /\ (forallb (fun tok => negb (is_server_flag tok)) rawArgv = true ->
      parseServerCliArgs Number_ (rawArgv ++ ["--port"])
      = inl (ErrorObject "--port requires a value.")
      /\ parseServerCliArgs Number_ (rawArgv ++ ["-p"; ""])
         = inl (ErrorObject "-p requires a value.")).
Proof.
  split; [|split].
  - intros r q H Hq. apply (from_port (List.length rawArgv) rawArgv [] None r q); trivial.
    discriminate.
  - intros H. now apply (from_plain rawArgv [] None).
  - intros H. split.
    + apply (from_dangling rawArgv ["--port"] "--port requires a value." [] None);
        [reflexivity | exact H].
    + apply (from_dangling rawArgv ["-p"; ""] "-p requires a value." [] None);
        [reflexivity | exact H].
Qed.

(** *** Help *)

Lemma list_indexOf_app (pre post : list string) (x : string) :
  list_indexOf pre x = None ->
  list_indexOf (pre ++ x :: post) x = Some (List.length pre).
Proof.
  induction pre as [|y pre IH]; intros H.
  - cbn. now rewrite String.eqb_refl.
  - cbn [list_indexOf app List.length] in *. destruct (String.eqb y x); [discriminate|].
    destruct (list_indexOf pre x); [discriminate|]. now rewrite IH.
Qed.

Lemma skipn_after (pre post : list string) (x : string) :
  skipn (List.length pre + 1) (pre ++ x :: post) = post.
Proof. induction pre as [|y pre IH]; [reflexivity | exact IH]. Qed.

Lemma isHelpFlag_separator : isHelpFlag "--" = false.
Proof. reflexivity. Qed.

(** When the command line has a [--], help is shown in two cases only:
    the wrapped command is the single word [--help] or [-h], or
    nothing follows the [--] and a help flag stands before it.  A help
    flag before the [--] of a wrapped command is not honoured. *)
Theorem server_help_rule (pre post : list string) :
  list_indexOf pre "--" = None ->
  shouldShowServerHelp pre = existsb isHelpFlag pre
  /\ shouldShowServerHelp (pre ++ "--" :: post)
     = match post with
       | [] => existsb isHelpFlag pre
       | [only] => isHelpFlag only
       | _ => false
       end.
Proof.
  intros H. split.
  - unfold shouldShowServerHelp. now rewrite H.
  - unfold shouldShowServerHelp. rewrite (list_indexOf_app _ _ _ H), skipn_after.
    destruct post as [|only [|second post]].
    + rewrite existsb_app. cbn [existsb]. rewrite isHelpFlag_separator.
      now rewrite !orb_false_r.
    + now destruct (isHelpFlag only).
    + reflexivity.
Qed.

Lemma server_help_rule_witness :
  shouldShowServerHelp ["--help"; "--"; "codex"; "exec"] = false
  /\ shouldShowServerHelp ["--port"; "9000"; "--"; "-h"] = true.
Proof.
  exact (conj (proj2 (server_help_rule ["--help"] ["codex"; "exec"] eq_refl))
              (proj2 (server_help_rule ["--port"; "9000"] ["-h"] eq_refl))).
Defined.

(** *** The wrapped command *)

Lemma from_no_separator (n : nat) : forall raw a p r,
  List.length raw <= n ->
  list_indexOf raw "--" = None -> list_indexOf a "--" = None ->
  parseServerCliArgs_from Number_ raw a p = inr r ->
  list_indexOf (argv r) "--" = None.
Proof.
  induction n as [|n IH]; intros raw a p r L Hraw Ha H.
  - destruct raw; [|simpl in L; lia]. cbn in H. now injection H as <-.
  - destruct raw as [|tok rest].
    + cbn in H. now injection H as <-.
    + cbn [list_indexOf] in Hraw. destruct (String.eqb tok "--") eqn:Esep; [discriminate|].
      assert (Hrest : list_indexOf rest "--" = None)
        by (destruct (list_indexOf rest "--"); [discriminate | reflexivity]).
      rewrite from_cons in H by exact Esep.
      destruct (String.eqb tok "--port" || String.eqb tok "-p").
      * destruct rest as [|next rest']; [discriminate|].
        destruct (truthy next); [|discriminate].
        destruct (parsePortValue Number_ next tok); [discriminate|].
        apply (IH rest' a (Some z) r); trivial; [simpl in L; lia|].
        cbn [list_indexOf] in Hrest. destruct (String.eqb next "--"); [discriminate|].
        destruct (list_indexOf rest' "--"); [discriminate | reflexivity].
      * destruct (startsWith tok "--port=").
        -- destruct (parsePortValue Number_ (drop 7 tok) "--port"); [discriminate|].
           apply (IH rest a (Some z) r); trivial. simpl in L. lia.
        -- apply (IH rest (a ++ [tok]) p r); trivial; [simpl in L; lia|].
           clear -Ha Esep. induction a as [|y a IHa].
           ++ cbn. now rewrite Esep.
           ++ cbn [app list_indexOf] in *. destruct (String.eqb y "--"); [discriminate|].
              destruct (list_indexOf a "--"); [discriminate|]. now rewrite IHa.
Qed.

(** From the command line to the wrapped command.  The word after the
    first [--] is the command and the words after it are its
    arguments, taken as they are even when they look like flags of the
    server; a bare [codex] gets [exec {prompt}].  The provider kind
    is inferred from the command, and the port is the one given before
    the [--]. *)
Theorem wrapped_command_from_command_line (env : Env) (pre args : list string)
        (cmd : string) (r : ParsedServerCliArgs) :
  list_indexOf pre "--" = None ->
  parseServerCliArgs Number_ pre = inr r ->
  exists r',
    parseServerCliArgs Number_ (pre ++ "--" :: cmd :: args) = inr r'
    /\ portOverride r' = portOverride r
    /\ parseWrappedCommandConfig Number_ env (argv r')
       = Some (mkWrapped cmd
                 (match args with
                  | [] => if isCodexCommand cmd then ["exec"; "{prompt}"] else []
                  | _ => args
                  end)
                 (wrapped_timeout Number_ env)
                 (env_is (BIRDHOUSE_SERVER_STDIN env) "1"
                  || env_is (BIRDHOUSE_WRAPPED_STDIN env) "1")
                 (if env_is (BIRDHOUSE_SERVER_PARSE env) "json"
                     || env_is (BIRDHOUSE_WRAPPED_PARSE env) "json"
                  then parse_json else parse_text)
                 (inferWrappedKind cmd))
    /\ parseWrappedCommandConfig Number_ env (argv r ++ ["--"]) = None.
Proof.
  intros Hsep H.
  assert (Hr : list_indexOf (argv r) "--" = None)
    by (apply (from_no_separator (List.length pre) pre [] None r); trivial).
  exists (mkParsed (argv r ++ "--" :: cmd :: args) (portOverride r)).
  split; [exact (from_separator (cmd :: args) _ pre [] None r (le_n _) H)|].
  split; [reflexivity|]. cbn [argv]. split.
  - unfold parseWrappedCommandConfig.
    rewrite (list_indexOf_app _ _ _ Hr), skipn_after. reflexivity.
  - unfold parseWrappedCommandConfig.
    rewrite (list_indexOf_app _ _ _ Hr), skipn_after. reflexivity.
Qed.

End WithNumber.

(** [Number] on the decimal digits used below. *)
Definition sample_Number (s : string) : JsNumber :=
  if String.eqb s "9000" then Finite 9000 0
  else if String.eqb s "1" then Finite 1 0
  else NaN.

Lemma separator_protects_arguments_witness :
  parseServerCliArgs sample_Number ["--port"; "9000"; "--"; "codex"; "--port"; "1"]
  = inr (mkParsed ["--"; "codex"; "--port"; "1"] (Some 9000%Z)).
Proof.
  exact (separator_protects_arguments sample_Number ["--port"; "9000"]
           ["codex"; "--port"; "1"] (mkParsed [] (Some 9000%Z)) eq_refl).
Defined.

Definition empty_env : Env :=
  mkEnv None None None None None None None None None None.

Lemma wrapped_command_from_command_line_witness :
  exists r',
    parseServerCliArgs sample_Number ["-p"; "9000"; "--"; "/usr/bin/Codex.EXE"] = inr r'
    /\ portOverride r' = Some 9000%Z
    /\ parseWrappedCommandConfig sample_Number empty_env (argv r')
       = Some (mkWrapped "/usr/bin/Codex.EXE" ["exec"; "{prompt}"] 180000 false parse_text
                         terminal_cli)
    /\ parseWrappedCommandConfig sample_Number empty_env ["--"] = None.
Proof.
  exact (wrapped_command_from_command_line sample_Number empty_env ["-p"; "9000"] []
           "/usr/bin/Codex.EXE" (mkParsed [] (Some 9000%Z)) eq_refl eq_refl).
Defined.

End ServerCliFacts.

(** ** The provider registry and provider discovery *)

Module ProviderFacts.
Import ProviderSdk AgentServer ServerCli Providers JsonRoundTrip.

Lemma ProviderKind_eqb_eq (a b : ProviderKind) : ProviderKind_eqb a b = true <-> a = b.
Proof. split; [destruct a, b; (reflexivity || discriminate) | intros ->; now destruct b]. Qed.

Lemma ProviderKind_eqb_refl (a : ProviderKind) : ProviderKind_eqb a a = true.
Proof. now destruct a. Qed.

Lemma ProviderKind_parse_text (k : ProviderKind) : ProviderKind_parse (kind_text k) = Some k.
Proof. now destruct k. Qed.

Section Registry.

Context {Adapter : Type} (kind_of : Adapter -> ProviderKind)
        (capability_of : Adapter -> ProviderCapability).

Lemma map_get_set (m : AdapterMap Adapter) (key k : ProviderKind) (v : Adapter) :
  map_get Adapter (map_set Adapter m key v) k
  = if ProviderKind_eqb key k then Some v else map_get Adapter m k.
Proof.
  induction m as [|[k0 v0] m IH]; cbn [map_set map_get].
  - reflexivity.
  - destruct (ProviderKind_eqb k0 key) eqn:E0; cbn [map_get].
    + apply ProviderKind_eqb_eq in E0. subst k0.
      now destruct (ProviderKind_eqb key k).
    + rewrite IH. destruct (ProviderKind_eqb k0 k) eqn:E1; [|reflexivity].
      apply ProviderKind_eqb_eq in E1. subst k0.
      destruct (ProviderKind_eqb key k) eqn:E2; [|reflexivity].
      apply ProviderKind_eqb_eq in E2. subst key.
      now rewrite ProviderKind_eqb_refl in E0.
Qed.

Lemma map_set_keys (m : AdapterMap Adapter) (key : ProviderKind) (v : Adapter) :
  map fst (map_set Adapter m key v)
  = if existsb (ProviderKind_eqb key) (map fst m) then map fst m else map fst m ++ [key].
Proof.
  induction m as [|[k0 v0] m IH]; cbn [map_set map fst existsb app]; [reflexivity|].
  destruct (ProviderKind_eqb k0 key) eqn:E0.
  - apply ProviderKind_eqb_eq in E0. subst k0. now rewrite ProviderKind_eqb_refl.
  - cbn [map fst]. rewrite IH.
    destruct (ProviderKind_eqb key k0) eqn:E1.
    + apply ProviderKind_eqb_eq in E1. subst k0. now rewrite ProviderKind_eqb_refl in E0.
    + cbn [orb]. now destruct (existsb (ProviderKind_eqb key) (map fst m)).
Qed.

Lemma map_set_NoDup (m : AdapterMap Adapter) (key : ProviderKind) (v : Adapter) :
  NoDup (map fst m) -> NoDup (map fst (map_set Adapter m key v)).
Proof.
  intros H. rewrite map_set_keys.
  destruct (existsb (ProviderKind_eqb key) (map fst m)) eqn:E; [exact H|].
  apply NoDup_app; [exact H | repeat constructor; intros [] | ].
  intros x Hx [Hk|[]]. subst x.
  assert (existsb (ProviderKind_eqb key) (map fst m) = true); [|congruence].
  apply existsb_exists. exists key. split; [exact Hx | apply ProviderKind_eqb_refl].
Qed.

Lemma find_snoc {A} (f : A -> bool) (l : list A) (x : A) :
  find f (l ++ [x]) = match find f l with Some y => Some y | None => if f x then Some x else None end.
Proof.
  induction l as [|y l IH]; cbn [app find]; [reflexivity|].
  now destruct (f y).
Qed.

Lemma registry_fold (adapters : list Adapter) : forall m k,
  map_get Adapter (fold_left (fun m adapter => map_set Adapter m (kind_of adapter) adapter)
                             adapters m) k
  = match find (fun a => ProviderKind_eqb (kind_of a) k) (List.rev adapters) with
    | Some a => Some a
    | None => map_get Adapter m k
    end.
Proof.
  induction adapters as [|a adapters IH]; intros m k; [reflexivity|].
  cbn [fold_left List.rev]. rewrite IH, find_snoc, map_get_set.
  destruct (find (fun a0 => ProviderKind_eqb (kind_of a0) k) (List.rev adapters));
    [reflexivity|].
  now destruct (ProviderKind_eqb (kind_of a) k).
Qed.

Lemma registry_fold_NoDup (adapters : list Adapter) : forall m,
  NoDup (map fst m) ->
  NoDup (map fst (fold_left (fun m adapter => map_set Adapter m (kind_of adapter) adapter)
                            adapters m)).
Proof.
  induction adapters as [|a adapters IH]; intros m H; [exact H|].
  cbn [fold_left]. apply IH. now apply map_set_NoDup.
Qed.

(** Looking an adapter up in a registry.  [get] returns the adapter
    registered last for the kind asked for, and fails with the message
    that names the kind when none was registered; the adapter returned
    has that kind and is one of those the registry was built from.  No
    kind is listed twice, so [capabilities] has at most one entry per
    kind. *)
Theorem registry_lookup (adapters : list Adapter) (k : ProviderKind) :
  let registry := ProviderRegistry Adapter kind_of adapters in
  registry_get Adapter registry k
  = match find (fun a => ProviderKind_eqb (kind_of a) k) (List.rev adapters) with
    | Some a => inr a
    | None => inl (ErrorObject ("No provider adapter registered for kind: " ++ kind_text k))
    end
  /\ (forall a, registry_get Adapter registry k = inr a -> kind_of a = k /\ In a adapters)
  /\ NoDup (map fst registry)
  /\ List.length (registry_capabilities Adapter capability_of registry)
     = List.length (map fst registry).
Proof.
  intros registry.
  assert (Hget : map_get Adapter registry k
                 = find (fun a => ProviderKind_eqb (kind_of a) k) (List.rev adapters)).
  { unfold registry, ProviderRegistry. rewrite registry_fold.
    now destruct (find _ (List.rev adapters)). }
  split; [|split; [|split]].
  - unfold registry_get. rewrite Hget. now destruct (find _ (List.rev adapters)).
  - intros a Ha. unfold registry_get in Ha. rewrite Hget in Ha.
    destruct (find _ (List.rev adapters)) as [b|] eqn:E; [|discriminate].
    injection Ha as ->. apply find_some in E as [Hin Hk].
    split; [now apply ProviderKind_eqb_eq | now apply in_rev].
  - unfold registry, ProviderRegistry. apply registry_fold_NoDup. constructor.
  - unfold registry_capabilities. now rewrite !length_map.
Qed.

End Registry.

(** The default registry has an adapter of every kind, whatever the
    environment holds, and lists the seven capabilities in the order
    the adapters are created in: the three remote ones stream, take
    attachments and work asynchronously; the four CLI ones stream
    only. *)
Theorem default_registry_is_complete (env : SdkEnv) :
  (forall k, exists a,
      registry_get Adapter (createDefaultProviderRegistry env) k = inr a
      /\ adapter_kind a = k)
  /\ registry_capabilities Adapter adapter_capability (createDefaultProviderRegistry env)
     = [mkCapability ai_sdk true true true;
        mkCapability openclaw true true true;
        mkCapability pi_mono true true true;
        mkCapability terminal_cli true false false;
        mkCapability claude_code_cli true false false;
        mkCapability openclaw_cli true false false;
        mkCapability nanoclaw_cli true false false].
Proof.
  split; [|reflexivity].
  intros k. destruct k; eexists; split; reflexivity.
Qed.

(** *** The default provider *)

Lemma has_kind_first (first : ProviderCapability) (rest : list ProviderCapability) :
  has_kind (first :: rest) (cap_kind first) = true.
Proof. unfold has_kind. cbn [existsb]. now rewrite ProviderKind_eqb_refl. Qed.

Lemma default_provider_none (env : Env) (registered : list ProviderCapability) :
  defaultProviderKind env None registered = None <-> registered = [].
Proof.
  unfold defaultProviderKind. destruct registered as [|first rest]; [tauto|].
  split; [|discriminate].
  destruct (BIRDHOUSE_DEFAULT_PROVIDER env) as [c|]; [destruct (truthy c)|];
    try (destruct (ProviderKind_parse c) as [p|]; [destruct (has_kind (first :: rest) p)|]);
    try discriminate;
    destruct (has_kind (first :: rest) ai_sdk && hasOpenAiApiKey env);
    try discriminate;
    destruct (has_kind (first :: rest) terminal_cli); try discriminate;
    destruct (has_kind (first :: rest) ai_sdk); discriminate.
Qed.

(** [defaultProviderKind].  In wrapped mode it is the kind inferred
    from the command.  Otherwise it is a kind the registry has, and
    there is none only when the registry is empty; the configured
    default wins when it names a kind the registry has; failing that
    ai-sdk is chosen when there is an API key, terminal-cli
    otherwise, when the registry has them. *)
Theorem default_provider_choice (env : Env) (registered : list ProviderCapability) :
  (forall cfg, defaultProviderKind env (Some cfg) registered = Some (inferredKind cfg))
  /\ (defaultProviderKind env None registered = None <-> registered = [])
  /\ (forall k, defaultProviderKind env None registered = Some k ->
                has_kind registered k = true)
  /\ (forall k, BIRDHOUSE_DEFAULT_PROVIDER env = Some (kind_text k) ->
                has_kind registered k = true ->
                defaultProviderKind env None registered = Some k)
  /\ (match BIRDHOUSE_DEFAULT_PROVIDER env with
      | Some text => ProviderKind_parse text = None
      | None => True
      end ->
      has_kind registered ai_sdk = true -> has_kind registered terminal_cli = true ->
      defaultProviderKind env None registered
      = Some (if hasOpenAiApiKey env then ai_sdk else terminal_cli)).
Proof.
  split; [reflexivity|]. split; [|split; [|split]].
  - apply default_provider_none.
  - intros k. unfold defaultProviderKind. destruct registered as [|first rest]; [discriminate|].
    assert (Hrest :
      (if has_kind (first :: rest) ai_sdk && hasOpenAiApiKey env then Some ai_sdk
       else if has_kind (first :: rest) terminal_cli then Some terminal_cli
       else if has_kind (first :: rest) ai_sdk then Some ai_sdk
       else Some (cap_kind first)) = Some k -> has_kind (first :: rest) k = true).
    { destruct (has_kind (first :: rest) ai_sdk) eqn:Ea;
        destruct (hasOpenAiApiKey env); cbn [andb];
        destruct (has_kind (first :: rest) terminal_cli) eqn:Et;
        intros H; injection H as <-; trivial; apply has_kind_first. }
    destruct (BIRDHOUSE_DEFAULT_PROVIDER env) as [c|]; [|exact Hrest].
    destruct (truthy c); [|exact Hrest].
    destruct (ProviderKind_parse c) as [p|]; [|exact Hrest].
    destruct (has_kind (first :: rest) p) eqn:Ep; [|exact Hrest].
    intros H. now injection H as <-.
  - intros k Hc Hk. unfold defaultProviderKind. destruct registered as [|first rest].
    + discriminate.
    + rewrite Hc. replace (truthy (kind_text k)) with true by now destruct k.
      now rewrite ProviderKind_parse_text, Hk.
  - intros Hc Ha Ht. unfold defaultProviderKind. destruct registered as [|first rest].
    + discriminate.
    + rewrite Ha, Ht. cbn [andb].
      destruct (BIRDHOUSE_DEFAULT_PROVIDER env) as [c|].
      * rewrite Hc. now destruct (truthy c), (hasOpenAiApiKey env).
      * now destruct (hasOpenAiApiKey env).
Qed.

(** *** Discovery: the client against the server *)

Lemma json_of_capability_canonical (c : ProviderCapability) :
  canonical (json_of_capability c) = true.
Proof. reflexivity. Qed.

Lemma capabilities_canonical (cs : list ProviderCapability) :
  forallb canonical (map json_of_capability cs) = true.
Proof. induction cs as [|c cs IH]; [reflexivity | exact IH]. Qed.

Lemma ProviderCapabilitySchema_parse_json (c : ProviderCapability) :
  ProviderCapabilitySchema_parse (json_of_capability c) = Some c.
Proof.
  unfold ProviderCapabilitySchema_parse, json_of_capability.
  cbn [obj_get String.eqb Ascii.eqb Bool.eqb].
  rewrite ProviderKind_parse_text. now destruct c.
Qed.

Lemma parse_capabilities_json (cs : list ProviderCapability) :
  parse_capabilities (map json_of_capability cs) = inr cs.
Proof.
  induction cs as [|c cs IH]; [reflexivity|].
  cbn [map parse_capabilities]. now rewrite ProviderCapabilitySchema_parse_json, IH.
Qed.

Lemma delivered_json (reply : JsonReply) (response : Response) :
  canonical (reply_value reply) = true -> delivered reply response ->
  response_json response = inr (reply_value reply).
Proof.
  intros Hc (_ & _ & Ht). unfold response_json. now rewrite Ht, (parse_stringify _ Hc).
Qed.

(** [listCapabilities] on the response [H] says was delivered for
    the capabilities: the status is 200, the body is the JSON text of
    the reply, which is read back and passes the schema. *)
Ltac read_capabilities H :=
  unfold listCapabilities;
  let Hs := fresh "Hs" in
  let Hok := fresh "Hok" in
  let Ht := fresh "Ht" in
  pose proof H as (Hs & Hok & Ht); cbn in Hok; rewrite Hok; cbn [negb];
  match type of H with
  | delivered ?reply ?response =>
      rewrite (delivered_json reply response);
      [ cbn [providers_capabilities reply_value obj_get String.eqb Ascii.eqb Bool.eqb];
        apply parse_capabilities_json
      | cbn; now rewrite capabilities_canonical
      | exact H ]
  end.

(** The capabilities the server reports are the capabilities the
    client reads: [listCapabilities], given the response to
    [GET /v1/providers/capabilities], returns [commandCapabilities()]. *)
Theorem capabilities_round_trip (wrappedCommand : option WrappedCommandConfig)
        (registered : list ProviderCapability) (response : Response) :
  delivered (providers_capabilities wrappedCommand registered) response ->
  listCapabilities (inr response) = inr (commandCapabilities wrappedCommand registered).
Proof. intros Hd. read_capabilities Hd. Qed.

Definition sample_capabilities_response : Response :=
  mkResponse true 200 (Some "application/json")
    (Some [dq "{'capabilities':[{'kind':'terminal-cli','supportsStreaming':true,";
           dq "'supportsAttachments':false,'supportsAsync':true}]}"]).

Lemma capabilities_round_trip_witness :
  listCapabilities (inr sample_capabilities_response)
  = inr [mkCapability terminal_cli true false true].
Proof.
  exact (capabilities_round_trip
           (Some (mkWrapped "codex" ["exec"; "{prompt}"] 180000 false parse_text terminal_cli))
           [] sample_capabilities_response
           (conj eq_refl (conj eq_refl eq_refl))).
Defined.

(** [discoverProvider] against a birdhouse server returns the server's
    default provider; when the server has none (an empty registry) it
    answers 503, the client asks for the capabilities, finds none and
    falls back to terminal-cli. *)
Theorem discovery_follows_the_server (env : Env)
        (wrappedCommand : option WrappedCommandConfig)
        (registered : list ProviderCapability)
        (response capabilities_response : Response) :
  delivered (providers_default env wrappedCommand registered) response ->
  delivered (providers_capabilities wrappedCommand registered) capabilities_response ->
  discoverProvider (inr response) (inr capabilities_response)
  = inr (match defaultProviderKind env wrappedCommand registered with
         | Some k => k
         | None => terminal_cli
         end).
Proof.
  intros Hd Hc. unfold discoverProvider.
  assert (Hcaps : listCapabilities (inr capabilities_response)
                  = inr (commandCapabilities wrappedCommand registered))
    by (read_capabilities Hc).
  unfold providers_default in Hd.
  destruct (defaultProviderKind env wrappedCommand registered) as [k|] eqn:E.
  - pose proof (delivered_json (mkReply (JObject [("kind", JString (kind_text k))]) 200)
                  response eq_refl Hd) as Hj.
    destruct Hd as (_ & Hok & _). cbn in Hok. rewrite Hok, Hj.
    cbn [reply_value ProviderDiscoverySchema_parse obj_get String.eqb Ascii.eqb Bool.eqb].
    now rewrite ProviderKind_parse_text.
  - destruct Hd as (_ & Hok & _). cbn in Hok. rewrite Hok, Hcaps.
    destruct wrappedCommand as [cfg|]; [discriminate|].
    apply default_provider_none in E.
    subst registered. reflexivity.
Qed.

Definition sample_default_response : Response :=
  mkResponse true 200 None (Some [dq "{'kind':"; dq "'terminal-cli'}"]).

Lemma discovery_follows_the_server_witness :
  discoverProvider (inr sample_default_response) (inr sample_capabilities_response)
  = inr terminal_cli.
Proof.
  exact (discovery_follows_the_server ServerCliFacts.empty_env
           (Some (mkWrapped "codex" ["exec"; "{prompt}"] 180000 false parse_text terminal_cli))
           [] sample_default_response sample_capabilities_response
           (conj eq_refl (conj eq_refl eq_refl))
           (conj eq_refl (conj eq_refl eq_refl))).
Defined.

End ProviderFacts.

(** ** Push registrations and asynchronous messages *)

Module AsyncFacts.
Import ProviderSdk AgentServer Async TrimFacts.

(** *** [trim] once is [trim] twice *)

Lemma strip_space_prefix (a w : string) :
  strip_space (a ++ w) = None -> strip_space a = None.
Proof.
  unfold strip_space. destruct a as [|x [|y [|z a']]]; cbn [append]; intros H.
  - reflexivity.
  - destruct (ascii_space x); [discriminate | reflexivity].
  - destruct (ascii_space x); [discriminate|].
    destruct (is_byte 194 x && is_byte 160 y); [discriminate | reflexivity].
  - destruct (ascii_space x); [discriminate|].
    destruct (is_byte 194 x && is_byte 160 y); [discriminate|].
    match goal with
    | |- (if ?b then _ else _) = None => destruct b; [discriminate | reflexivity]
    end.
Qed.

Lemma trim_idempotent (s : string) : trim (trim s) = trim s.
Proof.
  apply trim_fixed.
  - unfold trim. destruct (trimStart_spec s) as (_ & Hs).
    destruct (trimEnd_spec (trimStart s)) as ((w & Hw) & _).
    rewrite Hw in Hs. exact (strip_space_prefix _ _ Hs).
  - unfold trim. now destruct (trimEnd_spec (trimStart s)) as (_ & He).
Qed.

(** *** The registry *)

Lemma registry_get_set (m : PushRegistry) (key k : string) (v : list string) :
  registry_get (registry_set m key v) k
  = if String.eqb key k then Some v else registry_get m k.
Proof.
  induction m as [|[k0 v0] m IH]; cbn [registry_set registry_get]; [reflexivity|].
  destruct (String.eqb k0 key) eqn:E0; cbn [registry_get].
  - apply String.eqb_eq in E0. subst k0. now destruct (String.eqb key k).
  - rewrite IH. destruct (String.eqb k0 k) eqn:E1; [|reflexivity].
    apply String.eqb_eq in E1. subst k0.
    destruct (String.eqb key k) eqn:E2; [|reflexivity].
    apply String.eqb_eq in E2. subst key. now rewrite String.eqb_refl in E0.
Qed.

Lemma registry_set_set (m : PushRegistry) (key : string) (v v' : list string) :
  registry_set (registry_set m key v) key v' = registry_set m key v'.
Proof.
  induction m as [|[k0 v0] m IH]; cbn [registry_set].
  - now rewrite String.eqb_refl.
  - destruct (String.eqb k0 key) eqn:E0; cbn [registry_set]; rewrite E0; [reflexivity|].
    now rewrite IH.
Qed.

Lemma set_add_in (s : list string) (x : string) : In x (set_add s x).
Proof.
  unfold set_add. destruct (existsb (String.eqb x) s) eqn:E.
  - apply existsb_exists in E as (y & Hy & Heq). apply String.eqb_eq in Heq. now subst y.
  - apply in_or_app. right. now left.
Qed.

Lemma set_add_twice (s : list string) (x : string) : set_add (set_add s x) x = set_add s x.
Proof.
  unfold set_add at 1.
  assert (H : existsb (String.eqb x) (set_add s x) = true).
  { apply existsb_exists. exists x. split; [apply set_add_in | apply String.eqb_refl]. }
  now rewrite H.
Qed.

Lemma set_add_NoDup (s : list string) (x : string) : NoDup s -> NoDup (set_add s x).
Proof.
  intros H. unfold set_add. destruct (existsb (String.eqb x) s) eqn:E; [exact H|].
  apply NoDup_app; [exact H | repeat constructor; intros [] |].
  intros y Hy [Hx|[]]. subst y.
  assert (existsb (String.eqb x) s = true); [|congruence].
  apply existsb_exists. exists x. split; [exact Hy | apply String.eqb_refl].
Qed.

(** Registering a push token.  The token joins the set of its key,
    once: the other tokens of the key keep their order, a token
    already there is not added again, and registering twice is
    registering once.  The sets of the other keys are untouched. *)
Theorem push_registration (m : PushRegistry) (contactId threadId tok : string) :
  (forall c t,
      tokens_for (registerPushToken m contactId threadId tok) c t
      = if String.eqb (getPushRegistryKey contactId threadId) (getPushRegistryKey c t)
        then set_add (tokens_for m c t) tok
        else tokens_for m c t)
  /\ In tok (tokens_for (registerPushToken m contactId threadId tok) contactId threadId)
  /\ registerPushToken (registerPushToken m contactId threadId tok) contactId threadId tok
     = registerPushToken m contactId threadId tok
  /\ (NoDup (tokens_for m contactId threadId) ->
      NoDup (tokens_for (registerPushToken m contactId threadId tok) contactId threadId)).
Proof.
  assert (Hlook : forall c t,
      tokens_for (registerPushToken m contactId threadId tok) c t
      = if String.eqb (getPushRegistryKey contactId threadId) (getPushRegistryKey c t)
        then set_add (tokens_for m c t) tok
        else tokens_for m c t).
  { intros c t. unfold tokens_for, registerPushToken. rewrite registry_get_set.
    destruct (String.eqb (getPushRegistryKey contactId threadId) (getPushRegistryKey c t))
      eqn:E; [|reflexivity].
    apply String.eqb_eq in E. now rewrite E. }
  split; [exact Hlook|]. split; [|split].
  - rewrite Hlook, String.eqb_refl. apply set_add_in.
  - unfold registerPushToken at 1. fold (tokens_for (registerPushToken m contactId threadId tok)
                                                    contactId threadId).
    rewrite Hlook, String.eqb_refl, set_add_twice.
    unfold registerPushToken. apply registry_set_set.
  - intros H. rewrite Hlook, String.eqb_refl. now apply set_add_NoDup.
Qed.

Lemma key_injective (c1 : string) : forall c2 t1 t2,
  free_of ":" c1 = true -> free_of ":" c2 = true ->
  getPushRegistryKey c1 t1 = getPushRegistryKey c2 t2 -> c1 = c2 /\ t1 = t2.
Proof.
  unfold getPushRegistryKey, free_of.
  induction c1 as [|x c1 IH]; intros [|y c2] t1 t2 H1 H2 E; cbn [append string_forall] in *.
  - injection E as ->. auto.
  - injection E as <- _. cbn in H2. discriminate.
  - injection E as -> _. cbn in H1. discriminate.
  - injection E as -> E. apply andb_true_iff in H1 as [_ H1], H2 as [_ H2].
    destruct (IH c2 t1 t2 H1 H2 E) as [-> ->]. auto.
Qed.

(** The key of a registration is the contact id, a colon, the thread
    id.  Two pairs whose contact ids have no colon get different
    keys; with a colon in an id two pairs can share a key, and a token
    registered for one is then a token of the other. *)
Theorem push_registry_keys :
  (forall c1 t1 c2 t2,
      free_of ":" c1 = true -> free_of ":" c2 = true ->
      getPushRegistryKey c1 t1 = getPushRegistryKey c2 t2 -> c1 = c2 /\ t1 = t2)
  /\ (forall a b c, getPushRegistryKey (a ++ ":" ++ b) c = getPushRegistryKey a (b ++ ":" ++ c))
  /\ (forall m a b c tok,
         In tok (tokens_for (registerPushToken m (a ++ ":" ++ b) c tok) a (b ++ ":" ++ c))).
Proof.
  assert (Hk : forall a b c,
             getPushRegistryKey (a ++ ":" ++ b) c = getPushRegistryKey a (b ++ ":" ++ c)).
  { intros a b c. unfold getPushRegistryKey. rewrite !append_assoc. reflexivity. }
  split; [intros c1 t1 c2 t2; apply key_injective|]. split; [exact Hk|].
  intros m a b c tok. unfold tokens_for, registerPushToken.
  rewrite registry_get_set, (Hk a b c), String.eqb_refl. apply set_add_in.
Qed.

(** *** The text of a follow-up *)

Lemma or_else_trimmed (s fallback : string) :
  fallback <> "" -> trim fallback = fallback ->
  or_else (trim s) fallback <> "" /\ trim (or_else (trim s) fallback) = or_else (trim s) fallback.
Proof.
  intros Hn Ht. unfold or_else. destruct (truthy (trim s)) eqn:E.
  - split; [|apply trim_idempotent]. intros H. now rewrite H in E.
  - auto.
Qed.

(** [generateAgentText] never returns an empty or padded text:
    whatever it returns is not empty and is its own [trim]. *)
Theorem generateAgentText_never_blank (stack : nat)
        (wrappedCommand : option WrappedCommandConfig)
        (signals : list Signal) (adapter_run : Thrown + Run unit)
        (text : option string) (t : string) :
  generateAgentText stack wrappedCommand signals adapter_run text = Returned t ->
  t <> "" /\ trim t = t.
Proof.
  unfold generateAgentText.
  assert (Hf : forall s, or_else (trim s) FOLLOW_UP_FALLBACK <> ""
                         /\ trim (or_else (trim s) FOLLOW_UP_FALLBACK)
                            = or_else (trim s) FOLLOW_UP_FALLBACK).
  { intros s. apply or_else_trimmed; [discriminate | reflexivity]. }
  assert (Hrest :
    match wrappedCommand with
    | Some cfg =>
        match awaited (runWrappedCommandPrompt stack cfg FOLLOW_UP_PROMPT signals) with
        | Returned output => Returned (or_else (trim output) FOLLOW_UP_FALLBACK)
        | Threw t0 => Threw t0
        | Pending => Pending
        end
    | None =>
        match adapter_run with
        | inl err => Threw err
        | inr run =>
            match result run with
            | Returned _ =>
                Returned (or_else (trim (collected (emitted run))) FOLLOW_UP_FALLBACK)
            | Threw t0 => Threw t0
            | Pending => Pending
            end
        end
    end = Returned t -> t <> "" /\ trim t = t).
  { destruct wrappedCommand as [cfg|].
    - destruct (awaited _) as [output| |]; try discriminate.
      intros H. injection H as <-. apply Hf.
    - destruct adapter_run as [err|run]; [discriminate|].
      destruct (result run); try discriminate.
      intros H. injection H as <-. apply Hf. }
  destruct text as [t0|]; [|exact Hrest].
  destruct (truthy t0 && nonempty (trim t0)) eqn:E; [|exact Hrest].
  intros H. injection H as <-. apply andb_true_iff in E as [_ E]. split.
  - intros Hz. now rewrite Hz in E.
  - apply trim_idempotent.
Qed.

Lemma generateAgentText_never_blank_witness :
  generateAgentText 1000 None [] (inr (mkRun [token "  On it. "; typing false] (Returned tt)
                                        FailureMessage.sample_world)) (Some "   ")
  = Returned "On it."
  /\ "On it." <> "" /\ trim "On it." = "On it.".
Proof.
  exact (conj eq_refl
           (generateAgentText_never_blank 1000 None []
              (inr (mkRun [token "  On it. "; typing false] (Returned tt)
                          FailureMessage.sample_world)) (Some "   ") "On it." eq_refl)).
Defined.

(** *** Delivery *)

(** What [dispatchAsyncMessage] does when it succeeds.  It reports as
    delivered the number of tokens registered for the contact and the
    thread.  With no token it makes no request to the push service,
    whatever the service would answer; with tokens it makes one
    request, holding one notification per token in registration order,
    each with the contact's display name as title and the generated
    text as body. *)
Theorem async_delivery (m : PushRegistry) (generated : Result string)
        (contactId displayName threadId now : string) (expo : Thrown + Response)
        (requests : list (list Notification)) (n : nat) (text : string) :
  dispatchAsyncMessage m generated contactId displayName threadId now expo
  = (requests, Returned (n, text)) ->
  generated = Returned text
  /\ n = List.length (tokens_for m contactId threadId)
  /\ (n = 0 -> requests = [])
  /\ (0 < n ->
      exists notifications,
        requests = [notifications]
        /\ map to notifications = tokens_for m contactId threadId
        /\ Forall (fun x => title x = displayName /\ body_text x = text
                            /\ sound x = "default"
                            /\ data x = mkPushData contactId threadId text now)
                  notifications).
Proof.
  unfold dispatchAsyncMessage, sendExpoPush.
  destruct generated as [text0| |]; try discriminate.
  destruct (tokens_for m contactId threadId) as [|tok tokens] eqn:Et.
  - intros H. injection H as <- <- <-. repeat split; trivial. cbn. lia.
  - set (notifications := map _ (tok :: tokens)).
    destruct expo as [err|response]; [discriminate|].
    destruct (negb (ok response)); [discriminate|].
    intros H. injection H as <- <- <-. split; [reflexivity|]. split; [reflexivity|].
    split; [discriminate|]. intros _. exists notifications. split; [reflexivity|].
    unfold notifications. split.
    + rewrite map_map. cbn [to]. apply map_id.
    + apply Forall_forall. intros x Hx. apply in_map_iff in Hx as (y & <- & _).
      cbn. auto.
Qed.

Definition sample_registry : PushRegistry :=
  registerPushToken (registerPushToken (registerPushToken [] "c1" "t1" "ExpoToken[a]")
                                       "c1" "t1" "ExpoToken[b]")
                    "c1" "t1" "ExpoToken[a]".

Lemma async_delivery_witness :
  dispatchAsyncMessage sample_registry (Returned "On it.") "c1" "Agent" "t1"
                       "2026-01-01T00:00:00Z" (inr (mkResponse true 200 None (Some ["{}"])))
  = ([[mkNotification "ExpoToken[a]" "default" "Agent" "On it."
         (mkPushData "c1" "t1" "On it." "2026-01-01T00:00:00Z");
       mkNotification "ExpoToken[b]" "default" "Agent" "On it."
         (mkPushData "c1" "t1" "On it." "2026-01-01T00:00:00Z")]],
      Returned (2, "On it."))
  /\ 2 = List.length (tokens_for sample_registry "c1" "t1").
Proof.
  exact (conj eq_refl
           (proj1 (proj2
              (async_delivery sample_registry (Returned "On it.") "c1" "Agent" "t1"
                 "2026-01-01T00:00:00Z" (inr (mkResponse true 200 None (Some ["{}"])))
                 _ 2 "On it." eq_refl)))).
Defined.

End AsyncFacts.

(** ** What the schema accepts *)

Module SchemaSoundness.
Import SchemaFacts.

Section WithSchemas.

Variable is_datetime : string -> bool.

Lemma z_string1_truthy (props : list (string * JSON)) (key s : string) :
  z_string1 props key = Some s -> truthy s = true.
Proof.
  unfold z_string1, bind_opt. destruct (z_string props key) as [t|]; [|discriminate].
  destruct (truthy t) eqn:E; [|discriminate]. intros H. now injection H as <-.
Qed.

Lemma z_datetime_ok (props : list (string * JSON)) (key s : string) :
  z_datetime is_datetime props key = Some s -> is_datetime s = true.
Proof.
  unfold z_datetime, bind_opt. destruct (z_string props key) as [t|]; [|discriminate].
  destruct (is_datetime t) eqn:E; [|discriminate]. intros H. now injection H as <-.
Qed.

Lemma z_string1_opt_truthy (props : list (string * JSON)) (key : string) (o : option string) :
  z_string1_opt props key = Some o -> some_truthy o = true.
Proof.
  unfold z_string1_opt. destruct (obj_get props key) as [[| | |s| |]|]; try discriminate.
  - destruct (truthy s) eqn:E; [|discriminate]. intros H. now injection H as <-.
  - intros H. now injection H as <-.
Qed.

Ltac open_bind H :=
  repeat match type of H with
         | bind_opt ?x _ = Some _ =>
             let E := fresh "E" in
             destruct x eqn:E; [cbn [bind_opt] in H | discriminate H]
         end.

Lemma AttachmentSchema_parse_valid (v : JSON) (a : Attachment) :
  AttachmentSchema_parse v = Some a -> Attachment_valid a = true.
Proof.
  destruct v as [| | | | |props]; try discriminate.
  unfold AttachmentSchema_parse. intros H. open_bind H.
  injection H as <-. unfold Attachment_valid. cbn [att_id att_name att_mimeType att_uri
                                                    att_dataBase64].
  repeat match goal with
         | E : z_string1_opt _ _ = Some _ |- _ => apply z_string1_opt_truthy in E
         | E : z_string1 _ _ = Some _ |- _ => apply z_string1_truthy in E
         end.
  repeat (apply andb_true_iff; split); assumption.
Qed.

(** Whatever [StreamEventSchema] accepts meets the constraints of the
    event type (identifiers, codes and messages are not empty, time
    stamps are datetimes, an attachment is well formed), and is what
    the schema reads back from the event's own JSON: parsing drops the
    properties the schema does not know and fills in the default of
    [retryable], and doing it again changes nothing. *)
Theorem schema_accepts_only_valid (v : JSON) (e : StreamEvent) :
  StreamEventSchema_parse is_datetime v = Some e ->
  StreamEvent_valid is_datetime e = true
  /\ StreamEventSchema_parse is_datetime (json_of_event e) = Some e.
Proof.
  intros H.
  assert (Hv : StreamEvent_valid is_datetime e = true).
  { destruct v as [| | | | |props]; try discriminate.
    unfold StreamEventSchema_parse in H. open_bind H.
    repeat match type of H with
           | (if ?b then _ else _) = Some _ => destruct b
           end;
      try discriminate; open_bind H;
      try (destruct (obj_get props "retryable") as [[]|]; try discriminate;
           cbn [bind_opt] in H);
      injection H as <-; cbn [StreamEvent_valid];
      repeat match goal with
             | E : z_string1 _ _ = Some _ |- _ => apply z_string1_truthy in E
             | E : z_datetime _ _ _ = Some _ |- _ => apply z_datetime_ok in E
             | E : bind_opt (obj_get _ _) AttachmentSchema_parse = Some _ |- _ =>
                 let E' := fresh "E" in
                 destruct (obj_get props "attachment") eqn:E'; [cbn [bind_opt] in E
                                                                |discriminate E];
                 apply AttachmentSchema_parse_valid in E
             end;
      try reflexivity; try assumption;
      repeat (apply andb_true_iff; split); assumption. }
  split; [exact Hv | now apply StreamEventSchema_parse_json].
Qed.

End WithSchemas.

Lemma schema_accepts_only_valid_witness :
  StreamEvent_valid (fun _ => true) (error "busy" "try later" false) = true
  /\ StreamEventSchema_parse (fun _ => true)
       (json_of_event (error "busy" "try later" false))
     = Some (error "busy" "try later" false).
Proof.
  exact (schema_accepts_only_valid (fun _ => true)
           (JObject [("type", JString "error"); ("code", JString "busy");
                     ("extra", JNull); ("message", JString "try later")])
           (error "busy" "try later" false) eq_refl).
Defined.

End SchemaSoundness.

(** ** The other adapters *)

Module AdapterFacts.
Import ProviderSdk AgentServer Adapters Providers GenFacts TurnShape Transport.

Lemma fold_left_append (l : list string) : forall acc,
  fold_left (fun a t => (a ++ t)%string) l acc = (acc ++ concat_chunks l)%string.
Proof.
  induction l as [|t l IH]; intros acc; cbn [fold_left concat_chunks fold_right].
  - now rewrite append_nil_r.
  - fold (concat_chunks l). now rewrite IH, append_assoc.
Qed.

Lemma collected_tokens (l : list string) (rest : list StreamEvent) :
  Async.collected (map token l ++ rest) = (concat_chunks l ++ Async.collected rest)%string.
Proof.
  induction l as [|t l IH]; [reflexivity|].
  cbn [map app Async.collected concat_chunks fold_right]. fold (concat_chunks l).
  now rewrite IH, append_assoc.
Qed.

(** The AI SDK adapter, read through the endpoint: the turn is well
    formed whether the model's stream completes or fails, every text
    the model delivers is one token, in order, and the text of
    [message_end] is the tokens put together. *)
Theorem ai_sdk_turn (textStream : list string) (failure : option Thrown)
        (input : ProviderSendInput) (w : World) :
  let run := AiSdk_sendMessageStream textStream failure input w in
  well_formed_turn (chat_stream_events run) = true
  /\ (failure = None ->
      emitted run
      = message_start (id_supply w (id_calls w)) (threadId input) (clock w (clock_calls w))
        :: typing true
        :: map token textStream
        ++ [typing false;
            message_end (id_supply w (id_calls w)) (concat_chunks textStream) received
                        (clock w (S (clock_calls w)))]
      /\ Async.collected (emitted run) = concat_chunks textStream)
  /\ (forall err, failure = Some err ->
      chat_stream_events run
      = message_start (id_supply w (id_calls w)) (threadId input) (clock w (clock_calls w))
        :: typing true
        :: map token textStream ++ [provider_error err]).
Proof.
  intros run. unfold run, AiSdk_sendMessageStream.
  unfold chat_stream_events, Gen.bind, randomId, nowISO, yield, throw.
  cbn [emitted result world app]. rewrite for_each_emit. cbn [emitted result world app].
  cbn [id_supply clock id_calls clock_calls].
  destruct failure as [err|]; cbn [emitted result world app id_supply clock id_calls clock_calls].
  - rewrite app_nil_r. split; [|split; [discriminate|]].
    + unfold provider_error.
      apply (turn_with_error _ _ _ _ _ _ (typing true :: map token textStream)).
      cbn [forallb is_middle andb]. apply tokens_are_middle.
    + intros e H. now injection H as <-.
  - rewrite fold_left_append. cbn [append]. split; [|split; [|discriminate]].
    + rewrite app_nil_r. apply framed_turn, tokens_are_middle.
    + intros _. split; [reflexivity|].
      cbn [Async.collected]. rewrite collected_tokens. cbn [Async.collected].
      apply append_nil_r.
Qed.

(** The address a remote adapter posts to.  [provider.extra.path] is
    used when it is a string that starts with a slash, the adapter's
    default path otherwise; either starts with a slash, so the address
    is the base URL less its trailing slashes followed by the path. *)
Theorem remote_address (baseUrl defaultPath : string) (extra : list (string * JSON)) :
  startsWith defaultPath "/" = true ->
  startsWith (getRemotePath extra defaultPath) "/" = true
  /\ remote_url baseUrl extra defaultPath
     = (trimmedBase baseUrl ++ getRemotePath extra defaultPath)%string
  /\ (forall path, obj_get extra "path" = Some (JString path) ->
                   getRemotePath extra defaultPath
                   = if startsWith path "/" then path else defaultPath)
  /\ (obj_get extra "path" = None -> getRemotePath extra defaultPath = defaultPath).
Proof.
  intros Hd.
  assert (H : startsWith (getRemotePath extra defaultPath) "/" = true).
  { unfold getRemotePath. destruct (obj_get extra "path") as [[| | |p| |]|]; trivial.
    now destruct (startsWith p "/") eqn:E. }
  split; [exact H|]. split; [|split].
  - unfold remote_url, joinUrl, normalizedPath. now rewrite H.
  - intros path Hp. unfold getRemotePath. now rewrite Hp.
  - intros Hp. unfold getRemotePath. now rewrite Hp.
Qed.

Lemma remote_address_witness :
  remote_url "https://agent.example//" [("path", JString "v2/chat")] "/chat"
  = "https://agent.example/chat".
Proof.
  exact (proj1 (proj2 (remote_address "https://agent.example//" "/chat"
                         [("path", JString "v2/chat")] eq_refl))).
Defined.

Lemma replaceAll_placeholder (prompt : string) :
  free_of "$" prompt = true -> replaceAll PLACEHOLDER PLACEHOLDER prompt = prompt.
Proof.
  intros H. unfold replaceAll, PLACEHOLDER.
  cbn [replaceAll_from has_prefix Ascii.eqb Bool.eqb andb String.length Nat.sub drop rev].
  rewrite (PromptSubstitution.GetSubstitution_plain _ _ _ _ H). apply append_nil_r.
Qed.

(** The CLI adapters as the default registry builds them, for a
    contact with no [provider.extra] and a prompt with no [$] in it.
    With nothing set in the environment the terminal adapter runs
    [codex exec <prompt>], the Claude Code adapter [claude -p <prompt>]
    (or the command the environment names), the OpenClaw adapter
    [openclaw --no-color agent --message <prompt>], each with the
    default timeout, nothing on stdin and text output.  The NanoClaw
    adapter has no command unless the environment gives one, and
    fails. *)
Theorem cli_adapter_defaults (env : SdkEnv) (tid text : string) :
  free_of "$" text = true ->
  let input := mkInput [] tid (mkOutbound text []) in
  (truthy (or_default (BIRDHOUSE_CLAUDE_CODE_COMMAND env) "claude") = true ->
   resolveCommand (ClaudeCodeCliProviderAdapter env) input
   = inr (mkCommand (or_default (BIRDHOUSE_CLAUDE_CODE_COMMAND env) "claude")
                    ["-p"; text] None None 180000 None parse_text))
  /\ (BIRDHOUSE_TERMINAL_CLI_COMMAND env = None -> BIRDHOUSE_CODEX_COMMAND env = None ->
      BIRDHOUSE_TERMINAL_CLI_ARGS env = None ->
      resolveCommand (TerminalCliProviderAdapter env) input
      = inr (mkCommand "codex" ["exec"; text] None None 180000 None parse_text))
  /\ (BIRDHOUSE_OPENCLAW_COMMAND env = None ->
      resolveCommand (OpenClawCliProviderAdapter env) input
      = inr (mkCommand "openclaw" ["--no-color"; "agent"; "--message"; text]
                       None None 180000 None parse_text))
  /\ (BIRDHOUSE_NANOCLAW_COMMAND env = None ->
      resolveCommand (NanoClawCliProviderAdapter env) input
      = inl (ErrorObject
               (dq "nanoclaw-cli requires provider.extra.command. Example: {'command':'nanoclaw','args':['{prompt}']}"))).
Proof.
  intros Hp input.
  pose proof (replaceAll_placeholder text Hp) as Hr.
  change (replaceAll "{prompt}" PLACEHOLDER text = text) in Hr.
  assert (Hprompt : getPrompt input = text) by (cbn; apply append_nil_r).
  split; [|split; [|split]].
  - intros Ht. unfold resolveCommand. cbn [parseCliExtra contact_extra input obj_get x_command
      ClaudeCodeCliProviderAdapter defaultCommand].
    rewrite Ht, Hprompt. cbn -[replaceAll]. now rewrite Hr.
  - intros H1 H2 H3. unfold resolveCommand, TerminalCliProviderAdapter.
    rewrite H1, H2, H3. rewrite Hprompt. cbn -[replaceAll]. now rewrite Hr.
  - intros H1. unfold resolveCommand, OpenClawCliProviderAdapter. rewrite H1, Hprompt.
    cbn -[replaceAll]. now rewrite Hr.
  - intros H1. unfold resolveCommand, NanoClawCliProviderAdapter. now rewrite H1.
Qed.

Lemma cli_adapter_defaults_witness :
  resolveCommand
    (TerminalCliProviderAdapter (mkSdkEnv None None None None None None None))
    (mkInput [] "thread-1" (mkOutbound "list the files" []))
  = inr (mkCommand "codex" ["exec"; "list the files"] None None 180000 None parse_text).
Proof.
  exact (proj1 (proj2 (cli_adapter_defaults (mkSdkEnv None None None None None None None)
                         "thread-1" "list the files" eq_refl))
           eq_refl eq_refl eq_refl).
Defined.

End AdapterFacts.

(** ** [JSON.parse] reads what [JSON.stringify(value, null, 2)] writes *)

Module PrettyRoundTrip.
Import Apps Extraction JsonFacts JsonRoundTrip.














(** *** Numbers *)



(** *** Values *)









(** *** The fuel [JSON.parse] starts with is enough *)




End PrettyRoundTrip.

(** ** The mobile app's storage *)

Module StorageFacts.
Import Storage JsonRoundTrip.

Lemma getItem_setItem (st : AsyncStorage) (key k value : string) :
  getItem (setItem st key value) k
  = if String.eqb key k then Some value else getItem st k.
Proof.
  induction st as [|[k0 v0] st IH]; cbn [setItem getItem]; [reflexivity|].
  destruct (String.eqb k0 key) eqn:E0; cbn [getItem].
  - apply String.eqb_eq in E0. subst k0. now destruct (String.eqb key k).
  - rewrite IH. destruct (String.eqb k0 k) eqn:E1; [|reflexivity].
    apply String.eqb_eq in E1. subst k0.
    destruct (String.eqb key k) eqn:E2; [|reflexivity].
    apply String.eqb_eq in E2. subst key. now rewrite String.eqb_refl in E0.
Qed.

Lemma stringify_truthy (v : JSON) : truthy (stringify v) = true.
Proof. pose proof (value_head v) as H. now destruct (stringify v). Qed.

Lemma readJson_stringify (v fallback : JSON) :
  canonical v = true -> readJson (inr (Some (stringify v))) fallback = v.
Proof.
  intros Hc. unfold readJson. now rewrite stringify_truthy, (parse_stringify v Hc).
Qed.

(** What is saved is what is loaded.  Contacts and threads saved to
    the storage come back as they were, each under its own key, so
    saving the ones leaves the others alone; with nothing stored, with
    an empty item or with an item that is not JSON, the contacts are
    the empty list and the threads the empty object.  (The values are
    those [JSON.stringify] writes in the order given: integers for
    numbers, no two keys alike, no key an array index.) *)
Theorem mobile_storage_round_trip (st : AsyncStorage) (v : JSON) :
  canonical v = true ->
  loadContacts (saveContacts st v) = v
  /\ loadThreads (saveThreads st v) = v
  /\ loadThreads (saveContacts st v) = loadThreads st
  /\ loadContacts (saveThreads st v) = loadContacts st
  /\ loadContacts [] = JArray [] /\ loadThreads [] = JObject []
  /\ (forall text, truthy text = false \/ Json.parse text = None ->
        loadContacts (setItem st CONTACTS_KEY text) = JArray []
        /\ loadThreads (setItem st THREADS_KEY text) = JObject []).
Proof.
  intros Hc. unfold loadContacts, saveContacts, loadThreads, saveThreads.
  rewrite !getItem_setItem, !String.eqb_refl.
  change (String.eqb CONTACTS_KEY THREADS_KEY) with false.
  change (String.eqb THREADS_KEY CONTACTS_KEY) with false.
  rewrite !(readJson_stringify _ _ Hc).
  repeat split; trivial;
    rewrite getItem_setItem, String.eqb_refl; unfold readJson;
    destruct H as [H|H]; rewrite H; trivial; now destruct (truthy text).
Qed.

Lemma mobile_storage_round_trip_witness :
  loadThreads (saveThreads [(CONTACTS_KEY, "[]")]
                 (JObject [("c1-default", JArray [JObject [("text", JString "hi")]])]))
  = JObject [("c1-default", JArray [JObject [("text", JString "hi")]])]
  /\ loadContacts (saveThreads [(CONTACTS_KEY, "[]")]
                     (JObject [("c1-default", JArray [JObject [("text", JString "hi")]])]))
     = JArray [].
Proof.
  exact (match mobile_storage_round_trip [(CONTACTS_KEY, "[]")]
                 (JObject [("c1-default", JArray [JObject [("text", JString "hi")]])])
                 eq_refl with
         | conj _ (conj H2 (conj _ (conj H4 _))) => conj H2 (eq_trans H4 eq_refl)
         end).
Defined.

End StorageFacts.

(** ** Messages and credentials in the two apps *)

Module AppFacts.
Import Transport Apps AsyncFacts JsonRoundTrip PrettyRoundTrip.

(** Marking a thread as read.  The messages keep their number, their
    order and everything but the status; an agent's message that was
    received or sent becomes read, every other message is left as it
    is; afterwards no agent's message is received or sent, and doing
    it again changes nothing. *)
Theorem marking_as_read (messages : list Message) :
  List.length (normalizeMessageStatusForRead messages) = List.length messages
  /\ map (fun m => (msg_id m, msg_threadId m, msg_role m, msg_text m, msg_attachments m,
                    msg_createdAt m))
         (normalizeMessageStatusForRead messages)
     = map (fun m => (msg_id m, msg_threadId m, msg_role m, msg_text m, msg_attachments m,
                      msg_createdAt m))
           messages
  /\ map msg_status (normalizeMessageStatusForRead messages)
     = map (fun m => match msg_role m, msg_status m with
                     | role_agent, received | role_agent, sent => read
                     | _, s => s
                     end) messages
  /\ forallb (fun m => match msg_role m, msg_status m with
                       | role_agent, received | role_agent, sent => false
                       | _, _ => true
                       end)
             (normalizeMessageStatusForRead messages) = true
  /\ normalizeMessageStatusForRead (normalizeMessageStatusForRead messages)
     = normalizeMessageStatusForRead messages.
Proof.
  unfold normalizeMessageStatusForRead.
  split; [apply length_map|].
  split; [rewrite map_map; apply map_ext; intros [i t [] x a [] c]; reflexivity|].
  split; [rewrite map_map; apply map_ext; intros [i t [] x a [] c]; reflexivity|].
  split.
  - rewrite forallb_forall. intros m Hm. apply in_map_iff in Hm as (m0 & <- & _).
    destruct m0 as [i t [] x a [] c]; reflexivity.
  - rewrite map_map. apply map_ext. intros [i t [] x a [] c]; reflexivity.
Qed.

(** Credentials.  The CLI's [authFromOptions] returns only
    configurations that [AuthConfigSchema] accepts (no empty token,
    user name or password), and takes any auth type other than
    "bearer" and "basic" for none.  The mobile app's
    [buildAuthConfig] trims what was typed and checks nothing: a
    bearer draft with a blank token gives the empty token, which the
    schema refuses. *)
Theorem app_credentials (options : AuthOptions) (draft : DraftContact) :
  (forall auth, authFromOptions options = inr auth -> AuthConfig_valid auth = true)
  /\ (forall a, opt_auth options = Some a ->
                String.eqb a "bearer" = false -> String.eqb a "basic" = false ->
                authFromOptions options = inr auth_none)
  /\ match buildAuthConfig draft with
     | auth_none => True
     | auth_bearer t => trim t = t
     | auth_basic u p => trim u = u /\ trim p = p
     end
  /\ (authType draft = type_bearer -> trim (bearerToken draft) = "" ->
      buildAuthConfig draft = auth_bearer ""
      /\ AuthConfig_valid (buildAuthConfig draft) = false).
Proof.
  split; [|split; [|split]].
  - intros auth. unfold authFromOptions.
    destruct (String.eqb _ "bearer").
    + destruct (opt_token options) as [t|]; [|discriminate].
      destruct (truthy t) eqn:E; [|discriminate]. intros H. now injection H as <-.
    + destruct (String.eqb _ "basic").
      * destruct (opt_username options) as [u|], (opt_password options) as [p|];
          try discriminate.
        destruct (truthy u && truthy p) eqn:E; [|discriminate].
        intros H. now injection H as <-.
      * intros H. now injection H as <-.
  - intros a Ha H1 H2. unfold authFromOptions. now rewrite Ha, H1, H2.
  - unfold buildAuthConfig. destruct (authType draft); trivial;
      [apply trim_idempotent | split; apply trim_idempotent].
  - intros Ht Hb. unfold buildAuthConfig. rewrite Ht, Hb. now split.
Qed.




End AppFacts.
